(** * Sleepy salon scheduler: the simulation engine of [src/pages/Index.tsx]

    The engine lives in one React component.  Its state is a set of
    [useState] cells; every handler is a closure over the values those
    cells had at the render that created the handler, and changes state
    only by queueing updates ([setX(value)] or [setX(prev => ...)]),
    which React applies in order once the handler has returned.  A
    handler that calls another one ([processTimeStep] calls
    [addRandomCustomer]) shares its closure with it: the callee reads
    the same rendered values, not what the caller has queued.

    The embedding keeps that structure: a handler is a function from the
    rendered state to the list of updates it queues, and [commit]
    applies the queue.  A command of the machine at the end of the model
    runs a handler of the latest render; a time step is a command with
    the step and the two random draws as arguments.  The animation loop
    that computes the step from two timestamps is modelled on its own,
    as [animationLoop], with the two refs it reads and writes.

    The handlers carry times as rationals ([Q]) and compare them as the
    code does; the functions that compute a figure for the display
    round, and are modelled in the arithmetic of IEEE 754 doubles (see
    Numbers below).  Counters and identifiers are integers ([Z]), array
    indices are [nat].
    Toasts and the cells that only drive the visualisation
    ([lastActiveBarber], [lastServedCustomer], [notificationCount]) are
    left out: no handler below reads them for anything but the
    highlight timer. *)

From Stdlib Require Import QArith Qround Qabs Qminmax Qpower Lqa.
From stdpp Require Import base list strings pretty.

Local Open Scope Z_scope.

(** ** Data model *)

Inductive CustomerState := WAITING | GETTING_HAIRCUT | SERVED | TURNED_AWAY.
Inductive BarberState := SLEEPING | WORKING.

#[global] Instance CustomerState_eq_dec : EqDecision CustomerState.
Proof. solve_decision. Defined.
#[global] Instance BarberState_eq_dec : EqDecision BarberState.
Proof. solve_decision. Defined.

(** Optional fields of the TypeScript interfaces ([timeServed?: number])
    are [option]s; [None] is [undefined]. *)
Module Customer.
Record t := mk {
  id : Z;
  name : string;
  state : CustomerState;
  timeArrived : Q;
  timeServed : option Q;
  timeLeft : option Q;
  servedBy : option Z;
  waitingPosition : option Z;
  serviceEndTime : option Q
}.
End Customer.

Module Barber.
Record t := mk {
  id : Z;
  state : BarberState;
  servingCustomerId : option Z;
  totalCustomersServed : Z;
  currentServiceStartTime : option Q;
  serviceEndTime : option Q
}.

(** [barber.id = index + 1] *)
Definition with_id (b : t) (i : Z) : t :=
  mk i (state b) (servingCustomerId b) (totalCustomersServed b)
     (currentServiceStartTime b) (serviceEndTime b).
End Barber.

(** The [useState] cells the engine reads and writes. *)
Record Sim := mkSim {
  numBarbers : Z;
  numChairs : Z;
  serviceTime : Q;
  arrivalRate : Q;
  isRunning : bool;
  isPaused : bool;
  currentTime : Q;
  nextCustomerId : Z;
  barbers : list Barber.t;
  waitingCustomers : list Customer.t;
  currentCustomers : list Customer.t;
  servedCustomers : list Customer.t;
  turnedAwayCustomers : list Customer.t
}.

(** ** React state updates *)

(** The argument of a state setter: a new value, or a function of the
    value the cell holds when the update is applied. *)
Inductive Action (A : Type) :=
  | Value (v : A)
  | Updater (f : A → A).
Arguments Value {A} v.
Arguments Updater {A} f.

Definition resolve {A} (a : Action A) (prev : A) : A :=
  match a with
  | Value v => v
  | Updater f => f prev
  end.

Inductive Update :=
  | setNumBarbers (a : Action Z)
  | setNumChairs (a : Action Z)
  | setIsRunning (a : Action bool)
  | setIsPaused (a : Action bool)
  | setCurrentTime (a : Action Q)
  | setNextCustomerId (a : Action Z)
  | setBarbers (a : Action (list Barber.t))
  | setWaitingCustomers (a : Action (list Customer.t))
  | setCurrentCustomers (a : Action (list Customer.t))
  | setServedCustomers (a : Action (list Customer.t))
  | setTurnedAwayCustomers (a : Action (list Customer.t)).

Definition applyUpdate (s : Sim) (u : Update) : Sim :=
  match s with
  | mkSim nb nc st ar run pau ct nid bs wq cur srv ta =>
    match u with
    | setNumBarbers a => mkSim (resolve a nb) nc st ar run pau ct nid bs wq cur srv ta
    | setNumChairs a => mkSim nb (resolve a nc) st ar run pau ct nid bs wq cur srv ta
    | setIsRunning a => mkSim nb nc st ar (resolve a run) pau ct nid bs wq cur srv ta
    | setIsPaused a => mkSim nb nc st ar run (resolve a pau) ct nid bs wq cur srv ta
    | setCurrentTime a => mkSim nb nc st ar run pau (resolve a ct) nid bs wq cur srv ta
    | setNextCustomerId a => mkSim nb nc st ar run pau ct (resolve a nid) bs wq cur srv ta
    | setBarbers a => mkSim nb nc st ar run pau ct nid (resolve a bs) wq cur srv ta
    | setWaitingCustomers a => mkSim nb nc st ar run pau ct nid bs (resolve a wq) cur srv ta
    | setCurrentCustomers a => mkSim nb nc st ar run pau ct nid bs wq (resolve a cur) srv ta
    | setServedCustomers a => mkSim nb nc st ar run pau ct nid bs wq cur (resolve a srv) ta
    | setTurnedAwayCustomers a => mkSim nb nc st ar run pau ct nid bs wq cur srv (resolve a ta)
    end
  end.

(** The state of the next render: the queued updates applied in order. *)
Definition commit (s : Sim) (queue : list Update) : Sim :=
  foldl applyUpdate s queue.

(** ** JavaScript helpers *)

(** [arr.findIndex(pred)]: [None] is [-1]. *)
Definition findIndex {A} (P : A → Prop) `{∀ x, Decision (P x)}
    (l : list A) : option nat :=
  fst <$> list_find P l.

(** [arr[i]] for an integer [i] that may be negative or past the end:
    both read [undefined] ([None]). *)
Definition arrayGet {A} (l : list A) (i : Z) : option A :=
  if 0 <=? i then l !! Z.to_nat i else None.

(** [arr.forEach(f)] for a callback that updates the enclosing locals
    [acc] and may raise: the result is the locals reached and whether an
    exception stopped the loop. *)
Fixpoint forEach {A L} (f : L → A → option L) (l : list A) (acc : L) : L * bool :=
  match l with
  | [] => (acc, false)
  | x :: l' =>
      match f acc x with
      | Some acc' => forEach f l' acc'
      | None => (acc, true)
      end
  end.

(** [a || b] on an optional number with a number fallback. *)
Definition orElse (o : option Q) (d : Q) : Q :=
  match o with
  | Some q => if Qeq_bool q 0 then d else q
  | None => d
  end.

(** [x < y] on numbers. *)
Definition Qltb (x y : Q) : bool := negb (Qle_bool y x).

(** ** Numbers

    A JavaScript number is an IEEE 754 double.  The handlers carry the
    times as rationals.  The functions that compute a figure for the
    display ([averageWaitTime], [getTimeRemaining], the [Progress]
    component) round, and their arithmetic is that of the doubles: they
    read a cell as the double nearest to the rational that stands in
    it, and every operation returns the double nearest to its exact
    result, ties to the even mantissa, or an infinity past the largest
    double.  The sign of zero is not modelled, a zero is [+0]: the
    divisors are a count, 10, 1000 and the duration of a progress bar,
    which is the result of [getTimeRemaining] and never [-0]. *)
Inductive JsNumber := Num (q : Q) | NaN | Infinity | MinusInfinity.

(** The exponent of a positive number: [2 ^ e <= q < 2 ^ (e + 1)]. *)
Definition exponent (q : Q) : Z :=
  let e := Z.log2 (Qnum q) - Z.log2 (Zpos (Qden q)) in
  if Qle_bool (2 ^ e) q then e else e - 1.

Definition roundTiesToEven (x : Q) : Z :=
  let f := Qfloor x in
  match (x - inject_Z f ?= 1 # 2)%Q with
  | Lt => f
  | Gt => f + 1
  | Eq => if Z.even f then f else f + 1
  end.

(** The distance between neighbouring doubles at [q]: 52 bits below the
    exponent, and [2 ^ -1074] in the subnormal range. *)
Definition ulp (q : Q) : Q := (2 ^ Z.max (exponent (Qabs q) - 52) (-1074))%Q.

(** The double nearest to a rational. *)
Definition double (q : Q) : JsNumber :=
  if Qeq_bool q 0 then Num 0
  else
    let r := Qred (inject_Z (roundTiesToEven (q / ulp q)) * ulp q) in
    if Qle_bool (2 ^ 1024) r then Infinity
    else if Qle_bool r (- 2 ^ 1024) then MinusInfinity
    else Num r.

(** [a + b], [a - b], [a * b], [a / b] *)
Definition jsAdd (a b : JsNumber) : JsNumber :=
  match a, b with
  | Num x, Num y => double (x + y)
  | NaN, _ | _, NaN => NaN
  | Infinity, MinusInfinity | MinusInfinity, Infinity => NaN
  | Infinity, _ | _, Infinity => Infinity
  | MinusInfinity, _ | _, MinusInfinity => MinusInfinity
  end.

Definition jsSub (a b : JsNumber) : JsNumber :=
  match a, b with
  | Num x, Num y => double (x - y)
  | NaN, _ | _, NaN => NaN
  | Infinity, Infinity | MinusInfinity, MinusInfinity => NaN
  | Infinity, _ | _, MinusInfinity => Infinity
  | MinusInfinity, _ | _, Infinity => MinusInfinity
  end.

Definition jsMul (a b : JsNumber) : JsNumber :=
  match a, b with
  | Num x, Num y => double (x * y)
  | NaN, _ | _, NaN => NaN
  | Num x, Infinity | Infinity, Num x =>
      match (x ?= 0)%Q with Gt => Infinity | Lt => MinusInfinity | Eq => NaN end
  | Num x, MinusInfinity | MinusInfinity, Num x =>
      match (x ?= 0)%Q with Gt => MinusInfinity | Lt => Infinity | Eq => NaN end
  | Infinity, Infinity | MinusInfinity, MinusInfinity => Infinity
  | Infinity, MinusInfinity | MinusInfinity, Infinity => MinusInfinity
  end.

Definition jsDiv (a b : JsNumber) : JsNumber :=
  match a, b with
  | Num x, Num y =>
      if Qeq_bool y 0 then
        match (x ?= 0)%Q with Gt => Infinity | Lt => MinusInfinity | Eq => NaN end
      else double (x / y)
  | NaN, _ | _, NaN => NaN
  | Num _, (Infinity | MinusInfinity) => Num 0
  | Infinity, Num y => if Qle_bool 0 y then Infinity else MinusInfinity
  | MinusInfinity, Num y => if Qle_bool 0 y then MinusInfinity else Infinity
  | (Infinity | MinusInfinity), (Infinity | MinusInfinity) => NaN
  end.

(** [a || b] on numbers: [0] and [NaN] are falsy. *)
Definition jsOr (a b : JsNumber) : JsNumber :=
  match a with
  | Num x => if Qeq_bool x 0 then b else a
  | NaN => b
  | Infinity | MinusInfinity => a
  end.

(** [Math.round]: the nearest integer, halves towards plus infinity.
    The result is the exact one: a double of magnitude [2 ^ 52] or more
    is an integer already. *)
Definition Math_round (x : JsNumber) : JsNumber :=
  match x with
  | Num q => Num (inject_Z (Qfloor (q + (1 # 2))))
  | NaN | Infinity | MinusInfinity => x
  end.

(** [Math.max(a, b)] *)
Definition Math_max (a b : JsNumber) : JsNumber :=
  match a, b with
  | NaN, _ | _, NaN => NaN
  | Infinity, _ | _, Infinity => Infinity
  | MinusInfinity, x | x, MinusInfinity => x
  | Num x, Num y => Num (Qmax x y)
  end.

(** [Math.min(a, b)] *)
Definition Math_min (a b : JsNumber) : JsNumber :=
  match a, b with
  | NaN, _ | _, NaN => NaN
  | MinusInfinity, _ | _, MinusInfinity => MinusInfinity
  | Infinity, x | x, Infinity => x
  | Num x, Num y => Num (Qmin x y)
  end.

(** ** Adding a customer: [addCustomerWithName] *)

Definition isSleeping (b : Barber.t) : Prop := Barber.state b = SLEEPING.
#[global] Instance isSleeping_dec b : Decision (isSleeping b).
Proof. unfold isSleeping. apply _. Defined.

(** The barber woken by customer [nextId] at [currentTime]. *)
Definition wakeFor (b : Barber.t) (nextId : Z) (now endT : Q) : Barber.t :=
  Barber.mk (Barber.id b) WORKING (Some nextId) (Barber.totalCustomersServed b)
            (Some now) (Some endT).

Definition addCustomerWithName (s : Sim) (name : string) : list Update :=
  let nextId := nextCustomerId s in
  match findIndex isSleeping (barbers s) with
  | Some sleepingBarberId =>
      let serviceEndTime := (currentTime s + serviceTime s)%Q in
      let updatedBarbers :=
        alter (λ b, wakeFor b nextId (currentTime s) serviceEndTime)
              sleepingBarberId (barbers s) in
      let newCustomer :=
        Customer.mk nextId name GETTING_HAIRCUT (currentTime s)
          (Some (currentTime s)) None (Some (Z.of_nat sleepingBarberId + 1))
          None (Some serviceEndTime) in
      [ setBarbers (Value updatedBarbers);
        setCurrentCustomers (Updater (λ prev, prev ++ [newCustomer]));
        setNextCustomerId (Value (nextId + 1)) ]
      ++ (if isRunning s then []
          else [setIsRunning (Value true); setIsPaused (Value false)])
  | None =>
      if Z.of_nat (length (waitingCustomers s)) <? numChairs s then
        let newCustomer :=
          Customer.mk nextId name WAITING (currentTime s) None None None
            (Some (Z.of_nat (length (waitingCustomers s)))) None in
        [ setWaitingCustomers (Updater (λ prev, prev ++ [newCustomer]));
          setNextCustomerId (Value (nextId + 1)) ]
        ++ (if isRunning s then []
            else [setIsRunning (Value true); setIsPaused (Value false)])
      else
        let newCustomer :=
          Customer.mk nextId name TURNED_AWAY (currentTime s) None
            (Some (currentTime s)) None None None in
        [ setTurnedAwayCustomers (Updater (λ prev, prev ++ [newCustomer]));
          setNextCustomerId (Value (nextId + 1)) ]
  end.

(** [addRandomCustomer]: [r] is [Math.floor(Math.random() * 10)]. *)
Definition randomNames : list string :=
  ["Alex"; "Sam"; "Jamie"; "Taylor"; "Jordan"; "Casey"; "Avery"; "Riley";
   "Quinn"; "Morgan"]%string.

Definition addRandomCustomer (s : Sim) (r : nat) : list Update :=
  let randomName :=
    (default "undefined" (randomNames !! r) +:+ " " +:+ pretty (nextCustomerId s))%string in
  addCustomerWithName s randomName.

(** ** One time step: [processTimeStep] *)

(** The local variables of [processTimeStep] that the [forEach]
    callback mutates, and the [setWaitingCustomers] calls it has made. *)
Record Locals := mkLocals {
  updatedBarbers : list Barber.t;
  finishedCustomers : list Customer.t;
  updatedCurrentCustomers : list Customer.t;
  customersToRemove : list Z;
  queued : list Update
}.

(** [{...customer, state: SERVED, timeLeft: customer.serviceEndTime}] *)
Definition finished (customer : Customer.t) (endT : Q) : Customer.t :=
  Customer.mk (Customer.id customer) (Customer.name customer) SERVED
    (Customer.timeArrived customer) (Customer.timeServed customer) (Some endT)
    (Customer.servedBy customer) (Customer.waitingPosition customer)
    (Customer.serviceEndTime customer).

(** The waiting customer called to the chair of barber [barberId]. *)
Definition called (nextCustomer : Customer.t) (barberId : Z) (newTime endT : Q)
    : Customer.t :=
  Customer.mk (Customer.id nextCustomer) (Customer.name nextCustomer)
    GETTING_HAIRCUT (Customer.timeArrived nextCustomer) (Some newTime)
    (Customer.timeLeft nextCustomer) (Some (barberId + 1)) None (Some endT).

(** [{...c, waitingPosition: idx}] *)
Definition atPosition (idx : nat) (c : Customer.t) : Customer.t :=
  Customer.mk (Customer.id c) (Customer.name c) (Customer.state c)
    (Customer.timeArrived c) (Customer.timeServed c) (Customer.timeLeft c)
    (Customer.servedBy c) (Some (Z.of_nat idx)) (Customer.serviceEndTime c).

(** [{...b, totalCustomersServed: b.totalCustomersServed + 1,
      servingCustomerId: null}] *)
Definition credited (b : Barber.t) : Barber.t :=
  Barber.mk (Barber.id b) (Barber.state b) None
    (Barber.totalCustomersServed b + 1)
    (Barber.currentServiceStartTime b) (Barber.serviceEndTime b).

Definition keepsWorking (b : Barber.t) (nextId : Z) (newTime endT : Q) : Barber.t :=
  Barber.mk (Barber.id b) WORKING (Some nextId) (Barber.totalCustomersServed b)
    (Some newTime) (Some endT).

Definition goesToSleep (b : Barber.t) : Barber.t :=
  Barber.mk (Barber.id b) SLEEPING None (Barber.totalCustomersServed b) None None.

(** The callback of [currentCustomers.forEach].  It reads
    [waitingCustomers] and [serviceTime] from the rendered state [s].
    A haircut is handled when the customer is [GETTING_HAIRCUT], its
    [serviceEndTime] is truthy (set and not 0) and [newTime] has
    reached it.  [None] is the [TypeError] of reading
    [totalCustomersServed] from an [undefined] barber: [servedBy] unset
    ([barberId] is [NaN]) or pointing outside the array. *)
Definition finishHaircut (s : Sim) (newTime : Q) (L : Locals)
    (customer : Customer.t) : option Locals :=
  match Customer.serviceEndTime customer with
  | Some endT =>
    if bool_decide (Customer.state customer = GETTING_HAIRCUT)
       && negb (Qeq_bool endT 0) && Qle_bool endT newTime
    then
      match Customer.servedBy customer with
      | None => None
      | Some servedBy =>
        let barberId := servedBy - 1 in
        match arrayGet (updatedBarbers L) barberId with
        | None => None
        | Some b =>
          let i := Z.to_nat barberId in
          let finishedCustomer := finished customer endT in
          match waitingCustomers s with
          | nextCustomer :: _ =>
            let nextServiceEndTime := (newTime + serviceTime s)%Q in
            let updatedNextCustomer :=
              called nextCustomer barberId newTime nextServiceEndTime in
            let newWaiting := imap atPosition (drop 1 (waitingCustomers s)) in
            Some (mkLocals
              (<[i := keepsWorking (credited b) (Customer.id nextCustomer)
                        newTime nextServiceEndTime]> (updatedBarbers L))
              (finishedCustomers L ++ [finishedCustomer])
              (updatedCurrentCustomers L ++ [updatedNextCustomer])
              (customersToRemove L ++ [Customer.id customer])
              (queued L ++ [setWaitingCustomers (Value newWaiting)]))
          | [] =>
            Some (mkLocals
              (<[i := goesToSleep (credited b)]> (updatedBarbers L))
              (finishedCustomers L ++ [finishedCustomer])
              (updatedCurrentCustomers L)
              (customersToRemove L ++ [Customer.id customer])
              (queued L))
          end
        end
      end
    else Some L
  | None => Some L
  end.

(** What a handler leaves behind: the updates it queued, and whether it
    ended by an uncaught exception (the queue is applied all the same). *)
Record Outcome := mkOutcome {
  queue : list Update;
  raised : bool
}.

(** [Math.random() < (arrivalRate / 60) * timeStep]; [u] is the value
    [Math.random()] returned. *)
Definition arrives (s : Sim) (timeStep u : Q) : bool :=
  Qltb u ((arrivalRate s / 60) * timeStep)%Q.

(** [u] and [r] are the two random draws of the step. *)
Definition processTimeStep (s : Sim) (timeStep u : Q) (r : nat) : Outcome :=
  if negb (isRunning s) || isPaused s then mkOutcome [] false
  else
    let newTime := (currentTime s + timeStep)%Q in
    let L0 := mkLocals (barbers s) [] (currentCustomers s) [] [] in
    match forEach (finishHaircut s newTime) (currentCustomers s) L0 with
    | (L, true) =>
        mkOutcome (setCurrentTime (Value newTime) :: queued L) true
    | (L, false) =>
        let remainingCustomers :=
          filter (λ c, Customer.id c ∉ customersToRemove L)
                 (updatedCurrentCustomers L) in
        mkOutcome
          (setCurrentTime (Value newTime) :: queued L
           ++ [ setBarbers (Value (updatedBarbers L));
                setCurrentCustomers (Value remainingCustomers) ]
           ++ (if bool_decide (0 < length (finishedCustomers L))%nat
               then [setServedCustomers
                       (Updater (λ prev, prev ++ finishedCustomers L))]
               else [])
           ++ (if arrives s timeStep u && isRunning s && negb (isPaused s)
               then addRandomCustomer s r
               else []))
          false
    end.

(** ** Capacity changes: [updateBarberCount], [updateChairCount] *)

Definition newBarber (id : Z) : Barber.t :=
  Barber.mk id SLEEPING None 0 None None.

(** The removal loop, [for (i = n - 1; i >= 0 && removedCount < limit; i--)],
    entered with [i + 1 = n]; [splice(i, 1)] is [delete i].  Only
    positions above [i] have been spliced out, so [updatedBarbers[i]]
    exists and the [None] branch is never taken. *)
Fixpoint removeFromEnd (n : nat) (limit removedCount : Z)
    (updatedBarbers : list Barber.t) : list Barber.t :=
  match n with
  | O => updatedBarbers
  | S i =>
      if removedCount <? limit then
        match updatedBarbers !! i with
        | Some b =>
            if decide (isSleeping b)
            then removeFromEnd i limit (removedCount + 1) (delete i updatedBarbers)
            else removeFromEnd i limit removedCount updatedBarbers
        | None => updatedBarbers
        end
      else updatedBarbers
  end.

(** [updatedBarbers.forEach((barber, index) => barber.id = index + 1)] *)
Definition renumber (bs : list Barber.t) : list Barber.t :=
  imap (λ index b, Barber.with_id b (Z.of_nat index + 1)) bs.

Definition clamp (lo hi n : Z) : Z :=
  let n := if n <? lo then lo else n in
  if hi <? n then hi else n.

Definition updateBarberCount (s : Sim) (newCount : Z) : list Update :=
  let newCount := clamp 1 5 newCount in
  (if numBarbers s <? newCount then
     let currentBarberCount := Z.of_nat (length (barbers s)) in
     let newBarbers :=
       (λ index, newBarber (currentBarberCount + Z.of_nat index + 1))
         <$> seq 0 (Z.to_nat (newCount - currentBarberCount)) in
     [setBarbers (Updater (λ prev, prev ++ newBarbers))]
   else if newCount <? numBarbers s then
     let updatedBarbers :=
       removeFromEnd (length (barbers s)) (numBarbers s - newCount) 0 (barbers s) in
     [setBarbers (Value (renumber updatedBarbers))]
   else [])
  ++ [setNumBarbers (Value newCount)].

(** [{...customer, state: TURNED_AWAY, timeLeft: currentTime}] *)
Definition turnedAway (now : Q) (customer : Customer.t) : Customer.t :=
  Customer.mk (Customer.id customer) (Customer.name customer) TURNED_AWAY
    (Customer.timeArrived customer) (Customer.timeServed customer) (Some now)
    (Customer.servedBy customer) (Customer.waitingPosition customer)
    (Customer.serviceEndTime customer).

Definition updateChairCount (s : Sim) (newCount : Z) : list Update :=
  let newCount := clamp 1 10 newCount in
  (if (newCount <? numChairs s)
      && (newCount <? Z.of_nat (length (waitingCustomers s)))
   then
     let customersToTurnAway := drop (Z.to_nat newCount) (waitingCustomers s) in
     let customersStaying := take (Z.to_nat newCount) (waitingCustomers s) in
     let updatedTurnedAway := turnedAway (currentTime s) <$> customersToTurnAway in
     [ setWaitingCustomers (Value customersStaying);
       setTurnedAwayCustomers (Updater (λ prev, prev ++ updatedTurnedAway)) ]
   else [])
  ++ [setNumChairs (Value newCount)].

(** ** Statistics: [averageWaitTime] *)

(** [(customer.timeServed || customer.timeArrived) - customer.timeArrived];
    a missing [timeServed] is [undefined], falsy like [NaN]. *)
Definition waitTime (customer : Customer.t) : JsNumber :=
  let timeArrived := double (Customer.timeArrived customer) in
  let timeServed :=
    match Customer.timeServed customer with
    | Some t => double t
    | None => NaN
    end in
  jsSub (jsOr timeServed timeArrived) timeArrived.

Definition totalWaitTime (served : list Customer.t) : JsNumber :=
  foldl (λ total customer, jsAdd total (waitTime customer)) (Num 0) served.

Definition averageWaitTime (s : Sim) : JsNumber :=
  if (length (servedCustomers s) =? 0)%nat then Num 0
  else
    jsDiv (Math_round
             (jsMul (jsDiv (totalWaitTime (servedCustomers s))
                           (Num (inject_Z (Z.of_nat (length (servedCustomers s))))))
                    (Num 10)))
          (Num 10).

(** ** The engine as a machine *)

(** [initializeSimulation]: every barber asleep, all lists empty. *)
Definition initializeSimulation (s : Sim) : list Update :=
  let initialBarbers :=
    (λ index, newBarber (Z.of_nat index + 1)) <$> seq 0 (Z.to_nat (numBarbers s)) in
  [ setBarbers (Value initialBarbers);
    setWaitingCustomers (Value []);
    setCurrentCustomers (Value []);
    setServedCustomers (Value []);
    setTurnedAwayCustomers (Value []);
    setCurrentTime (Value 0%Q);
    setNextCustomerId (Value 1);
    setIsPaused (Value false) ].

(** The [useState] defaults, and the state after the mount effect. *)
Definition defaults : Sim :=
  mkSim 1 3 10%Q 3%Q false false 0%Q 1 [] [] [] [] [].

Definition initial : Sim := commit defaults (initializeSimulation defaults).

(** [startHaircuts] and [assignCustomersToBarbers].  The positions of
    the sleeping barbers, in order; the [-1] entries that the source
    maps working barbers to and then filters out are the [None]s here. *)
Definition sleepingBarberIndices (bs : list Barber.t) : list nat :=
  omap id (imap (λ index b, if decide (isSleeping b) then Some index else None) bs).

(** Every iteration of the loop over the sleeping barbers reads
    [waitingCustomers[0]] of the rendered state and queues one
    [setCurrentCustomers]. *)
Definition assignCustomersToBarbers (s : Sim) : list Update :=
  match waitingCustomers s with
  | [] => []
  | nextCustomer :: _ =>
    let indices := sleepingBarberIndices (barbers s) in
    if (length indices =? 0)%nat then []
    else
      let serviceEndTime := (currentTime s + serviceTime s)%Q in
      let updatedBarbers :=
        foldl (λ updatedBarbers barberIndex,
                 alter (λ b, wakeFor b (Customer.id nextCustomer) (currentTime s)
                               serviceEndTime)
                       barberIndex updatedBarbers)
              (barbers s) indices in
      let customersToRemove := (λ _, Customer.id nextCustomer) <$> indices in
      let remainingWaiting :=
        filter (λ c, Customer.id c ∉ customersToRemove) (waitingCustomers s) in
      ((λ barberIndex,
          setCurrentCustomers (Updater (λ prev, prev ++
            [called nextCustomer (Z.of_nat barberIndex) (currentTime s)
               serviceEndTime]))) <$> indices)
      ++ [ setWaitingCustomers (Value (imap atPosition remainingWaiting));
           setBarbers (Value updatedBarbers) ]
  end.

Definition startHaircuts (s : Sim) : list Update :=
  (if (length (barbers s) =? 0)%nat then initializeSimulation s else [])
  ++ (if (length (sleepingBarberIndices (barbers s)) =? 0)%nat
         && (length (waitingCustomers s) =? 0)%nat
      then []
      else
        (if negb (isRunning s)
         then [setIsRunning (Value true); setIsPaused (Value false)]
         else if isPaused s then [setIsPaused (Value false)] else [])
        ++ assignCustomersToBarbers s).

(** [togglePauseSimulation] *)
Definition togglePauseSimulation (s : Sim) : list Update :=
  if isRunning s then [setIsPaused (Value (negb (isPaused s)))] else [].

(** The commands the interface sends.  Each runs the handler of the
    latest render and commits what it queued. *)
Inductive Command :=
  | AddCustomer (name : string)
  | Advance (timeStep u : Q) (r : nat)
  | SetBarberCount (newCount : Z)
  | SetChairCount (newCount : Z)
  | TogglePause
  | StartHaircuts.

Definition exec (s : Sim) (c : Command) : Sim :=
  match c with
  | AddCustomer name => commit s (addCustomerWithName s name)
  | Advance timeStep u r => commit s (queue (processTimeStep s timeStep u r))
  | SetBarberCount n => commit s (updateBarberCount s n)
  | SetChairCount n => commit s (updateChairCount s n)
  | TogglePause => commit s (togglePauseSimulation s)
  | StartHaircuts => commit s (startHaircuts s)
  end.

Definition run (s : Sim) (cs : list Command) : Sim := foldl exec s cs.

Definition reachable (s : Sim) : Prop := ∃ cs, run initial cs = s.

(** ** Predicates used by the statements *)

(** Barber ids are their positions plus one. *)
Definition sequentialIds (bs : list Barber.t) : Prop :=
  ∀ i b, bs !! i = Some b → Barber.id b = Z.of_nat i + 1.

(** The i-th queued customer records position i. *)
Definition positionsInOrder (q : list Customer.t) : Prop :=
  ∀ i c, q !! i = Some c → Customer.waitingPosition c = Some (Z.of_nat i).

(** ** Auxiliary definitions of the statements *)

(** A haircut is due at [newTime]: the test of the [forEach] callback. *)
Definition isDue (newTime : Q) (customer : Customer.t) : bool :=
  match Customer.serviceEndTime customer with
  | Some endT =>
      bool_decide (Customer.state customer = GETTING_HAIRCUT)
      && negb (Qeq_bool endT 0) && Qle_bool endT newTime
  | None => false
  end.

Definition Due (newTime : Q) (c : Customer.t) : Prop := isDue newTime c = true.

#[global] Instance Due_dec newTime c : Decision (Due newTime c).
Proof. unfold Due. apply _. Defined.

(** The served copy of a customer whose haircut is over. *)
Definition markServed (customer : Customer.t) : Customer.t :=
  match Customer.serviceEndTime customer with
  | Some endT => finished customer endT
  | None => customer
  end.

(** What a freed barber becomes: it depends on the rendered queue only. *)
Definition freed (s : Sim) (newTime : Q) (b : Barber.t) : Barber.t :=
  match waitingCustomers s with
  | nextCustomer :: _ =>
      keepsWorking (credited b) (Customer.id nextCustomer) newTime
        (newTime + serviceTime s)%Q
  | [] => goesToSleep (credited b)
  end.

(** The customers the loop calls to a chair, and the queue updates it
    makes, for one finished customer. *)
Definition calledFor (s : Sim) (newTime : Q) (customer : Customer.t)
    : list Customer.t :=
  match waitingCustomers s, Customer.servedBy customer with
  | nextCustomer :: _, Some servedBy =>
      [called nextCustomer (servedBy - 1) newTime (newTime + serviceTime s)%Q]
  | _, _ => []
  end.

Definition dequeued (s : Sim) : list Update :=
  match waitingCustomers s with
  | _ :: _ => [setWaitingCustomers (Value (imap atPosition (drop 1 (waitingCustomers s))))]
  | [] => []
  end.

(** The position of the barber a customer record points at. *)
Definition barberIndex (c : Customer.t) : nat :=
  Z.to_nat (default 0 (Customer.servedBy c) - 1).

(** A due customer points at a barber that exists. *)
Definition pointsAtBarber (bs : list Barber.t) (c : Customer.t) : Prop :=
  ∃ i b, Customer.servedBy c = Some (Z.of_nat i + 1) ∧ bs !! i = Some b.

(** A customer in service sits in the chair its record names: the
    barber at position [servedBy - 1] is the one whose
    [servingCustomerId] is this customer, and no other barber serves
    it. *)
Definition inItsBarbersChair (bs : list Barber.t) (c : Customer.t) : Prop :=
  ∃ i b, Customer.servedBy c = Some (Z.of_nat i + 1)
         ∧ bs !! i = Some b
         ∧ Barber.servingCustomerId b = Some (Customer.id c)
         ∧ ∀ j b', bs !! j = Some b' →
             Barber.servingCustomerId b' = Some (Customer.id c) → j = i.

(** Every barber a due customer points at is freed, in the order of the
    customers. *)
Definition freeAll (s : Sim) (newTime : Q) (bs : list Barber.t)
    (due : list Customer.t) : list Barber.t :=
  foldl (λ bs c, alter (freed s newTime) (barberIndex c) bs) bs due.


Definition setsWaiting (u : Update) : Prop :=
  match u with setWaitingCustomers _ => True | _ => False end.

(** Updates that leave the clock alone. *)
Definition keepsClock (u : Update) : Prop :=
  match u with setCurrentTime _ => False | _ => True end.

(** Updates that cannot break the numbering: everything but a
    [setBarbers], and a [setBarbers] of a well-numbered list. *)
Definition keepsNumbering (u : Update) : Prop :=
  match u with
  | setBarbers (Value bs) => sequentialIds bs
  | setBarbers (Updater _) => False
  | _ => True
  end.

Definition keepsChairs (u : Update) : Prop :=
  match u with setNumChairs _ => False | _ => True end.

(** The queue and the chair count after a list of updates. *)
Definition waitingAfter (q : list Update) (w : list Customer.t) : list Customer.t :=
  foldl (λ w u, match u with setWaitingCustomers a => resolve a w | _ => w end) w q.

Definition chairsAfter (q : list Update) (n : Z) : Z :=
  foldl (λ n u, match u with setNumChairs a => resolve a n | _ => n end) n q.

Definition withinChairs (s : Sim) : Prop :=
  Z.of_nat (length (waitingCustomers s)) ≤ numChairs s.

(** The statistic in the words of the specification: the arithmetic
    mean, over the served customers, of serviceStartTime - arrivalTime. *)
Definition sumQ (l : list Q) : Q := foldr Qplus 0%Q l.

Definition lengthQ (served : list Customer.t) : Q :=
  inject_Z (Z.of_nat (length served)).

Definition specWait (c : Customer.t) : Q :=
  match Customer.timeServed c with
  | Some t => (t - Customer.timeArrived c)%Q
  | None => 0%Q
  end.

Definition arithmeticMeanWait (served : list Customer.t) : Q :=
  (sumQ (specWait <$> served) / lengthQ served)%Q.

(** The wait the code counts for a customer, as an exact number: a
    start time that is missing or 0 is replaced by the arrival time,
    which makes the wait 0. *)
Definition recordedWait (c : Customer.t) : Q :=
  (orElse (Customer.timeServed c) (Customer.timeArrived c)
   - Customer.timeArrived c)%Q.

Definition meanRecordedWait (served : list Customer.t) : Q :=
  (sumQ (recordedWait <$> served) / lengthQ served)%Q.

(** The rational is a double: rounding leaves it as it is. *)
Definition isDouble (x : Q) : Prop := ∃ r, double x = Num r ∧ (r == x)%Q.

Definition stampsAreDoubles (c : Customer.t) : Prop :=
  isDouble (Customer.timeArrived c)
  ∧ ∀ t, Customer.timeServed c = Some t → isDouble t.

(** The relative rounding error of a double, [2 ^ -53], and the
    absolute one in the subnormal range, [2 ^ -1075]. *)
Definition eps : Q := 1 # 9007199254740992.
Definition eta : Q := (2 ^ (-1075))%Q.

(** A run with one barber: A and B are seated at once, C waits ten
    seconds for B's chair. *)
Definition threeServed : Sim :=
  run initial
    [ AddCustomer "A"; Advance 10 1 0; AddCustomer "B"; AddCustomer "C";
      Advance 10 1 0; Advance 10 1 0 ].

(** A snapshot with three served customers: A arrived and started at
    -12, X arrived and started at 0, B arrived at -12 and started at
    0. *)
Definition startedAtZero : Sim :=
  mkSim 1 3 10%Q 3%Q false false 0%Q 4 [] [] []
    [ Customer.mk 1 "A" SERVED (-12)%Q (Some (-12)%Q) (Some (-2)%Q) (Some 1)
        None (Some (-2)%Q);
      Customer.mk 2 "X" SERVED 0%Q (Some 0%Q) (Some 10%Q) (Some 1) None
        (Some 10%Q);
      Customer.mk 3 "B" SERVED (-12)%Q (Some 0%Q) (Some 10%Q) (Some 2) None
        (Some 10%Q) ]
    [].

(** ** The other handlers of the component *)

(** [{...nextCustomer, state: GETTING_HAIRCUT, timeServed: now,
      servedBy, serviceEndTime, waitingPosition: undefined}] *)
Definition seated (nextCustomer : Customer.t) (servedBy : Z) (now endT : Q)
    : Customer.t :=
  Customer.mk (Customer.id nextCustomer) (Customer.name nextCustomer)
    GETTING_HAIRCUT (Customer.timeArrived nextCustomer) (Some now)
    (Customer.timeLeft nextCustomer) (Some servedBy) None (Some endT).

(** [handleServiceComplete], the callback of the progress bar of barber
    [barberId].  [findIndex] followed by the read at that index is
    [list_find].  A [servingCustomerId] of [null] or [0] is falsy.
    [setBarbers] is handed the array [updatedBarbers] itself, and the
    handler assigns to [updatedBarbers[barberIndex]] once more after
    the call: the cell ends up with the array as the handler leaves
    it, which is the list queued here. *)
Definition handleServiceComplete (s : Sim) (barberId : Z) : list Update :=
  match list_find (λ b, Barber.id b = barberId) (barbers s) with
  | None => []
  | Some (barberIndex, barber) =>
    match Barber.servingCustomerId barber with
    | None => []
    | Some servingCustomerId =>
      if servingCustomerId =? 0 then []
      else
        match list_find (λ c, Customer.id c = servingCustomerId)
                        (currentCustomers s) with
        | None => []
        | Some (_, customer) =>
          let finishedCustomer := finished customer (currentTime s) in
          let updatedCurrentCustomers :=
            filter (λ c, Customer.id c ≠ Customer.id customer)
                   (currentCustomers s) in
          let asleep :=
            Barber.mk (Barber.id barber) SLEEPING None
              (Barber.totalCustomersServed barber + 1)
              (Barber.currentServiceStartTime barber)
              (Barber.serviceEndTime barber) in
          let updatedBarbers := <[barberIndex := asleep]> (barbers s) in
          match waitingCustomers s with
          | nextCustomer :: _ =>
            let nextServiceEndTime := (currentTime s + serviceTime s)%Q in
            let updatedNextCustomer :=
              seated nextCustomer barberId (currentTime s) nextServiceEndTime in
            let updatedBarbers :=
              <[barberIndex :=
                  Barber.mk (Barber.id asleep) WORKING
                    (Some (Customer.id nextCustomer))
                    (Barber.totalCustomersServed asleep)
                    (Some (currentTime s)) (Some nextServiceEndTime)]>
                updatedBarbers in
            let newWaiting := imap atPosition (drop 1 (waitingCustomers s)) in
            [ setServedCustomers (Updater (λ prev, prev ++ [finishedCustomer]));
              setCurrentCustomers (Value updatedCurrentCustomers);
              setBarbers (Value updatedBarbers);
              setCurrentCustomers (Updater (λ prev, prev ++ [updatedNextCustomer]));
              setWaitingCustomers (Value newWaiting) ]
          | [] =>
            let updatedBarbers :=
              <[barberIndex :=
                  Barber.mk (Barber.id asleep) SLEEPING None
                    (Barber.totalCustomersServed asleep) None None]>
                updatedBarbers in
            [ setServedCustomers (Updater (λ prev, prev ++ [finishedCustomer]));
              setCurrentCustomers (Value updatedCurrentCustomers);
              setBarbers (Value updatedBarbers) ]
          end
        end
    end
  end.

(** [resetSimulation] *)
Definition resetSimulation (s : Sim) : list Update :=
  [setIsRunning (Value false); setIsPaused (Value false)]
  ++ initializeSimulation s.

(** Everything the interface can make the component do: the commands
    above, the completion callback of a progress bar, the reset button,
    and the service-time slider, which calls [setServiceTime] directly. *)
Inductive UIEvent :=
  | Cmd (c : Command)
  | ServiceComplete (barberId : Z)
  | Reset
  | ServiceTime (seconds : Q).

Definition handle (s : Sim) (e : UIEvent) : Sim :=
  match e with
  | Cmd c => exec s c
  | ServiceComplete barberId => commit s (handleServiceComplete s barberId)
  | Reset => commit s (resetSimulation s)
  | ServiceTime seconds =>
      mkSim (numBarbers s) (numChairs s) seconds (arrivalRate s)
        (isRunning s) (isPaused s) (currentTime s) (nextCustomerId s)
        (barbers s) (waitingCustomers s) (currentCustomers s)
        (servedCustomers s) (turnedAwayCustomers s)
  end.

Definition reachableUI (s : Sim) : Prop := ∃ es, foldl handle initial es = s.

(** ** The animation loop *)

(** The refs of the component that the loop reads and writes. *)
Record Refs := mkRefs {
  lastTimeRef : Q;
  secondTickRef : Q
}.

(** What a frame does: the refs it leaves, the outcome of the time step
    it ran ([None] when it returned at its guard), and whether it asked
    for the next frame. *)
Record Frame := mkFrame {
  refsAfter : Refs;
  stepped : option Outcome;
  rescheduled : bool
}.

(** [animationLoop(timestamp)], a closure over the rendered state [s];
    [simulationSpeed] is the cell of that name.  An exception of
    [processTimeStep] leaves the function before it asks for the next
    frame. *)
Definition animationLoop (s : Sim) (simulationSpeed : Q) (refs : Refs)
    (timestamp u : Q) (r : nat) : Frame :=
  if negb (isRunning s) || isPaused s then mkFrame refs None false
  else
    let deltaTime := (timestamp - lastTimeRef refs)%Q in
    let timeStep := (deltaTime / 1000 * simulationSpeed)%Q in
    let tick := (secondTickRef refs + timeStep)%Q in
    let tick := if Qle_bool 1 tick then 0%Q else tick in
    let o := processTimeStep s timeStep u r in
    mkFrame (mkRefs timestamp tick) (Some o) (negb (raised o)).

(** Whether a handler, run on the rendered state [s], calls
    [requestAnimationFrame(animationLoop)].  The callback it passes is
    the [animationLoop] of its own render, the closure over [s]. *)
Definition addCustomerRequestsFrame (s : Sim) : bool :=
  negb (isRunning s)
  && (bool_decide (is_Some (findIndex isSleeping (barbers s)))
      || (Z.of_nat (length (waitingCustomers s)) <? numChairs s)).

Definition startHaircutsRequestsFrame (s : Sim) : bool :=
  if (length (sleepingBarberIndices (barbers s)) =? 0)%nat
     && (length (waitingCustomers s) =? 0)%nat
  then false
  else negb (isRunning s) || isPaused s.

Definition togglePauseRequestsFrame (s : Sim) : bool :=
  isRunning s && isPaused s.

(** ** What the page displays *)

(** Truthiness of an optional number: [undefined] and [0] are falsy. *)
Definition isTruthy (o : option Q) : bool :=
  match o with
  | Some q => negb (Qeq_bool q 0)
  | None => false
  end.

(** [getCustomerById] *)
Definition getCustomerById (s : Sim) (id : option Z) : option Customer.t :=
  match id with
  | None => None
  | Some id => snd <$> list_find (λ c, Customer.id c = id) (currentCustomers s)
  end.



(** [getTimeRemaining], in double arithmetic. *)
Definition getTimeRemaining (s : Sim) (barber : Barber.t) : JsNumber :=
  if bool_decide (Barber.state barber ≠ WORKING)
     || negb (isTruthy (Barber.serviceEndTime barber))
  then Num 0
  else
    match Barber.serviceEndTime barber with
    | Some endT =>
        let timeRemaining :=
          Math_max (Num 0) (jsSub (double endT) (double (currentTime s))) in
        jsDiv (Math_round (jsMul timeRemaining (Num 10))) (Num 10)
    | None => Num 0
    end.

(** ** The progress bar of a haircut: the [Progress] component

    In double arithmetic, like the figures above.  Dividing by a zero
    duration gives an infinity or [NaN]. *)

(** [(Date.now() - startTime) / 1000] *)
Definition elapsed (startTime now : Q) : JsNumber :=
  jsDiv (jsSub (double now) (double startTime)) (Num 1000).

(** [Math.min(100, (elapsed / duration) * 100)], the value the interval
    callback hands to [setValue]. *)
Definition progress (duration elapsed : JsNumber) : JsNumber :=
  Math_min (Num 100) (jsMul (jsDiv elapsed duration) (Num 100)).

(** [progress >= 100]: the callback stops the interval and calls
    [onComplete]. *)
Definition completes (progress : JsNumber) : bool :=
  match progress with
  | Num p => Qle_bool 100 p
  | Infinity => true
  | NaN | MinusInfinity => false
  end.

(** ** Invariants of the collections *)

(** One predicate per collection, holding of every record in it. *)
Definition holdsIn (Pw Pc Ps Pt : Customer.t → Prop) (s : Sim) : Prop :=
  Forall Pw (waitingCustomers s)
  ∧ Forall Pc (currentCustomers s)
  ∧ Forall Ps (servedCustomers s)
  ∧ Forall Pt (turnedAwayCustomers s).

(** An update that keeps the predicates, whatever the cell holds when
    it is applied. *)
Definition keepsCollections (Pw Pc Ps Pt : Customer.t → Prop) (u : Update) : Prop :=
  match u with
  | setWaitingCustomers a => ∀ prev, Forall Pw prev → Forall Pw (resolve a prev)
  | setCurrentCustomers a => ∀ prev, Forall Pc prev → Forall Pc (resolve a prev)
  | setServedCustomers a => ∀ prev, Forall Ps prev → Forall Ps (resolve a prev)
  | setTurnedAwayCustomers a => ∀ prev, Forall Pt prev → Forall Pt (resolve a prev)
  | _ => True
  end.

(** The three records [addCustomerWithName] can create on [s] satisfy
    the predicate of the collection they would join. *)
Definition admissible (Pw Pc Pt : Customer.t → Prop) (s : Sim) (name : string)
    : Prop :=
  (∀ i : nat,
     Pc (Customer.mk (nextCustomerId s) name GETTING_HAIRCUT (currentTime s)
           (Some (currentTime s)) None (Some (Z.of_nat i + 1)) None
           (Some (currentTime s + serviceTime s)%Q)))
  ∧ Pw (Customer.mk (nextCustomerId s) name WAITING (currentTime s) None None
          None (Some (Z.of_nat (length (waitingCustomers s)))) None)
  ∧ Pt (Customer.mk (nextCustomerId s) name TURNED_AWAY (currentTime s) None
          (Some (currentTime s)) None None None).

(** Every record carries the state of the collection that holds it, and
    the records of the two histories have a departure time. *)
Definition labelled (s : Sim) : Prop :=
  holdsIn (λ c, Customer.state c = WAITING)
          (λ c, Customer.state c = GETTING_HAIRCUT)
          (λ c, Customer.state c = SERVED ∧ is_Some (Customer.timeLeft c))
          (λ c, Customer.state c = TURNED_AWAY ∧ is_Some (Customer.timeLeft c))
          s.

(** Every id in the collections was handed out before: it is at least
    1 and below [nextCustomerId]. *)
Definition idBelow (n : Z) (c : Customer.t) : Prop := 1 ≤ Customer.id c < n.

Definition idsBelowNext (s : Sim) : Prop :=
  1 ≤ nextCustomerId s
  ∧ holdsIn (idBelow (nextCustomerId s)) (idBelow (nextCustomerId s))
            (idBelow (nextCustomerId s)) (idBelow (nextCustomerId s)) s.

(** The configured counts are within their ranges and the pool has at
    least the configured number of barbers. *)
Definition poolOk (s : Sim) : Prop :=
  1 ≤ numBarbers s ≤ 5
  ∧ 1 ≤ numChairs s ≤ 10
  ∧ numBarbers s ≤ Z.of_nat (length (barbers s)).

(** Updates that leave the pool as large as it is and the configured
    barber count alone. *)
Definition keepsPool (n : nat) (u : Update) : Prop :=
  match u with
  | setBarbers (Value bs) => length bs = n
  | setBarbers (Updater _) => False
  | setNumBarbers _ => False
  | setNumChairs _ => False
  | _ => True
  end.

(** Updates that only append to the two histories. *)
Definition growsHistory (u : Update) : Prop :=
  match u with
  | setServedCustomers a => ∀ prev, prev `prefix_of` resolve a prev
  | setTurnedAwayCustomers a => ∀ prev, prev `prefix_of` resolve a prev
  | _ => True
  end.

(** The id counter after a list of updates, and updates that leave it
    alone. *)
Definition nextIdAfter (q : list Update) (n : Z) : Z :=
  foldl (λ n u, match u with setNextCustomerId a => resolve a n | _ => n end) n q.

Definition keepsNextId (u : Update) : Prop :=
  match u with setNextCustomerId _ => False | _ => True end.

(** A step admits a customer: the simulation runs, the loop has not
    raised, and the random draw says so. *)
Definition admitsArrival (s : Sim) (timeStep u : Q) (r : nat) : bool :=
  negb (negb (isRunning s) || isPaused s)
  && negb (raised (processTimeStep s timeStep u r))
  && arrives s timeStep u.

(** Updates that leave the queue with its positions in order. *)
Definition keepsPositions (u : Update) : Prop :=
  match u with
  | setWaitingCustomers (Value w) => positionsInOrder w
  | setWaitingCustomers (Updater _) => False
  | _ => True
  end.

(** A barber record as the handlers leave it: the counter is not
    negative; a sleeping barber serves nobody and has no service
    window; a working barber serves a customer whose id was handed out
    before [n], and has both ends of the window. *)
Definition consistent (n : Z) (b : Barber.t) : Prop :=
  0 ≤ Barber.totalCustomersServed b
  ∧ match Barber.state b with
    | SLEEPING =>
        Barber.servingCustomerId b = None
        ∧ Barber.currentServiceStartTime b = None
        ∧ Barber.serviceEndTime b = None
    | WORKING =>
        (∃ id, Barber.servingCustomerId b = Some id ∧ 1 ≤ id < n)
        ∧ is_Some (Barber.currentServiceStartTime b)
        ∧ is_Some (Barber.serviceEndTime b)
    end.

(** Updates that keep every barber record consistent. *)
Definition keepsBarbers (n : Z) (u : Update) : Prop :=
  match u with
  | setBarbers a =>
      ∀ prev, Forall (consistent n) prev → Forall (consistent n) (resolve a prev)
  | _ => True
  end.

(** * Basic facts *)

Lemma commit_app s q1 q2 : commit s (q1 ++ q2) = commit (commit s q1) q2.
Proof. apply foldl_app. Qed.

Lemma findIndex_Some {A} (P : A → Prop) `{∀ x, Decision (P x)} (l : list A) i :
  findIndex P l = Some i ↔
  ∃ x, l !! i = Some x ∧ P x ∧ ∀ j y, l !! j = Some y → (j < i)%nat → ¬ P y.
Proof.
  unfold findIndex. split.
  - destruct (list_find P l) as [[k x]|] eqn:E; simpl; [|done].
    intros [= ->]. exists x. by apply (list_find_Some P l).
  - intros (x & Hx & HP & Hmin).
    assert (list_find P l = Some (i, x)) as -> by (by apply (list_find_Some P l)).
    done.
Qed.

Lemma findIndex_None {A} (P : A → Prop) `{∀ x, Decision (P x)} (l : list A) :
  findIndex P l = None ↔ Forall (λ x, ¬ P x) l.
Proof.
  unfold findIndex. rewrite fmap_None. apply list_find_None.
Qed.

Lemma findIndex_is_Some {A} (P : A → Prop) `{∀ x, Decision (P x)} (l : list A) x :
  x ∈ l → P x → is_Some (findIndex P l).
Proof.
  intros Hin HP. destruct (findIndex P l) eqn:E; [by eexists|].
  apply findIndex_None in E. rewrite Forall_forall in E. by destruct (E x Hin).
Qed.

(** * Admission *)

Lemma alter_as_insert {A} (f : A → A) (l : list A) i x :
  l !! i = Some x → alter f i l = <[i := f x]> l.
Proof.
  revert i. induction l as [|y l IH]; intros [|i] Hi; simplify_eq/=; [done|].
  f_equal. by apply IH.
Qed.

Lemma commit_addCustomer_asleep s name i b :
  findIndex isSleeping (barbers s) = Some i →
  barbers s !! i = Some b →
  let now := currentTime s in
  let s' := commit s (addCustomerWithName s name) in
  barbers s' = <[i := wakeFor b (nextCustomerId s) now (now + serviceTime s)%Q]> (barbers s)
  ∧ currentCustomers s' = currentCustomers s ++
      [Customer.mk (nextCustomerId s) name GETTING_HAIRCUT now (Some now) None
         (Some (Z.of_nat i + 1)) None (Some (now + serviceTime s)%Q)]
  ∧ waitingCustomers s' = waitingCustomers s
  ∧ turnedAwayCustomers s' = turnedAwayCustomers s
  ∧ servedCustomers s' = servedCustomers s
  ∧ nextCustomerId s' = nextCustomerId s + 1.
Proof.
  intros Hfind Hb. unfold addCustomerWithName. rewrite Hfind.
  rewrite (alter_as_insert _ _ _ _ Hb).
  destruct s as [nb nc st ar run pau ct nid bs wq cur srv ta]; simpl in *.
  by destruct run.
Qed.

Lemma commit_addCustomer_busy s name :
  findIndex isSleeping (barbers s) = None →
  let now := currentTime s in
  let s' := commit s (addCustomerWithName s name) in
  barbers s' = barbers s
  ∧ currentCustomers s' = currentCustomers s
  ∧ servedCustomers s' = servedCustomers s
  ∧ nextCustomerId s' = nextCustomerId s + 1
  ∧ (Z.of_nat (length (waitingCustomers s)) < numChairs s →
       waitingCustomers s' = waitingCustomers s ++
         [Customer.mk (nextCustomerId s) name WAITING now None None None
            (Some (Z.of_nat (length (waitingCustomers s)))) None]
       ∧ turnedAwayCustomers s' = turnedAwayCustomers s)
  ∧ (numChairs s ≤ Z.of_nat (length (waitingCustomers s)) →
       turnedAwayCustomers s' = turnedAwayCustomers s ++
         [Customer.mk (nextCustomerId s) name TURNED_AWAY now None (Some now)
            None None None]
       ∧ waitingCustomers s' = waitingCustomers s).
Proof.
  intros Hfind. unfold addCustomerWithName. rewrite Hfind.
  destruct s as [nb nc st ar run pau ct nid bs wq cur srv ta]; simpl in *.
  destruct (Z.ltb_spec (Z.of_nat (length wq)) nc); destruct run; simpl;
    repeat apply conj; try reflexivity; intros; first [lia | by split].
Qed.

(** Admission of a customer by [addCustomerWithName], against the state
    the handler was rendered with.  If some barber sleeps, the sleeping
    barber at the lowest position (the lowest id when ids follow
    positions) starts working on the customer, who goes straight to the
    chair, served from its arrival time until a service time later;
    otherwise, with a free chair, the customer joins the tail of the
    queue at position length - 1; otherwise the customer is turned
    away, leaving at its arrival time.  The organic arrival of a time
    step is this handler on a generated name, called on the state
    rendered before the step, with its updates queued last. *)
Theorem addCustomerWithName_admission (s : Sim) (name : string) :
  let s' := commit s (addCustomerWithName s name) in
  let now := currentTime s in
  ((∃ b, b ∈ barbers s ∧ isSleeping b) →
     ∃ i b, barbers s !! i = Some b ∧ isSleeping b
       ∧ (∀ j b', barbers s !! j = Some b' → isSleeping b' → (i ≤ j)%nat)
       ∧ (sequentialIds (barbers s) →
            Barber.id b = Z.of_nat i + 1
            ∧ ∀ b', b' ∈ barbers s → isSleeping b' → Barber.id b ≤ Barber.id b')
       ∧ barbers s' =
           <[i := Barber.mk (Barber.id b) WORKING (Some (nextCustomerId s))
                    (Barber.totalCustomersServed b) (Some now)
                    (Some (now + serviceTime s)%Q)]> (barbers s)
       ∧ currentCustomers s' = currentCustomers s ++
           [Customer.mk (nextCustomerId s) name GETTING_HAIRCUT now (Some now)
              None (Some (Z.of_nat i + 1)) None (Some (now + serviceTime s)%Q)]
       ∧ waitingCustomers s' = waitingCustomers s
       ∧ turnedAwayCustomers s' = turnedAwayCustomers s
       ∧ nextCustomerId s' = nextCustomerId s + 1)
  ∧ ((∀ b, b ∈ barbers s → ¬ isSleeping b) →
     Z.of_nat (length (waitingCustomers s)) < numChairs s →
       waitingCustomers s' = waitingCustomers s ++
         [Customer.mk (nextCustomerId s) name WAITING now None None None
            (Some (Z.of_nat (length (waitingCustomers s')) - 1)) None]
       ∧ barbers s' = barbers s
       ∧ currentCustomers s' = currentCustomers s
       ∧ turnedAwayCustomers s' = turnedAwayCustomers s)
  ∧ ((∀ b, b ∈ barbers s → ¬ isSleeping b) →
     numChairs s ≤ Z.of_nat (length (waitingCustomers s)) →
       turnedAwayCustomers s' = turnedAwayCustomers s ++
         [Customer.mk (nextCustomerId s) name TURNED_AWAY now None (Some now)
            None None None]
       ∧ barbers s' = barbers s
       ∧ currentCustomers s' = currentCustomers s
       ∧ waitingCustomers s' = waitingCustomers s)
  ∧ (∀ r, ∃ name', addRandomCustomer s r = addCustomerWithName s name')
  ∧ (∀ timeStep u r,
       isRunning s = true → isPaused s = false →
       arrives s timeStep u = true →
       raised (processTimeStep s timeStep u r) = false →
       ∃ q, queue (processTimeStep s timeStep u r) = q ++ addRandomCustomer s r).
Proof.
  intros s' now. repeat apply conj.
  - intros (b0 & Hin & Hsl).
    destruct (findIndex_is_Some isSleeping _ _ Hin Hsl) as [i Hi].
    pose proof Hi as Hi'. apply findIndex_Some in Hi' as (b & Hb & Hbs & Hmin).
    exists i, b.
    destruct (commit_addCustomer_asleep s name i b Hi Hb) as (? & ? & ? & ? & ? & ?).
    repeat apply conj; try done.
    + intros j b' Hj Hsl'. destruct (decide (i ≤ j)%nat) as [|Hn]; [done|].
      destruct (Hmin j b' Hj); [lia | done].
    + intros Hseq. split; [by apply Hseq|].
      intros b' Hin' Hsl'. apply list_elem_of_lookup in Hin' as [j Hj].
      rewrite (Hseq _ _ Hb), (Hseq _ _ Hj).
      destruct (decide (i ≤ j)%nat) as [|Hn]; [lia|].
      destruct (Hmin j b' Hj); [lia | done].
  - intros Hnone Hroom.
    assert (findIndex isSleeping (barbers s) = None) as Hf.
    { apply findIndex_None, Forall_forall. done. }
    destruct (commit_addCustomer_busy s name Hf) as (? & ? & ? & ? & Hq & _).
    destruct (Hq Hroom) as [Hw ?]. repeat apply conj; try done.
    subst s' now. rewrite Hw at 1. rewrite Hw, length_app. simpl.
    do 4 f_equal. lia.
  - intros Hnone Hfull.
    assert (findIndex isSleeping (barbers s) = None) as Hf.
    { apply findIndex_None, Forall_forall. done. }
    destruct (commit_addCustomer_busy s name Hf) as (? & ? & ? & ? & _ & Hq).
    destruct (Hq Hfull) as [? ?]. done.
  - intros r. by eexists.
  - intros timeStep u r Hrun Hpau Harr. unfold processTimeStep.
    rewrite Hrun, Hpau, Harr. cbn [negb orb andb].
    destruct (forEach _ _ _) as [L [|]]; cbn [raised queue]; [done|]. intros _.
    match goal with
    | |- ∃ q, ?a :: ?b ++ ?c ++ ?d ++ ?e = _ => exists (a :: b ++ c ++ d)
    end.
    by rewrite !app_comm_cons, !app_assoc.
Qed.



(** * Chair count *)

(** C6 (as the code has it).  Lowering the chair count below the queue
    length turns away exactly the customers past the new capacity, the
    tail of the queue, each leaving at the current time, and appends
    them to [turnedAwayCustomers] in the order of the queue.  The
    customers ahead of them stay in order with their records untouched:
    the queue is cut, not reindexed, so each keeps the position it
    recorded, and the positions are 0, 1, ... afterwards when they were
    before.  The queue ends at the new capacity. *)
Theorem updateChairCount_evicts_tail (s : Sim) (newCount : Z) :
  let n := clamp 1 10 newCount in
  n < numChairs s →
  n < Z.of_nat (length (waitingCustomers s)) →
  let s' := commit s (updateChairCount s newCount) in
  let evicted := drop (Z.to_nat n) (waitingCustomers s) in
  numChairs s' = n
  ∧ waitingCustomers s' = take (Z.to_nat n) (waitingCustomers s)
  ∧ turnedAwayCustomers s' =
      turnedAwayCustomers s ++ (turnedAway (currentTime s) <$> evicted)
  ∧ Z.of_nat (length (waitingCustomers s')) = n
  ∧ Z.of_nat (length evicted) = Z.of_nat (length (waitingCustomers s)) - n
  ∧ waitingCustomers s = waitingCustomers s' ++ evicted
  ∧ (∀ c, c ∈ evicted →
       Customer.state (turnedAway (currentTime s) c) = TURNED_AWAY
       ∧ Customer.timeLeft (turnedAway (currentTime s) c) = Some (currentTime s)
       ∧ Customer.id (turnedAway (currentTime s) c) = Customer.id c)
  ∧ (∀ i c, waitingCustomers s' !! i = Some c
            ↔ (i < Z.to_nat n)%nat ∧ waitingCustomers s !! i = Some c)
  ∧ Customer.waitingPosition <$> waitingCustomers s'
    = take (Z.to_nat n) (Customer.waitingPosition <$> waitingCustomers s)
  ∧ (positionsInOrder (waitingCustomers s) → positionsInOrder (waitingCustomers s'))
  ∧ barbers s' = barbers s
  ∧ currentCustomers s' = currentCustomers s
  ∧ servedCustomers s' = servedCustomers s.
Proof.
  intros n Hlt Hlen s' evicted.
  assert (s' = commit s
    [ setWaitingCustomers (Value (take (Z.to_nat n) (waitingCustomers s)));
      setTurnedAwayCustomers (Updater (λ prev, prev ++
        (turnedAway (currentTime s) <$> drop (Z.to_nat n) (waitingCustomers s))));
      setNumChairs (Value n) ]) as Hs'.
  { subst s'. unfold updateChairCount. fold n.
    apply Z.ltb_lt in Hlt, Hlen. by rewrite Hlt, Hlen. }
  assert (1 ≤ n) as Hpos.
  { subst n. unfold clamp. repeat case_match; lia. }
  clearbody s'. subst s'.
  destruct s as [nb nc st ar run pau ct nid bs wq cur srv ta]; simpl in *.
  repeat apply conj; try reflexivity.
  - rewrite length_take. lia.
  - subst evicted. rewrite length_drop. lia.
  - subst evicted. by rewrite take_drop.
  - done.
  - intros i c. rewrite lookup_take_Some. tauto.
  - by rewrite fmap_take.
  - intros Hpos' i c Hi. apply lookup_take_Some in Hi as [Hi _]. by apply Hpos'.
Qed.

Lemma updateChairCount_evicts_tail_witness :
  let s := run initial
    [AddCustomer "A"; AddCustomer "B"; AddCustomer "C"; AddCustomer "D"] in
  Customer.name <$> waitingCustomers (commit s (updateChairCount s 1)) = ["B"]
  ∧ Customer.name <$> turnedAwayCustomers (commit s (updateChairCount s 1))
    = ["C"; "D"].
Proof.
  intros s.
  assert (clamp 1 10 1 < numChairs s) as H1 by (vm_compute; reflexivity).
  assert (clamp 1 10 1 < Z.of_nat (length (waitingCustomers s))) as H2
    by (vm_compute; reflexivity).
  destruct (updateChairCount_evicts_tail s 1 H1 H2) as (_ & Hw & Ht & _).
  rewrite Hw, Ht. split; reflexivity.
Defined.

(** C6 fails as stated: the positions after the cut are not
    0 .. length - 1, and the customers turned away are not recorded
    last-arrived first.  A is in the chair and B waits; the step at 10
    completes A, seats B and admits "Alex 3", who records position 1
    (the length of the rendered queue) in a queue it is alone in; D and
    E queue up behind.  Lowering the chair count to 1 keeps "Alex 3" at
    position 1 and appends D, then E, to the customers turned away. *)
Lemma updateChairCount_does_not_reindex :
  let s := run initial
    [AddCustomer "A"; AddCustomer "B"; Advance 10 0 0;
     AddCustomer "D"; AddCustomer "E"] in
  let s' := exec s (SetChairCount 1) in
  Customer.name <$> waitingCustomers s = ["Alex 3"; "D"; "E"]
  ∧ Customer.waitingPosition <$> waitingCustomers s = [Some 1; Some 1; Some 2]
  ∧ 1 < numChairs s
  ∧ numChairs s' = 1
  ∧ Customer.name <$> waitingCustomers s' = ["Alex 3"]
  ∧ Customer.state <$> waitingCustomers s' = [WAITING]
  ∧ Customer.waitingPosition <$> waitingCustomers s' = [Some 1]
  ∧ ¬ positionsInOrder (waitingCustomers s')
  ∧ Customer.name <$> turnedAwayCustomers s' = ["D"; "E"]
  ∧ Customer.timeArrived <$> turnedAwayCustomers s' = [10%Q; 10%Q]
  ∧ Customer.id <$> turnedAwayCustomers s' = [4; 5].
Proof.
  intros s s'. repeat apply conj; try (vm_compute; reflexivity).
  intros Hpos.
  assert (∃ c, waitingCustomers s' !! 0%nat = Some c
               ∧ Customer.waitingPosition c = Some 1) as (c & Hc & Hp)
    by (eexists; split; vm_compute; reflexivity).
  specialize (Hpos _ _ Hc). rewrite Hp in Hpos. discriminate Hpos.
Qed.

(** * The time step *)

(** An invariant of the locals survives the loop, raised or not. *)
Lemma forEach_invariant {A L} (P : L → Prop) (f : L → A → option L) l acc :
  P acc →
  (∀ a x a', P a → x ∈ l → f a x = Some a' → P a') →
  P (forEach f l acc).1.
Proof.
  revert acc. induction l as [|x l IH]; intros acc Hacc Hstep; simpl; [done|].
  destruct (f acc x) as [acc'|] eqn:E; [|done].
  apply IH.
  - eapply Hstep; [done | apply list_elem_of_here | done].
  - intros a y a' Ha Hy. apply Hstep; [done | by apply list_elem_of_further].
Qed.

Lemma finishHaircut_not_due s newTime L c :
  isDue newTime c = false → finishHaircut s newTime L c = Some L.
Proof.
  unfold isDue, finishHaircut.
  destruct (Customer.serviceEndTime c); [|done]. by intros ->.
Qed.

Lemma finishHaircut_due s newTime L c i b :
  isDue newTime c = true →
  Customer.servedBy c = Some (Z.of_nat i + 1) →
  updatedBarbers L !! i = Some b →
  finishHaircut s newTime L c = Some (mkLocals
    (<[i := freed s newTime b]> (updatedBarbers L))
    (finishedCustomers L ++ [markServed c])
    (updatedCurrentCustomers L ++ calledFor s newTime c)
    (customersToRemove L ++ [Customer.id c])
    (queued L ++ dequeued s)).
Proof.
  unfold isDue, finishHaircut, markServed, calledFor, dequeued, freed, arrayGet.
  destruct (Customer.serviceEndTime c) as [endT|]; [|done].
  intros -> ->.
  replace (Z.of_nat i + 1 - 1) with (Z.of_nat i) by lia.
  destruct (Z.leb_spec 0 (Z.of_nat i)); [|lia].
  rewrite Nat2Z.id. intros ->.
  destruct (waitingCustomers s); [|done].
  by rewrite !app_nil_r.
Qed.

(** Whatever happens in the loop, a due customer either raises or
    extends the locals; the queue only ever receives queue updates. *)
Lemma finishHaircut_Some s newTime L c L' :
  finishHaircut s newTime L c = Some L' →
  (isDue newTime c = false ∧ L' = L)
  ∨ (isDue newTime c = true ∧ ∃ i b,
       Customer.servedBy c = Some (Z.of_nat i + 1)
       ∧ updatedBarbers L !! i = Some b
       ∧ L' = mkLocals
           (<[i := freed s newTime b]> (updatedBarbers L))
           (finishedCustomers L ++ [markServed c])
           (updatedCurrentCustomers L ++ calledFor s newTime c)
           (customersToRemove L ++ [Customer.id c])
           (queued L ++ dequeued s)).
Proof.
  destruct (isDue newTime c) eqn:Hdue.
  - intros H. right. split; [done|].
    assert (∃ i b, Customer.servedBy c = Some (Z.of_nat i + 1)
                   ∧ updatedBarbers L !! i = Some b) as (i & b & Hsb & Hb).
    { revert H. unfold finishHaircut, arrayGet.
      unfold isDue in Hdue.
      destruct (Customer.serviceEndTime c) as [endT|]; [|done]. rewrite Hdue.
      destruct (Customer.servedBy c) as [sb|]; [|done].
      destruct (Z.leb_spec 0 (sb - 1)); [|done].
      destruct (updatedBarbers L !! Z.to_nat (sb - 1)) as [b|] eqn:Hb; [|done].
      intros _. exists (Z.to_nat (sb - 1)), b. split; [|done]. f_equal. lia. }
    exists i, b. repeat split; try done.
    rewrite (finishHaircut_due s newTime L c i b Hdue Hsb Hb) in H. congruence.
  - rewrite finishHaircut_not_due by done. intros [= <-]. by left.
Qed.

Lemma dequeued_setsWaiting s : Forall setsWaiting (dequeued s).
Proof. unfold dequeued. destruct (waitingCustomers s); repeat constructor. Qed.

Lemma forEach_queued_setsWaiting s newTime cs L :
  Forall setsWaiting (queued L) →
  Forall setsWaiting (queued (forEach (finishHaircut s newTime) cs L).1).
Proof.
  intros HL.
  apply (forEach_invariant (λ L, Forall setsWaiting (queued L))); [done|].
  intros a x a' Ha _ Hf.
  apply finishHaircut_Some in Hf as [[_ ->]|(_ & i & b & _ & _ & ->)]; [done|].
  simpl. apply Forall_app. split; [done | apply dequeued_setsWaiting].
Qed.

Lemma commit_keepsClock s q :
  Forall keepsClock q → currentTime (commit s q) = currentTime s.
Proof.
  intros H. revert s. induction H as [|u q Hu _ IH]; intros s; [done|].
  unfold commit in *. simpl. rewrite IH.
  destruct s, u; simpl; done.
Qed.

Lemma addCustomerWithName_keepsClock s name :
  Forall keepsClock (addCustomerWithName s name).
Proof.
  unfold addCustomerWithName.
  repeat case_match; repeat constructor.
Qed.

Lemma processTimeStep_clock s timeStep u r :
  isRunning s = true → isPaused s = false →
  currentTime (commit s (queue (processTimeStep s timeStep u r)))
  = (currentTime s + timeStep)%Q.
Proof.
  intros Hrun Hpau. unfold processTimeStep. rewrite Hrun, Hpau.
  cbn [negb orb andb].
  pose proof (forEach_queued_setsWaiting s (currentTime s + timeStep)%Q
    (currentCustomers s) (mkLocals (barbers s) [] (currentCustomers s) [] [])
    (Forall_nil_2 _)) as Hq.
  destruct (forEach _ _ _) as [L [|]]; cbn [raised queue fst] in *.
  all: change (commit s (?u :: ?q)) with (commit (applyUpdate s u) q).
  all: rewrite commit_keepsClock; [by destruct s|].
  - eapply Forall_impl; [exact Hq|]. by intros [].
  - repeat apply Forall_app_2.
    + eapply Forall_impl; [exact Hq|]. by intros [].
    + repeat constructor.
    + case_match; repeat constructor.
    + case_match; [apply addCustomerWithName_keepsClock | constructor].
Qed.




(** ** Steps in which the rendered state is stale *)

(** C3 (defect in the code).  Two barbers finish in the same step while
    one customer waits: every iteration of the loop reads the rendered
    queue, so both barbers call the same customer, who ends up twice in
    [currentCustomers], once per barber.  The loop of
    [assignCustomersToBarbers] does the same when two barbers sleep
    while one customer waits. *)
Theorem same_step_completions_share_the_queue_head :
  let s := run initial
    [SetBarberCount 2; AddCustomer "A"; AddCustomer "B"; AddCustomer "C"] in
  let s' := exec s (Advance 10 1 0) in
  reachable s'
  ∧ Customer.id <$> waitingCustomers s = [3]
  ∧ Customer.id <$> currentCustomers s' = [3; 3]
  ∧ Customer.servedBy <$> currentCustomers s' = [Some 1; Some 2]
  ∧ Barber.servingCustomerId <$> barbers s' = [Some 3; Some 3]
  ∧ ¬ NoDup (Customer.id <$>
        (waitingCustomers s' ++ currentCustomers s' ++ servedCustomers s'
         ++ turnedAwayCustomers s'))
  ∧ let t := run initial
      [AddCustomer "A"; AddCustomer "B"; SetBarberCount 3; TogglePause] in
    let t' := exec t StartHaircuts in
    Customer.id <$> waitingCustomers t = [2]
    ∧ Barber.state <$> barbers t = [WORKING; SLEEPING; SLEEPING]
    ∧ Customer.id <$> currentCustomers t' = [1; 2; 2]
    ∧ Barber.servingCustomerId <$> barbers t' = [Some 1; Some 2; Some 2].
Proof.
  intros s s'. repeat apply conj; try (vm_compute; reflexivity).
  - exists [SetBarberCount 2; AddCustomer "A"; AddCustomer "B"; AddCustomer "C";
            Advance 10 1 0].
    vm_compute. reflexivity.
  - intros H. vm_compute in H.
    apply NoDup_cons_1_1 in H. apply H, list_elem_of_here.
Qed.

(** C5 (defect in the code).  The only barber finishes exactly at the
    new time and a customer arrives in the same step.  The arrival is
    admitted against the rendered barbers, where the barber still
    works: the customer is queued, stamped with the old clock, while the
    freed barber sleeps.  Admitted after the completions, the same
    customer would have gone straight to the chair. *)
Theorem same_step_arrival_sees_rendered_barbers :
  let s := run initial [AddCustomer "A"] in
  let s' := exec s (Advance 10 0 0) in
  arrives s 10 0 = true
  ∧ Barber.state <$> barbers s = [WORKING]
  ∧ Customer.serviceEndTime <$> currentCustomers s = [Some 10%Q]
  ∧ Barber.state <$> barbers s' = [SLEEPING]
  ∧ currentCustomers s' = []
  ∧ Customer.name <$> waitingCustomers s' = ["Alex 2"]
  ∧ Customer.state <$> waitingCustomers s' = [WAITING]
  ∧ Customer.timeArrived <$> waitingCustomers s' = [0%Q]
  ∧ currentTime s' = 10%Q
  ∧ let t := exec (exec s (Advance 10 1 0)) (AddCustomer "Alex 2") in
    Customer.state <$> currentCustomers t = [GETTING_HAIRCUT]
    ∧ waitingCustomers t = [].
Proof. intros s s'. repeat apply conj; vm_compute; reflexivity. Qed.

(** The same step in a shop with a second, sleeping barber: the arrival
    wakes that barber and writes back the rendered barber list, which
    discards what the step did to the first barber.  A is served, yet
    barber 1 still works on A and has served nobody. *)
Lemma same_step_arrival_discards_barber_updates :
  let s := run initial [SetBarberCount 2; AddCustomer "A"] in
  let s' := exec s (Advance 10 0 0) in
  Customer.name <$> servedCustomers s' = ["A"]
  ∧ Barber.state <$> barbers s' = [WORKING; WORKING]
  ∧ Barber.servingCustomerId <$> barbers s' = [Some 1; Some 2]
  ∧ Barber.totalCustomersServed <$> barbers s' = [0; 0]
  ∧ Customer.id <$> currentCustomers s' = [2].
Proof. intros s s'. repeat apply conj; vm_compute; reflexivity. Qed.

(** C8 (defect in the code).  A haircut ends and a customer arrives in
    the same step while one customer waits.  The step takes the waiting
    customer out of the queue; the arrival is then appended with the
    position computed from the rendered queue, so the only customer in
    the queue records position 1. *)
Theorem same_step_arrival_records_stale_position :
  let s := run initial [AddCustomer "A"; AddCustomer "B"] in
  let s' := exec s (Advance 10 0 0) in
  reachable s'
  ∧ positionsInOrder (waitingCustomers s)
  ∧ Z.of_nat (length (waitingCustomers s')) ≤ numChairs s'
  ∧ Customer.name <$> waitingCustomers s' = ["Alex 3"]
  ∧ Customer.waitingPosition <$> waitingCustomers s' = [Some 1]
  ∧ ¬ positionsInOrder (waitingCustomers s').
Proof.
  intros s s'. repeat apply conj; try (vm_compute; reflexivity).
  - exists [AddCustomer "A"; AddCustomer "B"; Advance 10 0 0].
    vm_compute. reflexivity.
  - intros [|[|i]] c Hc; vm_compute in Hc; by simplify_eq.
  - vm_compute. discriminate.
  - intros H.
    destruct (waitingCustomers s') as [|c l] eqn:E; [vm_compute in E; discriminate E|].
    specialize (H 0%nat c eq_refl).
    vm_compute in E. injection E as <- _. vm_compute in H. discriminate H.
Qed.

(** C2 (defect in the code).  The organic arrival of a time step is
    admitted by the handler of the render before the step: whatever the
    step has queued, the arrival's updates are those of
    [addCustomerWithName] on the rendered state.  So the admission rule
    is applied to barbers and a queue that the completions of the same
    step have already changed.  With B and C waiting, the arrival joins
    the queue behind C at position 2 of a queue of two.  With B, C and
    D waiting on three chairs, the arrival is turned away although the
    step has left two customers in the queue.  With two barbers
    finishing A and B, the arrival is queued while both barbers go to
    sleep.  In each case the same customer added by hand after the step
    is admitted as the rule says: position 1, queued, and seated with
    barber 1. *)
Theorem organic_arrival_admitted_against_rendered_state :
  (∀ s timeStep u r,
     isRunning s = true → isPaused s = false →
     arrives s timeStep u = true →
     raised (processTimeStep s timeStep u r) = false →
     ∃ q name,
       queue (processTimeStep s timeStep u r) = q ++ addCustomerWithName s name)
  ∧ (let s := run initial [AddCustomer "A"; AddCustomer "B"; AddCustomer "C"] in
     let s' := exec s (Advance 10 0 0) in
     let t := exec (exec s (Advance 10 1 0)) (AddCustomer "Alex 4") in
     reachable s'
     ∧ arrives s 10 0 = true
     ∧ Customer.name <$> waitingCustomers s = ["B"; "C"]
     ∧ Barber.state <$> barbers s' = [WORKING]
     ∧ Customer.name <$> waitingCustomers s' = ["C"; "Alex 4"]
     ∧ Customer.state <$> waitingCustomers s' = [WAITING; WAITING]
     ∧ Customer.waitingPosition <$> waitingCustomers s' = [Some 0; Some 2]
     ∧ Customer.name <$> waitingCustomers t = ["C"; "Alex 4"]
     ∧ Customer.waitingPosition <$> waitingCustomers t = [Some 0; Some 1])
  ∧ (let s := run initial
       [AddCustomer "A"; AddCustomer "B"; AddCustomer "C"; AddCustomer "D"] in
     let s' := exec s (Advance 10 0 0) in
     let t := exec (exec s (Advance 10 1 0)) (AddCustomer "Alex 5") in
     reachable s'
     ∧ arrives s 10 0 = true
     ∧ Customer.name <$> waitingCustomers s = ["B"; "C"; "D"]
     ∧ Barber.state <$> barbers s' = [WORKING]
     ∧ Customer.name <$> waitingCustomers s' = ["C"; "D"]
     ∧ numChairs s' = 3
     ∧ Customer.name <$> turnedAwayCustomers s' = ["Alex 5"]
     ∧ Customer.state <$> turnedAwayCustomers s' = [TURNED_AWAY]
     ∧ Customer.name <$> waitingCustomers t = ["C"; "D"; "Alex 5"]
     ∧ turnedAwayCustomers t = [])
  ∧ (let s := run initial [SetBarberCount 2; AddCustomer "A"; AddCustomer "B"] in
     let s' := exec s (Advance 10 0 0) in
     let t := exec (exec s (Advance 10 1 0)) (AddCustomer "Alex 3") in
     reachable s'
     ∧ arrives s 10 0 = true
     ∧ Barber.state <$> barbers s = [WORKING; WORKING]
     ∧ Barber.state <$> barbers s' = [SLEEPING; SLEEPING]
     ∧ currentCustomers s' = []
     ∧ Customer.name <$> waitingCustomers s' = ["Alex 3"]
     ∧ Customer.state <$> waitingCustomers s' = [WAITING]
     ∧ waitingCustomers t = []
     ∧ Customer.name <$> currentCustomers t = ["Alex 3"]
     ∧ Customer.state <$> currentCustomers t = [GETTING_HAIRCUT]
     ∧ Customer.servedBy <$> currentCustomers t = [Some 1]
     ∧ Barber.state <$> barbers t = [WORKING; SLEEPING]).
Proof.
  split; [|split; [|split]].
  - intros s timeStep u r Hrun Hpau Harr. unfold processTimeStep.
    rewrite Hrun, Hpau, Harr. cbn [negb orb andb].
    destruct (forEach _ _ _) as [L [|]]; cbn [raised queue]; [done|]. intros _.
    match goal with
    | |- ∃ q name, ?a :: ?b ++ ?c ++ ?d ++ ?e = _ =>
        exists (a :: b ++ c ++ d); eexists
    end.
    unfold addRandomCustomer. by rewrite !app_comm_cons, !app_assoc.
  - intros s s' t. repeat apply conj; try (vm_compute; reflexivity).
    exists [AddCustomer "A"; AddCustomer "B"; AddCustomer "C"; Advance 10 0 0].
    vm_compute. reflexivity.
  - intros s s' t. repeat apply conj; try (vm_compute; reflexivity).
    exists [AddCustomer "A"; AddCustomer "B"; AddCustomer "C"; AddCustomer "D";
            Advance 10 0 0].
    vm_compute. reflexivity.
  - intros s s' t. repeat apply conj; try (vm_compute; reflexivity).
    exists [SetBarberCount 2; AddCustomer "A"; AddCustomer "B"; Advance 10 0 0].
    vm_compute. reflexivity.
Qed.

(** * Double arithmetic *)

Lemma exponent_le q : (0 < q)%Q → (2 ^ exponent q <= q)%Q.
Proof.
  intros Hq. unfold exponent.
  set (a := Z.log2 (Qnum q)). set (b := Z.log2 (Zpos (Qden q))).
  destruct (Qle_bool (2 ^ (a - b)) q) eqn:E; [by apply Qle_bool_iff|].
  destruct q as [n d]. cbn [Qnum Qden] in *.
  assert (0 < n) as Hn by (unfold Qlt in Hq; simpl in Hq; lia).
  destruct (Z.log2_spec n Hn) as [Ha _].
  destruct (Z.log2_spec (Zpos d) ltac:(lia)) as [_ Hb].
  fold a in Ha. fold b in Hb.
  assert (0 ≤ a) by apply Z.log2_nonneg.
  assert (0 ≤ b) by apply Z.log2_nonneg.
  replace (a - b - 1) with (a + - (b + 1)) by lia.
  rewrite Qpower_plus by discriminate. rewrite Qpower_opp.
  rewrite <- !(Zpower_Qpower 2) by lia.
  change (inject_Z 2) with 2%Q.
  assert (0 < 2 ^ (b + 1)) by (apply Z.pow_pos_nonneg; lia).
  unfold Qle, Qmult, Qinv, inject_Z. cbn [Qnum Qden].
  destruct (2 ^ (b + 1)) as [|p|p] eqn:Ep; try lia.
  cbn [Qnum Qden]. rewrite Z.mul_1_r, Pos.mul_1_l.
  rewrite <- Ep. replace (Z.succ b) with (b + 1) in Hb by lia.
  clearbody a b. nia.
Qed.

Lemma roundTiesToEven_near x :
  (- (1 # 2) <= inject_Z (roundTiesToEven x) - x <= 1 # 2)%Q.
Proof.
  unfold roundTiesToEven.
  pose proof (Qfloor_le x) as Hle. pose proof (Qlt_floor x) as Hlt.
  rewrite inject_Z_plus in Hlt. change (inject_Z 1) with 1%Q in Hlt.
  destruct (Qcompare_spec (x - inject_Z (Qfloor x)) (1 # 2)) as [E|E|E].
  - destruct (Z.even (Qfloor x)).
    + lra.
    + rewrite inject_Z_plus. change (inject_Z 1) with 1%Q. lra.
  - lra.
  - rewrite inject_Z_plus. change (inject_Z 1) with 1%Q. lra.
Qed.

Lemma roundTiesToEven_sign x :
  ((0 <= x)%Q → 0 ≤ roundTiesToEven x) ∧ ((x <= 0)%Q → roundTiesToEven x ≤ 0).
Proof.
  unfold roundTiesToEven.
  pose proof (Qfloor_le x) as Hle. pose proof (Qlt_floor x) as Hlt.
  rewrite inject_Z_plus in Hlt. change (inject_Z 1) with 1%Q in Hlt.
  split; intros Hx.
  - assert (0 ≤ Qfloor x).
    { rewrite <- (Qfloor_Z 0). by apply Qfloor_resp_le. }
    destruct (_ ?= _)%Q; [destruct (Z.even _)|..]; lia.
  - assert (Qfloor x ≤ 0).
    { rewrite <- (Qfloor_Z 0). by apply Qfloor_resp_le. }
    destruct (Qcompare_spec (x - inject_Z (Qfloor x)) (1 # 2)) as [E|E|E].
    + assert (Qfloor x < 0); [|destruct (Z.even _); lia].
      rewrite Zlt_Qlt. change (inject_Z 0) with 0%Q. lra.
    + lia.
    + assert (Qfloor x < 0); [|lia].
      rewrite Zlt_Qlt. change (inject_Z 0) with 0%Q. lra.
Qed.

Lemma ulp_pos q : (0 < ulp q)%Q.
Proof. unfold ulp. by apply Qpower_0_lt. Qed.

Lemma ulp_bound q :
  ¬ (q == 0)%Q → (ulp q <= (1 # 4503599627370496) * Qabs q + 2 * eta)%Q.
Proof.
  intros Hq. unfold ulp.
  assert (0 < Qabs q)%Q as Habs.
  { apply Qabs_case; intros Hs; apply Qle_lteq in Hs as [Hs|Hs];
      [lra|by symmetry in Hs|lra|done]. }
  pose proof (exponent_le _ Habs) as He.
  assert (0 < eta)%Q as Heta by (by apply Qpower_0_lt).
  destruct (Z.max_spec (exponent (Qabs q) - 52) (-1074)) as [[_ ->]|[_ ->]].
  - change (2 ^ (-1074))%Q with (2 * eta)%Q at 1 || idtac.
    assert (2 ^ (-1074) == 2 * eta)%Q as -> by (unfold eta; reflexivity).
    assert (0 <= (1 # 4503599627370496) * Qabs q)%Q by (apply Qmult_le_0_compat; [done|lra]).
    lra.
  - replace (exponent (Qabs q) - 52) with (exponent (Qabs q) + -52) by lia.
    rewrite Qpower_plus by discriminate.
    assert (2 ^ (-52) == 1 # 4503599627370496)%Q as -> by reflexivity.
    set (P := (2 ^ exponent (Qabs q))%Q) in *. lra.
Qed.

Lemma rounded_error q :
  ¬ (q == 0)%Q →
  (- (eps * Qabs q + eta)
   <= inject_Z (roundTiesToEven (q / ulp q)) * ulp q - q
   <= eps * Qabs q + eta)%Q.
Proof.
  intros Hq.
  assert (0 < eta)%Q as Heta by (by apply Qpower_0_lt).
  pose proof (ulp_pos q) as Hu. pose proof (ulp_bound q Hq) as Hb.
  pose proof (roundTiesToEven_near (q / ulp q)) as [H1 H2].
  set (m := inject_Z (roundTiesToEven (q / ulp q))) in *.
  set (u := ulp q) in *.
  assert (q == q / u * u)%Q as Hq' by (field; lra).
  set (x := (q / u)%Q) in *. clearbody x m u.
  assert (m * u - q == (m - x) * u)%Q as -> by (rewrite Hq'; ring).
  assert ((m - x) * u <= (1 # 2) * u)%Q by (apply Qmult_le_compat_r; lra).
  assert (- (1 # 2) * u <= (m - x) * u)%Q by (apply Qmult_le_compat_r; lra).
  set (A := Qabs q) in *. clearbody A.
  set (y := ((m - x) * u)%Q) in *. clearbody y.
  unfold eps. split; lra.
Qed.

Lemma double_error q r :
  double q = Num r →
  (- ((1 # 9007199254740992) * Qabs q + eta) <= r - q <= (1 # 9007199254740992) * Qabs q + eta)%Q.
Proof.
  unfold double.
  assert (0 < eta)%Q as Heta by (by apply Qpower_0_lt).
  destruct (Qeq_bool q 0) eqn:E.
  - intros [= <-]. apply Qeq_bool_iff in E. rewrite E.
    change (Qabs 0) with 0%Q. lra.
  - assert (¬ (q == 0)%Q) as Hq by (intros H; apply Qeq_bool_iff in H; congruence).
    do 2 (case_match; [done|]). intros [= <-].
    rewrite Qred_correct. exact (rounded_error q Hq).
Qed.

Lemma double_sign q r :
  double q = Num r → ((0 <= q)%Q → (0 <= r)%Q) ∧ ((q <= 0)%Q → (r <= 0)%Q).
Proof.
  unfold double. destruct (Qeq_bool q 0) eqn:E.
  { intros [= <-]. split; intros _; apply Qle_refl. }
  do 2 (case_match; [done|]). intros [= <-]. rewrite Qred_correct.
  pose proof (ulp_pos q) as Hu.
  destruct (roundTiesToEven_sign (q / ulp q)) as [Hpos Hneg].
  split; intros Hq.
  - apply Qmult_le_0_compat; [|lra].
    change 0%Q with (inject_Z 0). rewrite <- Zle_Qle. apply Hpos.
    apply Qle_shift_div_l; [done|]. lra.
  - assert (inject_Z (roundTiesToEven (q / ulp q)) <= 0)%Q as Hm.
    { change 0%Q with (inject_Z 0). rewrite <- Zle_Qle. apply Hneg.
      apply Qle_shift_div_r; [done|]. lra. }
    set (m := inject_Z (roundTiesToEven (q / ulp q))) in *. clearbody m.
    assert (0 <= (- m) * ulp q)%Q by (apply Qmult_le_0_compat; lra).
    set (u := ulp q) in *. clearbody u. lra.
Qed.

Lemma double_nonpos q :
  (q <= 0)%Q → (∃ r, double q = Num r ∧ (r <= 0)%Q) ∨ double q = MinusInfinity.
Proof.
  intros Hq. destruct (double q) as [r| | |] eqn:E.
  - left. exists r. split; [done|]. by apply (double_sign q r E).
  - exfalso. unfold double in E. repeat case_match; done.
  - exfalso. unfold double in E. destruct (Qeq_bool q 0); [done|].
    destruct (Qle_bool (2 ^ 1024) _) eqn:E'; [|by case_match].
    apply Qle_bool_iff in E'. rewrite Qred_correct in E'.
    pose proof (ulp_pos q) as Hu.
    destruct (roundTiesToEven_sign (q / ulp q)) as [_ Hneg].
    assert (inject_Z (roundTiesToEven (q / ulp q)) <= 0)%Q as Hm.
    { change 0%Q with (inject_Z 0). rewrite <- Zle_Qle. apply Hneg.
      apply Qle_shift_div_r; [done|]. lra. }
    set (m := inject_Z (roundTiesToEven (q / ulp q))) in *. clearbody m.
    assert (0 <= (- m) * ulp q)%Q by (apply Qmult_le_0_compat; lra).
    assert (0 < 2 ^ 1024)%Q by (by apply Qpower_0_lt).
    set (u := ulp q) in *. clearbody u.
    set (big := (2 ^ 1024)%Q) in *. clearbody big. lra.
  - by right.
Qed.

Lemma double_nonneg q :
  (0 <= q)%Q → (∃ r, double q = Num r ∧ (0 <= r)%Q) ∨ double q = Infinity.
Proof.
  intros Hq. destruct (double q) as [r| | |] eqn:E.
  - left. exists r. split; [done|]. by apply (double_sign q r E).
  - exfalso. unfold double in E. repeat case_match; done.
  - by right.
  - exfalso. unfold double in E. destruct (Qeq_bool q 0); [done|].
    destruct (Qle_bool (2 ^ 1024) _); [done|].
    destruct (Qle_bool _ (- 2 ^ 1024)) eqn:E'; [|done].
    apply Qle_bool_iff in E'. rewrite Qred_correct in E'.
    pose proof (ulp_pos q) as Hu.
    destruct (roundTiesToEven_sign (q / ulp q)) as [Hpos _].
    assert (0 <= inject_Z (roundTiesToEven (q / ulp q)))%Q as Hm.
    { change 0%Q with (inject_Z 0). rewrite <- Zle_Qle. apply Hpos.
      apply Qle_shift_div_l; [done|]. lra. }
    set (m := inject_Z (roundTiesToEven (q / ulp q))) in *. clearbody m.
    assert (0 <= m * ulp q)%Q by (apply Qmult_le_0_compat; lra).
    assert (0 < 2 ^ 1024)%Q by (by apply Qpower_0_lt).
    set (u := ulp q) in *. clearbody u.
    set (big := (2 ^ 1024)%Q) in *. clearbody big. lra.
Qed.

Lemma eta_range : (0 < eta)%Q ∧ (eta <= eps)%Q.
Proof.
  split; [by apply Qpower_0_lt|].
  unfold eta, eps. apply Qle_bool_iff. vm_compute. reflexivity.
Qed.

Lemma double_within q r B :
  double q = Num r → (- B <= q <= B)%Q →
  (- (eps * B + eta) <= r - q <= eps * B + eta)%Q.
Proof.
  intros Hd HB. apply double_error in Hd.
  apply Qabs_Qle_condition in HB. unfold eps.
  set (A := Qabs q) in *. clearbody A. lra.
Qed.

(** No overflow below [2 ^ 1023]. *)
Lemma double_finite q B :
  (- B <= q <= B)%Q → (B <= 2 ^ 1023)%Q → ∃ r, double q = Num r.
Proof.
  intros HB Hmax. unfold double.
  destruct (Qeq_bool q 0) eqn:E; [by eexists|].
  assert (¬ (q == 0)%Q) as Hq by (intros H; apply Qeq_bool_iff in H; congruence).
  pose proof (rounded_error q Hq) as Hr.
  apply Qabs_Qle_condition in HB.
  pose proof (Qabs_nonneg q) as Habs.
  pose proof (Qle_Qabs q) as Hup. pose proof (Qle_Qabs (- q)) as Hdown.
  rewrite Qabs_opp in Hdown.
  destruct eta_range as [He1 He2].
  assert (2 ^ 1024 == 2 * 2 ^ 1023)%Q as Htwice by reflexivity.
  assert (2 <= 2 ^ 1023)%Q as Hbig by (apply Qle_bool_iff; vm_compute; reflexivity).
  set (raw := (inject_Z (roundTiesToEven (q / ulp q)) * ulp q)%Q) in *.
  set (T := (2 ^ 1023)%Q) in *. set (T2 := (2 ^ 1024)%Q) in *.
  set (A := Qabs q) in *. clearbody raw T T2 A.
  unfold eps in *.
  destruct (Qle_bool T2 (Qred raw)) eqn:E1.
  { apply Qle_bool_iff in E1. rewrite Qred_correct in E1. lra. }
  destruct (Qle_bool (Qred raw) (- T2)) eqn:E2.
  { apply Qle_bool_iff in E2. rewrite Qred_correct in E2. lra. }
  by eexists.
Qed.

Lemma Qeq_bool_comp x y z : (x == y)%Q → Qeq_bool x z = Qeq_bool y z.
Proof.
  intros H. destruct (Qeq_bool y z) eqn:E.
  - apply Qeq_bool_iff. apply Qeq_bool_iff in E. by rewrite H.
  - destruct (Qeq_bool x z) eqn:E'; [|done].
    apply Qeq_bool_iff in E'. rewrite H in E'. apply Qeq_bool_iff in E'. congruence.
Qed.

Lemma waitTime_error c w :
  stampsAreDoubles c → waitTime c = Num w →
  (- (eps * Qabs (recordedWait c) + eta) <= w - recordedWait c
   <= eps * Qabs (recordedWait c) + eta)%Q.
Proof.
  intros [(b & Hb & Eb) Hserved]. unfold waitTime, recordedWait. rewrite Hb.
  assert (∃ x, jsOr match Customer.timeServed c with
                    | Some t => double t
                    | None => NaN
                    end (Num b) = Num x
               ∧ (x == orElse (Customer.timeServed c) (Customer.timeArrived c))%Q)
    as (x & -> & Ex).
  { unfold orElse. destruct (Customer.timeServed c) as [t|]; [|by exists b].
    destruct (Hserved t eq_refl) as (t' & -> & Et). cbn [jsOr].
    rewrite (Qeq_bool_comp _ _ _ Et).
    destruct (Qeq_bool t 0); [by exists b|by exists t']. }
  cbn [jsSub]. intros Hw.
  pose proof (double_within _ _ _ Hw (proj1 (Qabs_Qle_condition _ _) (Qle_refl _)))
    as H.
  rewrite <- Ex, <- Eb. exact H.
Qed.

Lemma jsAdd_Num a b r :
  jsAdd a b = Num r → ∃ x y, a = Num x ∧ b = Num y ∧ double (x + y) = Num r.
Proof. destruct a, b; try done. intros H. by eexists _, _. Qed.

Lemma jsMul_Num a y r :
  jsMul a (Num y) = Num r → ∃ x, a = Num x ∧ double (x * y) = Num r.
Proof.
  destruct a; simpl; try (by destruct (y ?= 0)%Q). intros H. by eexists.
Qed.

Lemma jsDiv_Num a y r :
  ¬ (y == 0)%Q → jsDiv a (Num y) = Num r → ∃ x, a = Num x ∧ double (x / y) = Num r.
Proof.
  intros Hy. destruct a; simpl; try (by destruct (Qle_bool 0 y)).
  destruct (Qeq_bool y 0) eqn:E; [by apply Qeq_bool_iff in E|].
  intros H. by eexists.
Qed.

Lemma Math_round_Num a r :
  Math_round a = Num r → ∃ x, a = Num x ∧ r = inject_Z (Qfloor (x + (1 # 2))).
Proof. destruct a; try done. intros [= <-]. by eexists. Qed.

Lemma totalWaitTime_finite (served : list Customer.t) (x : JsNumber) t :
  foldl (λ total customer, jsAdd total (waitTime customer)) x served = Num t →
  ∃ t0, x = Num t0.
Proof.
  revert x. induction served as [|c l IH]; intros x; simpl; [by eexists|].
  intros H. destruct (IH _ H) as [t1 H1].
  apply jsAdd_Num in H1 as (t0 & _ & -> & _). by eexists.
Qed.

Lemma sumQ_abs_nonneg (l : list Q) : (0 <= sumQ (Qabs <$> l))%Q.
Proof.
  induction l as [|x l IH]; [done|].
  change (0 <= Qabs x + sumQ (Qabs <$> l))%Q.
  pose proof (Qabs_nonneg x). lra.
Qed.

Lemma totalWaitTime_error (served : list Customer.t) :
  Forall stampsAreDoubles served →
  ∀ (t0 t S0 K A : Q),
    foldl (λ total customer, jsAdd total (waitTime customer)) (Num t0) served = Num t →
    (0 <= K)%Q → (K + lengthQ served <= 4294967296)%Q →
    (- (K * (4 * (eps * A + eta))) <= t0 - S0 <= K * (4 * (eps * A + eta)))%Q →
    (Qabs S0 + sumQ (Qabs <$> (recordedWait <$> served)) <= A)%Q →
    (- ((K + lengthQ served) * (4 * (eps * A + eta)))
     <= t - (S0 + sumQ (recordedWait <$> served))
     <= (K + lengthQ served) * (4 * (eps * A + eta)))%Q.
Proof.
  induction 1 as [|c l Hc _ IH]; intros t0 t S0 K A Ht HK Hn H0 HA.
  - cbn [foldl] in Ht. injection Ht as <-.
    unfold lengthQ. cbn [length Z.of_nat fmap list_fmap sumQ foldr].
    change (inject_Z (Z.of_nat 0)) with 0%Q.
    set (g := (4 * (eps * A + eta))%Q) in *. clearbody g. lra.
  - cbn [foldl] in Ht.
    destruct (totalWaitTime_finite _ _ _ Ht) as [t1 Ht1]. rewrite Ht1 in Ht.
    apply jsAdd_Num in Ht1 as (? & w & [= <-] & Hw & Ht1).
    pose proof (waitTime_error c w Hc Hw) as Ew.
    assert (lengthQ (c :: l) == lengthQ l + 1)%Q as Hcount.
    { unfold lengthQ. cbn [length]. rewrite Nat2Z.inj_succ, <- Z.add_1_r.
      by rewrite inject_Z_plus. }
    assert (0 <= lengthQ l)%Q as Hl.
    { unfold lengthQ. change 0%Q with (inject_Z 0). rewrite <- Zle_Qle. lia. }
    rewrite Hcount in *.
    cbn [fmap list_fmap sumQ foldr] in *.
    change (foldr Qplus 0%Q ?l) with (sumQ l) in *.
    set (wq := recordedWait c) in *. set (W := Qabs wq) in *.
    set (rest := sumQ (recordedWait <$> l)) in *.
    set (restAbs := sumQ (Qabs <$> (recordedWait <$> l))) in *.
    assert (0 <= restAbs)%Q as Hrest by apply sumQ_abs_nonneg.
    pose proof (Qabs_nonneg S0) as HS0. pose proof (Qabs_nonneg wq) as HW.
    fold W in HW.
    pose proof (Qabs_triangle S0 wq) as Htri. fold W in Htri.
    assert (0 <= A)%Q as HA0 by lra.
    destruct eta_range as [Heta1 Heta2].
    assert (K * A <= 4294967296 * A)%Q as HKA by (apply Qmult_le_compat_r; lra).
    assert (K * eta <= 4294967296 * eta)%Q as HKe by (apply Qmult_le_compat_r; lra).
    assert (0 <= K * A)%Q as HKA0 by (apply Qmult_le_0_compat; lra).
    assert (0 <= K * eta)%Q as HKe0 by (apply Qmult_le_0_compat; lra).
    assert (- (S0 + wq) <= Qabs (S0 + wq) ∧ S0 + wq <= Qabs (S0 + wq))%Q as [Hs1 Hs2].
    { split; [rewrite <- Qabs_opp|]; apply Qle_Qabs. }
    assert (Hstep : (- ((K + 1) * (4 * (eps * A + eta))) <= t1 - (S0 + wq)
                     <= (K + 1) * (4 * (eps * A + eta)))%Q).
    { assert (- (A + K * (4 * (eps * A + eta)) + eps * W + eta) <= t0 + w
              <= A + K * (4 * (eps * A + eta)) + eps * W + eta)%Q as HB.
      { unfold eps in *. clearbody W wq restAbs rest.
        set (kA := (K * A)%Q) in *. set (ke := (K * eta)%Q) in *.
        set (sw := Qabs (S0 + wq)) in *. clearbody kA ke sw.
        split; lra. }
      pose proof (double_within _ _ _ Ht1 HB) as E1.
      unfold eps in *. clearbody W wq restAbs rest.
      set (sw := Qabs (S0 + wq)) in *. clearbody sw.
      split; lra. }
    specialize (IH t1 t (S0 + wq)%Q (K + 1)%Q A Ht ltac:(lra) ltac:(lra) Hstep).
    assert (Qabs (S0 + wq) + restAbs <= A)%Q as HA' by lra.
    specialize (IH HA'). fold rest in IH.
    split; lra.
Qed.

Lemma waitTime_finite c A :
  stampsAreDoubles c → (Qabs (recordedWait c) <= A)%Q → (A <= 2 ^ 1023)%Q →
  ∃ w, waitTime c = Num w.
Proof.
  intros [(b & Hb & Eb) Hserved] HA Hmax. unfold waitTime. rewrite Hb.
  assert (∃ x, jsOr match Customer.timeServed c with
                    | Some t => double t
                    | None => NaN
                    end (Num b) = Num x
               ∧ (x == orElse (Customer.timeServed c) (Customer.timeArrived c))%Q)
    as (x & -> & Ex).
  { unfold orElse. destruct (Customer.timeServed c) as [t|]; [|by exists b].
    destruct (Hserved t eq_refl) as (t' & -> & Et). cbn [jsOr].
    rewrite (Qeq_bool_comp _ _ _ Et).
    destruct (Qeq_bool t 0); [by exists b|by exists t']. }
  cbn [jsSub]. apply (double_finite _ A); [|done].
  apply Qabs_Qle_condition. unfold recordedWait in HA.
  by rewrite Ex, Eb.
Qed.

Lemma totalWaitTime_total (served : list Customer.t) :
  Forall stampsAreDoubles served →
  ∀ (t0 S0 K A : Q),
    (0 <= K)%Q → (K + lengthQ served <= 4294967296)%Q →
    (- (K * (4 * (eps * A + eta))) <= t0 - S0 <= K * (4 * (eps * A + eta)))%Q →
    (Qabs S0 + sumQ (Qabs <$> (recordedWait <$> served)) <= A)%Q →
    (A <= 2 ^ 1000)%Q →
    ∃ t, foldl (λ total customer, jsAdd total (waitTime customer)) (Num t0) served
         = Num t.
Proof.
  induction 1 as [|c l Hc Hl IH]; intros t0 S0 K A HK Hn H0 HA Hmax.
  { by exists t0. }
  assert (lengthQ (c :: l) == lengthQ l + 1)%Q as Hcount.
  { unfold lengthQ. cbn [length]. rewrite Nat2Z.inj_succ, <- Z.add_1_r.
    by rewrite inject_Z_plus. }
  assert (0 <= lengthQ l)%Q as Hl0.
  { unfold lengthQ. change 0%Q with (inject_Z 0). rewrite <- Zle_Qle. lia. }
  rewrite Hcount in Hn.
  cbn [fmap list_fmap sumQ foldr] in HA.
  change (foldr Qplus 0%Q ?l) with (sumQ l) in HA.
  pose proof (sumQ_abs_nonneg (recordedWait <$> l)) as Hrest.
  pose proof (Qabs_nonneg S0) as HS0.
  pose proof (Qabs_nonneg (recordedWait c)) as HW.
  assert (2 ^ 1000 <= 2 ^ 1023)%Q as Hpow
    by (apply Qpower_le_compat_l; [lia|discriminate]).
  assert (1 <= 2 ^ 1000)%Q as Hone by (apply Qpower_1_le; [discriminate|lia]).
  assert (2 ^ 1023 == 8388608 * 2 ^ 1000)%Q as Hwide.
  { replace 1023 with (23 + 1000) by lia.
    rewrite Qpower_plus by discriminate. reflexivity. }
  destruct (waitTime_finite c A Hc ltac:(lra) ltac:(lra)) as [w Hw].
  pose proof (waitTime_error c w Hc Hw) as Ew.
  assert (0 <= A)%Q as HA0 by lra.
  destruct eta_range as [Heta1 Heta2].
  assert (K * A <= 4294967296 * A)%Q as HKA by (apply Qmult_le_compat_r; lra).
  assert (K * eta <= 4294967296 * eta)%Q as HKe by (apply Qmult_le_compat_r; lra).
  assert (0 <= K * A)%Q as HKA0 by (apply Qmult_le_0_compat; lra).
  assert (0 <= K * eta)%Q as HKe0 by (apply Qmult_le_0_compat; lra).
  pose proof (Qle_Qabs S0) as Hs1. pose proof (Qle_Qabs (- S0)) as Hs2.
  rewrite Qabs_opp in Hs2.
  pose proof (Qle_Qabs (recordedWait c)) as Hw1.
  pose proof (Qle_Qabs (- recordedWait c)) as Hw2.
  rewrite Qabs_opp in Hw2.
  destruct (double_finite (t0 + w) (2 * A + 1)) as [t1 Ht1].
  { unfold eps in *.
    set (wq := recordedWait c) in *. set (W := Qabs wq) in *.
    set (restAbs := sumQ (Qabs <$> (recordedWait <$> l))) in *.
    set (aS := Qabs S0) in *.
    set (T := (2 ^ 1000)%Q) in *. set (T' := (2 ^ 1023)%Q) in *.
    clearbody wq W restAbs aS T T'. split; lra. }
  { set (T := (2 ^ 1000)%Q) in *. set (T' := (2 ^ 1023)%Q) in *.
    clearbody T T'. lra. }
  assert (foldl (λ total customer, jsAdd total (waitTime customer)) (Num t0) [c]
          = Num t1) as Hfold by (cbn [foldl]; rewrite Hw; exact Ht1).
  assert (lengthQ [c] == 1)%Q as Hsingle by reflexivity.
  pose proof (totalWaitTime_error [c] ltac:(by constructor) t0 t1 S0 K A Hfold HK)
    as Hstep.
  rewrite Hsingle in Hstep.
  specialize (Hstep ltac:(lra) H0).
  cbn [fmap list_fmap sumQ foldr] in Hstep.
  specialize (Hstep ltac:(lra)).
  cbn [foldl]. rewrite Hw. cbn [jsAdd]. rewrite Ht1.
  apply (IH t1 (S0 + recordedWait c)%Q (K + 1)%Q A); [lra|lra| |  |done].
  - split; lra.
  - pose proof (Qabs_triangle S0 (recordedWait c)). lra.
Qed.

Lemma sumQ_abs (l : list Q) :
  (- sumQ (Qabs <$> l) <= sumQ l <= sumQ (Qabs <$> l))%Q.
Proof.
  induction l as [|x l IH]; [by split|].
  change (- (Qabs x + sumQ (Qabs <$> l)) <= x + sumQ l
          <= Qabs x + sumQ (Qabs <$> l))%Q.
  pose proof (Qle_Qabs x). pose proof (Qle_Qabs (- x)) as H'.
  rewrite Qabs_opp in H'.
  set (a := Qabs x) in *. clearbody a.
  set (s := sumQ l) in *. set (sa := sumQ (Qabs <$> l)) in *. clearbody s sa.
  split; lra.
Qed.

Lemma Math_round_within x :
  (- (1 # 2) <= inject_Z (Qfloor (x + (1 # 2))) - x <= 1 # 2)%Q.
Proof.
  pose proof (Qfloor_le (x + (1 # 2))) as Hle.
  pose proof (Qlt_floor (x + (1 # 2))) as Hlt.
  rewrite inject_Z_plus in Hlt. change (inject_Z 1) with 1%Q in Hlt.
  set (F := inject_Z (Qfloor (x + (1 # 2)))) in *. clearbody F.
  split; lra.
Qed.

(** ** Rounding is monotone *)

Lemma exponent_lt q : (0 < q)%Q → (q < 2 ^ (exponent q + 1))%Q.
Proof.
  intros Hq. unfold exponent.
  set (a := Z.log2 (Qnum q)). set (b := Z.log2 (Zpos (Qden q))).
  destruct (Qle_bool (2 ^ (a - b)) q) eqn:E.
  - destruct q as [n d]. cbn [Qnum Qden] in *.
    assert (0 < n) as Hn by (unfold Qlt in Hq; simpl in Hq; lia).
    destruct (Z.log2_spec n Hn) as [_ Ha].
    destruct (Z.log2_spec (Zpos d) ltac:(lia)) as [Hb _].
    fold a in Ha. fold b in Hb.
    assert (0 ≤ a) by apply Z.log2_nonneg.
    assert (0 ≤ b) by apply Z.log2_nonneg.
    replace (a - b + 1) with ((a + 1) + - b) by lia.
    rewrite Qpower_plus by discriminate. rewrite Qpower_opp.
    rewrite <- !(Zpower_Qpower 2) by lia.
    change (inject_Z 2) with 2%Q.
    assert (0 < 2 ^ b) by (apply Z.pow_pos_nonneg; lia).
    unfold Qlt, Qmult, Qinv, inject_Z. cbn [Qnum Qden].
    destruct (2 ^ b) as [|p|p] eqn:Ep; try lia.
    cbn [Qnum Qden]. rewrite Z.mul_1_r, Pos.mul_1_l.
    rewrite <- Ep. replace (Z.succ a) with (a + 1) in Ha by lia.
    clearbody a b. nia.
  - replace (a - b - 1 + 1) with (a - b) by lia.
    apply Qnot_le_lt. intros H. apply Qle_bool_iff in H. congruence.
Qed.

Lemma exponent_unique q k :
  (0 < q)%Q → (2 ^ k <= q)%Q → (q < 2 ^ (k + 1))%Q → exponent q = k.
Proof.
  intros Hq H1 H2.
  pose proof (exponent_le q Hq) as H3. pose proof (exponent_lt q Hq) as H4.
  assert (exponent q < k + 1).
  { apply (Qpower_lt_compat_l_inv 2); [|reflexivity].
    eapply Qle_lt_trans; [exact H3|exact H2]. }
  assert (k < exponent q + 1).
  { apply (Qpower_lt_compat_l_inv 2); [|reflexivity].
    eapply Qle_lt_trans; [exact H1|exact H4]. }
  lia.
Qed.

Lemma exponent_mono q1 q2 :
  (0 < q1)%Q → (q1 <= q2)%Q → exponent q1 ≤ exponent q2.
Proof.
  intros Hq Hle.
  assert (0 < q2)%Q as Hq2 by lra.
  pose proof (exponent_le q1 Hq) as H1. pose proof (exponent_lt q2 Hq2) as H2.
  assert (exponent q1 < exponent q2 + 1); [|lia].
  apply (Qpower_lt_compat_l_inv 2); [|reflexivity]. lra.
Qed.

Lemma roundTiesToEven_ge x N :
  (inject_Z N <= x)%Q → N ≤ roundTiesToEven x.
Proof.
  intros H. unfold roundTiesToEven.
  assert (N ≤ Qfloor x).
  { rewrite <- (Qfloor_Z N). by apply Qfloor_resp_le. }
  destruct (_ ?= _)%Q; [destruct (Z.even _)|..]; lia.
Qed.

Lemma roundTiesToEven_below x N :
  (x < inject_Z N + (1 # 2))%Q → roundTiesToEven x ≤ N.
Proof.
  intros H. unfold roundTiesToEven.
  pose proof (Qfloor_le x) as Hle. pose proof (Qlt_floor x) as Hlt.
  rewrite inject_Z_plus in Hlt. change (inject_Z 1) with 1%Q in Hlt.
  assert (Qfloor x ≤ N) as Hf.
  { assert (Qfloor x < N + 1); [|lia].
    rewrite Zlt_Qlt, inject_Z_plus. change (inject_Z 1) with 1%Q. lra. }
  destruct (Qcompare_spec (x - inject_Z (Qfloor x)) (1 # 2)) as [E|E|E].
  - assert (Qfloor x < N); [|destruct (Z.even _); lia].
    rewrite Zlt_Qlt. lra.
  - lia.
  - assert (Qfloor x < N); [|lia]. rewrite Zlt_Qlt. lra.
Qed.

Lemma roundTiesToEven_le x N :
  (x <= inject_Z N)%Q → roundTiesToEven x ≤ N.
Proof. intros H. apply roundTiesToEven_below. lra. Qed.

Lemma Qabs_pos_eq q : (0 < q)%Q → Qabs q = q.
Proof.
  destruct q as [[|n|n] d]; unfold Qlt; simpl; intros H; try lia; done.
Qed.

Lemma pow2_ratio a b :
  b ≤ a → (2 ^ a == inject_Z (2 ^ (a - b)) * 2 ^ b)%Q.
Proof.
  intros H. rewrite Zpower_Qpower by lia. change (inject_Z 2) with 2%Q.
  rewrite <- Qpower_plus by discriminate. by replace (a - b + b) with a by lia.
Qed.

Lemma grid_ge u q N :
  (0 < u)%Q → (inject_Z N * u <= q)%Q →
  (inject_Z N * u <= inject_Z (roundTiesToEven (q / u)) * u)%Q.
Proof.
  intros Hu H. apply Qmult_le_compat_r; [|lra].
  rewrite <- Zle_Qle. apply roundTiesToEven_ge.
  by apply Qle_shift_div_l.
Qed.

Lemma grid_below u q N :
  (0 < u)%Q → (q < (inject_Z N + (1 # 2)) * u)%Q →
  (inject_Z (roundTiesToEven (q / u)) * u <= inject_Z N * u)%Q.
Proof.
  intros Hu H. apply Qmult_le_compat_r; [|lra].
  rewrite <- Zle_Qle. apply roundTiesToEven_below.
  by apply Qlt_shift_div_r.
Qed.

Lemma grid_le u q N :
  (0 < u)%Q → (q <= inject_Z N * u)%Q →
  (inject_Z (roundTiesToEven (q / u)) * u <= inject_Z N * u)%Q.
Proof.
  intros Hu H. apply grid_below; [done|].
  set (n := inject_Z N) in *. clearbody n.
  assert ((n + (1 # 2)) * u == n * u + (1 # 2) * u)%Q as -> by ring. lra.
Qed.

Lemma ulp_positive q :
  (0 < q)%Q → ulp q = (2 ^ Z.max (exponent q - 52) (-1074))%Q.
Proof. intros Hq. unfold ulp. by rewrite Qabs_pos_eq. Qed.

(** A positive double is a whole number of ulps. *)
Lemma isDouble_grid c :
  isDouble c → (0 < c)%Q → ∃ m : Z, 0 < m ∧ (c == inject_Z m * ulp c)%Q.
Proof.
  intros (r & Hr & Er) Hc. unfold double in Hr.
  destruct (Qeq_bool c 0) eqn:E; [apply Qeq_bool_iff in E; lra|].
  do 2 (case_match; [done|]). injection Hr as <-. rewrite Qred_correct in Er.
  exists (roundTiesToEven (c / ulp c)). split; [|by symmetry].
  pose proof (ulp_pos c) as Hu.
  rewrite Zlt_Qlt.
  set (m := inject_Z (roundTiesToEven (c / ulp c))) in *. clearbody m.
  change (inject_Z 0) with 0%Q.
  destruct (Qlt_le_dec 0 m) as [|Hm]; [done|].
  assert (0 <= (- m) * ulp c)%Q by (apply Qmult_le_0_compat; lra).
  set (u := ulp c) in *. clearbody u. lra.
Qed.

Lemma isDouble_exponent c :
  isDouble c → (0 < c)%Q → -1074 ≤ exponent c.
Proof.
  intros Hd Hc. destruct (isDouble_grid c Hd Hc) as (m & Hm & Hg).
  rewrite (ulp_positive c Hc) in Hg.
  pose proof (exponent_lt c Hc) as Hlt.
  assert (-1074 < exponent c + 1); [|lia].
  apply (Qpower_lt_compat_l_inv 2); [|reflexivity].
  eapply Qle_lt_trans; [|exact Hlt]. rewrite Hg.
  assert (2 ^ (-1074) <= 2 ^ Z.max (exponent c - 52) (-1074))%Q as Hk.
  { apply Qpower_le_compat_l; [lia|discriminate]. }
  assert (1 <= inject_Z m)%Q as Hm1.
  { change 1%Q with (inject_Z 1). rewrite <- Zle_Qle. lia. }
  set (u := (2 ^ Z.max (exponent c - 52) (-1074))%Q) in *.
  assert (0 < 2 ^ (-1074))%Q by (by apply Qpower_0_lt).
  set (t := (2 ^ (-1074))%Q) in *. clearbody t u.
  assert (0 <= (inject_Z m - 1) * u)%Q by (apply Qmult_le_0_compat; lra).
  set (mq := inject_Z m) in *. clearbody mq. lra.
Qed.

(** Rounding does not cross a double. *)
Lemma rounded_ge c q :
  isDouble c → (0 < c)%Q → (c <= q)%Q →
  (c <= inject_Z (roundTiesToEven (q / ulp q)) * ulp q)%Q.
Proof.
  intros Hd Hc Hle. assert (0 < q)%Q as Hq by lra.
  destruct (isDouble_grid c Hd Hc) as (m & Hm & Hg).
  pose proof (isDouble_exponent c Hd Hc) as Hmin.
  pose proof (exponent_mono c q Hc Hle) as Hmono.
  rewrite (ulp_positive c Hc) in Hg. rewrite (ulp_positive q Hq).
  destruct (decide (exponent c = exponent q)) as [Heq|Hne].
  - rewrite <- Heq. rewrite Hg at 1.
    apply grid_ge; [by apply Qpower_0_lt|]. by rewrite <- Hg.
  - set (E := exponent q) in *. set (k := Z.max (E - 52) (-1074)).
    assert (k ≤ E) by lia.
    pose proof (exponent_le q Hq) as HE. fold E in HE.
    pose proof (exponent_lt c Hc) as Hclt.
    assert (2 ^ (exponent c + 1) <= 2 ^ E)%Q as Hpow.
    { apply Qpower_le_compat_l; [lia|discriminate]. }
    rewrite (pow2_ratio E k) in HE, Hpow by done.
    eapply Qle_trans; [|apply grid_ge; [by apply Qpower_0_lt|exact HE]].
    lra.
Qed.

Lemma rounded_le c q :
  isDouble c → (0 < c)%Q → (0 < q)%Q → (q <= c)%Q →
  (inject_Z (roundTiesToEven (q / ulp q)) * ulp q <= c)%Q.
Proof.
  intros Hd Hc Hq Hle.
  destruct (isDouble_grid c Hd Hc) as (m & Hm & Hg).
  pose proof (exponent_mono q c Hq Hle) as Hmono.
  rewrite (ulp_positive c Hc) in Hg. rewrite (ulp_positive q Hq).
  destruct (decide (exponent c = exponent q)) as [Heq|Hne].
  - rewrite <- Heq.
    assert (0 < 2 ^ Z.max (exponent c - 52) (-1074))%Q as Hu
      by (by apply Qpower_0_lt).
    pose proof (grid_le _ q m Hu) as Hgrid.
    set (u := (2 ^ Z.max (exponent c - 52) (-1074))%Q) in *.
    set (r := (inject_Z (roundTiesToEven (q / u)) * u)%Q) in *.
    set (mu := (inject_Z m * u)%Q) in *. clearbody r mu.
    specialize (Hgrid ltac:(lra)). lra.
  - set (E := exponent q) in *. set (k := Z.max (E - 52) (-1074)).
    pose proof (exponent_lt q Hq) as HE. fold E in HE.
    pose proof (exponent_le c Hc) as Hcle.
    assert (2 ^ (E + 1) <= 2 ^ exponent c)%Q as Hpow.
    { apply Qpower_le_compat_l; [lia|discriminate]. }
    assert (0 < 2 ^ k)%Q as Hu by (by apply Qpower_0_lt).
    destruct (decide (k ≤ E + 1)) as [Hk|Hk].
    + rewrite (pow2_ratio (E + 1) k) in HE, Hpow by done.
      eapply Qle_trans; [apply (grid_le _ _ (2 ^ (E + 1 - k))); [done|lra]|].
      lra.
    + assert (k = -1074) as Hk' by lia.
      assert (2 ^ (E + 1) <= 2 ^ (-1075))%Q as Hsmall.
      { apply Qpower_le_compat_l; [lia|discriminate]. }
      assert (2 ^ (-1075) == (1 # 2) * 2 ^ k)%Q as Hhalf.
      { rewrite Hk'. reflexivity. }
      eapply Qle_trans; [apply (grid_below _ _ 0); [done|]|].
      * change (inject_Z 0) with 0%Q.
        set (u := (2 ^ k)%Q) in *. clearbody u. lra.
      * change (inject_Z 0) with 0%Q.
        set (u := (2 ^ k)%Q) in *. clearbody u. lra.
Qed.

Lemma isDouble_below_max c : isDouble c → (c < 2 ^ 1024)%Q.
Proof.
  intros (r & Hr & Er). unfold double in Hr.
  destruct (Qeq_bool c 0) eqn:E.
  { apply Qeq_bool_iff in E. rewrite E. by apply Qpower_0_lt. }
  destruct (Qle_bool (2 ^ 1024) _) eqn:E1; [done|].
  case_match; [done|]. injection Hr as <-.
  rewrite <- Er, Qred_correct. apply Qnot_le_lt. intros Hge.
  rewrite <- (Qred_correct (_ * _)) in Hge. apply Qle_bool_iff in Hge. congruence.
Qed.

Lemma double_below q B :
  (0 < q)%Q →
  (inject_Z (roundTiesToEven (q / ulp q)) * ulp q <= B)%Q → (B < 2 ^ 1024)%Q →
  ∃ r, double q = Num r ∧ (0 <= r <= B)%Q.
Proof.
  intros Hq Hr Hmax.
  destruct (double_nonneg q ltac:(lra)) as [(r & Hr' & H0)|Hinf].
  - exists r. split; [done|]. split; [done|].
    unfold double in Hr'.
    destruct (Qeq_bool q 0) eqn:E; [apply Qeq_bool_iff in E; lra|].
    do 2 (case_match; [done|]). injection Hr' as <-. by rewrite Qred_correct.
  - exfalso. unfold double in Hinf.
    destruct (Qeq_bool q 0) eqn:E; [done|].
    destruct (Qle_bool (2 ^ 1024) _) eqn:E1; [|by case_match].
    apply Qle_bool_iff in E1. rewrite Qred_correct in E1. lra.
Qed.

Lemma double_le c q :
  isDouble c → (0 < c)%Q → (0 < q)%Q → (q <= c)%Q →
  ∃ r, double q = Num r ∧ (0 <= r <= c)%Q.
Proof.
  intros Hd Hc Hq Hle. apply double_below; [done|..].
  - by apply rounded_le.
  - by apply isDouble_below_max.
Qed.

Lemma double_ge c q :
  isDouble c → (0 < c)%Q → (c <= q)%Q →
  (∃ r, double q = Num r ∧ (c <= r)%Q) ∨ double q = Infinity.
Proof.
  intros Hd Hc Hle.
  pose proof (rounded_ge c q Hd Hc Hle) as Hr.
  destruct (double_nonneg q ltac:(lra)) as [(r & Hr' & H0)|Hinf]; [|by right].
  left. exists r. split; [done|].
  unfold double in Hr'.
  destruct (Qeq_bool q 0) eqn:E; [apply Qeq_bool_iff in E; lra|].
  do 2 (case_match; [done|]). injection Hr' as <-. by rewrite Qred_correct.
Qed.

(** The quotient of a double by a larger one is at most [1 - 2 ^ -53]. *)
Lemma quotient_below_one e d :
  isDouble e → isDouble d → (0 < e)%Q → (e < d)%Q →
  (e / d <= 9007199254740991 # 9007199254740992)%Q.
Proof.
  intros He Hd He0 Hlt. assert (0 < d)%Q as Hd0 by lra.
  destruct (isDouble_grid e He He0) as (me & Hme & Ge).
  destruct (isDouble_grid d Hd Hd0) as (md & Hmd & Gd).
  pose proof (isDouble_exponent e He He0) as Hmin.
  pose proof (exponent_mono e d He0 ltac:(lra)) as Hmono.
  rewrite (ulp_positive e He0) in Ge. rewrite (ulp_positive d Hd0) in Gd.
  apply Qle_shift_div_r; [done|].
  set (Ee := exponent e) in *. set (Ed := exponent d) in *.
  set (ke := Z.max (Ee - 52) (-1074)) in *.
  assert (0 < 2 ^ ke)%Q as Hue by (by apply Qpower_0_lt).
  assert (2 ^ (Ee + 1) <= 9007199254740992 * 2 ^ ke)%Q as Hwide.
  { assert (2 ^ (Ee + 1) == 9007199254740992 * 2 ^ (Ee - 52))%Q as ->.
    { replace (Ee + 1) with (53 + (Ee - 52)) by lia.
      rewrite Qpower_plus by discriminate. reflexivity. }
    apply Qmult_le_l; [reflexivity|].
    apply Qpower_le_compat_l; [lia|discriminate]. }
  destruct (decide (Ee = Ed)) as [Heq|Hne].
  - fold ke in Gd. rewrite <- Heq in Gd. fold ke in Gd.
    assert (me < md) as Hm.
    { rewrite Zlt_Qlt. apply (Qmult_lt_r _ _ (2 ^ ke)); [done|]. lra. }
    assert (inject_Z me + 1 <= inject_Z md)%Q as Hm'.
    { change 1%Q with (inject_Z 1). rewrite <- inject_Z_plus, <- Zle_Qle. lia. }
    assert ((inject_Z me + 1) * 2 ^ ke <= inject_Z md * 2 ^ ke)%Q as Hstep
      by (apply Qmult_le_compat_r; lra).
    pose proof (exponent_lt d Hd0) as Hdlt. fold Ed in Hdlt. rewrite <- Heq in Hdlt.
    set (u := (2 ^ ke)%Q) in *. set (P := (2 ^ (Ee + 1))%Q) in *.
    assert ((inject_Z me + 1) * u == inject_Z me * u + u)%Q as Hexp by ring.
    set (a := (inject_Z me * u)%Q) in *. set (b := (inject_Z md * u)%Q) in *.
    set (a1 := ((inject_Z me + 1) * u)%Q) in *.
    clearbody u P a b a1. lra.
  - assert (ke ≤ Ee + 1) as Hk by lia.
    pose proof (exponent_lt e He0) as Helt. fold Ee in Helt.
    pose proof (exponent_le d Hd0) as Hdle. fold Ed in Hdle.
    assert (2 ^ (Ee + 1) <= 2 ^ Ed)%Q as Hpow.
    { apply Qpower_le_compat_l; [lia|discriminate]. }
    pose proof (pow2_ratio (Ee + 1) ke Hk) as HP.
    set (M := 2 ^ (Ee + 1 - ke)) in *.
    assert (me < M) as Hm.
    { rewrite Zlt_Qlt. apply (Qmult_lt_r _ _ (2 ^ ke)); [done|]. lra. }
    assert (inject_Z me + 1 <= inject_Z M)%Q as Hm'.
    { change 1%Q with (inject_Z 1). rewrite <- inject_Z_plus, <- Zle_Qle. lia. }
    assert ((inject_Z me + 1) * 2 ^ ke <= inject_Z M * 2 ^ ke)%Q as Hstep
      by (apply Qmult_le_compat_r; lra).
    set (u := (2 ^ ke)%Q) in *. set (P := (2 ^ (Ee + 1))%Q) in *.
    assert ((inject_Z me + 1) * u == inject_Z me * u + u)%Q as Hexp by ring.
    set (a := (inject_Z me * u)%Q) in *. set (b := (inject_Z M * u)%Q) in *.
    set (a1 := ((inject_Z me + 1) * u)%Q) in *.
    set (D := (2 ^ Ed)%Q) in *.
    clearbody u P a b a1 D. lra.
Qed.

Lemma isDouble_literal c : double c = Num c → isDouble c.
Proof. intros H. by exists c. Qed.

(** A hundred times a double below 1 rounds to a double below 100. *)
Lemma hundredfold_below r :
  (0 < r)%Q → (r <= 9007199254740991 # 9007199254740992)%Q →
  ∃ x, double (r * 100) = Num x ∧ (0 <= x < 100)%Q.
Proof.
  intros Hr Hle.
  assert (0 < r * 100)%Q as Hy by lra.
  destruct (Qlt_le_dec (r * 100) 64) as [Hlow|Hhigh].
  - destruct (double_le 64 (r * 100)) as (x & Hx & H0 & H1); try done.
    + apply isDouble_literal. vm_compute. reflexivity.
    + lra.
    + exists x. split; [done|]. lra.
  - assert (exponent (r * 100) = 6) as He.
    { apply exponent_unique; [done|..].
      - assert (2 ^ 6 == 64)%Q as -> by reflexivity. done.
      - assert (2 ^ (6 + 1) == 128)%Q as -> by reflexivity. lra. }
    destruct (double_below (r * 100) (7036874417766399 # 70368744177664))
      as (x & Hx & H0 & H1); [done|..].
    + rewrite (ulp_positive _ Hy), He.
      change (Z.max (6 - 52) (-1074)) with (-46).
      assert (0 < 2 ^ (-46))%Q as Hu by reflexivity.
      pose proof (grid_below _ (r * 100) 7036874417766399 Hu) as Hg.
      assert (2 ^ (-46) == 1 # 70368744177664)%Q as Eu by reflexivity.
      change (inject_Z 7036874417766399) with (7036874417766399 # 1)%Q in Hg.
      set (u := (2 ^ (-46))%Q) in *.
      set (raw := (inject_Z (roundTiesToEven (r * 100 / u)) * u)%Q) in *.
      clearbody raw u. specialize (Hg ltac:(lra)). lra.
    + vm_compute. reflexivity.
    + exists x. split; [done|]. lra.
Qed.

(** * Statistics *)

Lemma recordedWait_cases (c : Customer.t) :
  match Customer.timeServed c with
  | Some t =>
      if Qeq_bool t 0 then (recordedWait c == 0)%Q
      else (recordedWait c == t - Customer.timeArrived c)%Q
  | None => (recordedWait c == 0)%Q
  end.
Proof.
  unfold recordedWait, orElse.
  destruct (Customer.timeServed c) as [t|]; [destruct (Qeq_bool t 0)|]; ring.
Qed.

Lemma meanRecordedWait_spec (served : list Customer.t) :
  Forall (λ c, ∃ t, Customer.timeServed c = Some t ∧ ¬ (t == 0)%Q) served →
  (meanRecordedWait served == arithmeticMeanWait served)%Q.
Proof.
  intros H. unfold meanRecordedWait, arithmeticMeanWait.
  assert (sumQ (recordedWait <$> served) == sumQ (specWait <$> served))%Q as ->;
    [|reflexivity].
  induction H as [|c l (t & Ht & H0) _ IH]; [reflexivity|].
  change (recordedWait c + sumQ (recordedWait <$> l)
          == specWait c + sumQ (specWait <$> l))%Q.
  rewrite IH. apply Qplus_inj_r.
  pose proof (recordedWait_cases c) as Hc. unfold specWait. rewrite Ht in *.
  destruct (Qeq_bool t 0) eqn:E; [by apply Qeq_bool_iff in E|done].
Qed.

Lemma averageWaitTime_within (s : Sim) :
  let served := servedCustomers s in
  Forall stampsAreDoubles served → (lengthQ served <= 4294967296)%Q →
  (served = [] → averageWaitTime s = Num 0)
  ∧ (served ≠ [] → ∀ a, averageWaitTime s = Num a →
       (∃ tenths : Z, double (inject_Z tenths / 10) = Num a)
       ∧ (Qabs (a - meanRecordedWait served)
          <= (1 # 20)
             + (sumQ (Qabs <$> (recordedWait <$> served)) + 1)
               * (1 # 562949953421312))%Q).
Proof.
  intros served Hd Hn. split; [intros E; unfold averageWaitTime; fold served; by rewrite E|].
  intros Hne a. unfold averageWaitTime. fold served.
  destruct served as [|c0 l0] eqn:Es; [done|].
  rewrite <- Es in *. clear Hne.
  assert ((length served =? 0)%nat = false) as -> by (by rewrite Es).
  fold (lengthQ served).
  assert (1 <= lengthQ served)%Q as Hn1.
  { unfold lengthQ. rewrite Es. cbn [length]. change 1%Q with (inject_Z 1).
    rewrite <- Zle_Qle. lia. }
  clear Es c0 l0.
  intros Ha.
  apply jsDiv_Num in Ha as (rho & Hrho & Ha); [|discriminate].
  apply Math_round_Num in Hrho as (x & Hx & ->).
  apply jsMul_Num in Hx as (m & Hm & Hx).
  apply jsDiv_Num in Hm as (t & Ht & Hm); [|lra].
  split; [by eexists|].
  set (A := sumQ (Qabs <$> (recordedWait <$> served))).
  pose proof (sumQ_abs_nonneg (recordedWait <$> served)) as HA0. fold A in HA0.
  pose proof (sumQ_abs (recordedWait <$> served)) as HS. fold A in HS.
  unfold totalWaitTime in Ht.
  pose proof (totalWaitTime_error served Hd 0 t 0 0 A Ht ltac:(lra) ltac:(lra)
                ltac:(lra)) as Et.
  assert (Qabs 0 + A <= A)%Q as HA' by (change (Qabs 0) with 0%Q; lra).
  specialize (Et HA'). fold A in Et.
  unfold meanRecordedWait.
  set (S := sumQ (recordedWait <$> served)) in *.
  set (n := lengthQ served) in *.
  destruct eta_range as [He1 He2].
  set (g := (4 * (eps * A + eta))%Q) in *.
  assert (0 <= g)%Q as Hg by (subst g; unfold eps; lra).
  assert (- g <= t / n - S / n <= g)%Q as HD.
  { assert (t / n - S / n == (t - S) / n)%Q as -> by (field; lra).
    split.
    - apply Qle_shift_div_l; [lra|]. lra.
    - apply Qle_shift_div_r; [lra|]. lra. }
  assert (- A <= S / n <= A)%Q as HM.
  { assert (A <= A * n)%Q as HAn.
    { assert (0 <= A * (n - 1))%Q by (apply Qmult_le_0_compat; lra). lra. }
    split.
    - apply Qle_shift_div_l; [lra|]. lra.
    - apply Qle_shift_div_r; [lra|]. lra. }
  set (M := (S / n)%Q) in *. set (tn := (t / n)%Q) in *.
  clearbody M tn. clear Et HS Ht.
  pose proof (double_within _ _ (A + g) Hm ltac:(lra)) as Em.
  pose proof (double_within _ _ (10 * (A + g + (eps * (A + g) + eta))) Hx
                ltac:(lra)) as Ex.
  pose proof (Math_round_within x) as Er.
  set (rho := inject_Z (Qfloor (x + (1 # 2)))) in *. clearbody rho.
  change (rho / 10)%Q with (rho * (1 # 10))%Q in Ha.
  pose proof (double_within _ _
    ((1 # 10) * ((1 # 2) + 10 * (A + g + (eps * (A + g) + eta))
                 + (eps * (10 * (A + g + (eps * (A + g) + eta))) + eta)))
    Ha ltac:(lra)) as Ea.
  apply Qabs_Qle_condition.
  subst g. unfold eps in *. clearbody A.
  split; lra.
Qed.

Lemma averageWaitTime_finite (s : Sim) :
  let served := servedCustomers s in
  Forall stampsAreDoubles served → (lengthQ served <= 4294967296)%Q →
  (sumQ (Qabs <$> (recordedWait <$> served)) <= 2 ^ 1000)%Q →
  ∃ a, averageWaitTime s = Num a.
Proof.
  intros served Hd Hn Hmax. unfold averageWaitTime. fold served.
  destruct served as [|c0 l0] eqn:Es; [by eexists|].
  rewrite <- Es in *.
  assert ((length served =? 0)%nat = false) as -> by (by rewrite Es).
  fold (lengthQ served).
  assert (1 <= lengthQ served)%Q as Hn1.
  { unfold lengthQ. rewrite Es. cbn [length]. change 1%Q with (inject_Z 1).
    rewrite <- Zle_Qle. lia. }
  clear Es c0 l0.
  set (A := sumQ (Qabs <$> (recordedWait <$> served))) in *.
  pose proof (sumQ_abs_nonneg (recordedWait <$> served)) as HA0. fold A in HA0.
  pose proof (sumQ_abs (recordedWait <$> served)) as HS. fold A in HS.
  destruct eta_range as [He1 He2].
  assert (Qabs 0 + A <= A)%Q as HA' by (change (Qabs 0) with 0%Q; lra).
  destruct (totalWaitTime_total served Hd 0 0 0 A ltac:(lra) ltac:(lra)
              ltac:(lra) HA' Hmax) as [t Ht].
  pose proof (totalWaitTime_error served Hd 0 t 0 0 A Ht ltac:(lra) ltac:(lra)
                ltac:(lra) HA') as Et.
  unfold totalWaitTime. rewrite Ht. cbn [jsDiv].
  set (S := sumQ (recordedWait <$> served)) in *.
  set (n := lengthQ served) in *.
  destruct (Qeq_bool n 0) eqn:E0; [apply Qeq_bool_iff in E0; lra|].
  set (g := (4 * (eps * A + eta))%Q) in *.
  assert (0 <= g)%Q as Hg by (subst g; unfold eps; lra).
  assert (g <= A + 1)%Q as Hg' by (subst g; unfold eps in *; lra).
  assert (- g <= t / n - S / n <= g)%Q as HD.
  { assert (t / n - S / n == (t - S) / n)%Q as -> by (field; lra).
    split.
    - apply Qle_shift_div_l; [lra|]. lra.
    - apply Qle_shift_div_r; [lra|]. lra. }
  assert (- A <= S / n <= A)%Q as HM.
  { assert (A <= A * n)%Q as HAn.
    { assert (0 <= A * (n - 1))%Q by (apply Qmult_le_0_compat; lra). lra. }
    split.
    - apply Qle_shift_div_l; [lra|]. lra.
    - apply Qle_shift_div_r; [lra|]. lra. }
  assert (1 <= 2 ^ 1000)%Q as Hone by (apply Qpower_1_le; [discriminate|lia]).
  assert (2 ^ 1023 == 8388608 * 2 ^ 1000)%Q as Hwide.
  { replace 1023 with (23 + 1000) by lia.
    rewrite Qpower_plus by discriminate. reflexivity. }
  assert (40 * A + 40 <= 2 ^ 1023)%Q as Hroom.
  { set (T := (2 ^ 1000)%Q) in *. set (T' := (2 ^ 1023)%Q) in *.
    clearbody T T'. lra. }
  clear Hwide Hone Hmax.
  set (M := (S / n)%Q) in *. set (tn := (t / n)%Q) in *.
  set (T' := (2 ^ 1023)%Q) in *.
  clearbody M tn. clear Et HS Ht.
  destruct (double_finite tn (A + g)) as [m Hm];
    [lra|fold T'; clearbody T'; lra|]. rewrite Hm.
  pose proof (double_within _ _ (A + g) Hm ltac:(lra)) as Em.
  cbn [jsMul].
  destruct (double_finite (m * 10) (10 * (A + g + (eps * (A + g) + eta))))
    as [x Hx]; [unfold eps in *; lra|fold T'; clearbody T'; unfold eps in *; lra|].
  rewrite Hx.
  pose proof (double_within _ _ (10 * (A + g + (eps * (A + g) + eta))) Hx
                ltac:(lra)) as Ex.
  cbn [Math_round jsDiv].
  assert (Qeq_bool 10 0 = false) as -> by reflexivity.
  pose proof (Math_round_within x) as Er.
  set (rho := inject_Z (Qfloor (x + (1 # 2)))) in *. clearbody rho.
  change (rho / 10)%Q with (rho * (1 # 10))%Q.
  apply (double_finite _ (4 * A + 4));
    [unfold eps in *; split; lra|fold T'; clearbody T'; lra].
Qed.

(** C9 (as the code has it).  The time stamps are doubles and the
    served list has at most 2 ^ 32 entries.  With no served customer the
    average wait is 0.  The statistic is a finite number whenever the
    waits add up to at most 2 ^ 1000 seconds in absolute value.  When
    it is finite it is the mean rounded to one decimal place in double
    arithmetic: the double nearest to a whole number of tenths, within
    0.05, plus the rounding error of the doubles, of the exact mean of
    the waits the code counts.  The wait it counts is
    serviceStartTime - arrivalTime when the start time is recorded and
    not 0, and 0 otherwise; when every start time is recorded and not
    0, that mean is the one of the specification. *)
Theorem averageWaitTime_rounded_mean (s : Sim) :
  let served := servedCustomers s in
  Forall stampsAreDoubles served → (lengthQ served <= 4294967296)%Q →
  (served = [] → averageWaitTime s = Num 0)
  ∧ ((sumQ (Qabs <$> (recordedWait <$> served)) <= 2 ^ 1000)%Q →
     ∃ a, averageWaitTime s = Num a)
  ∧ (served ≠ [] → ∀ a, averageWaitTime s = Num a →
       (∃ tenths : Z, double (inject_Z tenths / 10) = Num a)
       ∧ (Qabs (a - meanRecordedWait served)
          <= (1 # 20)
             + (sumQ (Qabs <$> (recordedWait <$> served)) + 1)
               * (1 # 562949953421312))%Q)
  ∧ (∀ c : Customer.t,
       match Customer.timeServed c with
       | Some t =>
           if Qeq_bool t 0 then (recordedWait c == 0)%Q
           else (recordedWait c == t - Customer.timeArrived c)%Q
       | None => (recordedWait c == 0)%Q
       end)
  ∧ (Forall (λ c, ∃ t, Customer.timeServed c = Some t ∧ ¬ (t == 0)%Q) served →
     (meanRecordedWait served == arithmeticMeanWait served)%Q).
Proof.
  intros served Hd Hn.
  destruct (averageWaitTime_within s Hd Hn) as [Hempty Hmean].
  repeat apply conj;
    [exact Hempty|exact (averageWaitTime_finite s Hd Hn)|exact Hmean
    |exact recordedWait_cases|].
  apply meanRecordedWait_spec.
Qed.

Lemma averageWaitTime_rounded_mean_witness :
  let served := servedCustomers threeServed in
  Forall stampsAreDoubles served
  ∧ ∃ a, averageWaitTime threeServed = Num a
         ∧ (Qabs (a - meanRecordedWait served)
            <= (1 # 20)
               + (sumQ (Qabs <$> (recordedWait <$> served)) + 1)
                 * (1 # 562949953421312))%Q.
Proof.
  intros served.
  assert (Forall stampsAreDoubles served) as Hd.
  { subst served. vm_compute servedCustomers. repeat constructor.
    all: try (intros t [= <-]).
    all: eexists; (split; [vm_compute; reflexivity|reflexivity]). }
  assert (lengthQ served <= 4294967296)%Q as Hn by (vm_compute; discriminate).
  split; [exact Hd|].
  destruct (averageWaitTime_rounded_mean threeServed Hd Hn)
    as (_ & Hfinite & Hmean & _).
  assert (served ≠ []) as Hne by (vm_compute; discriminate).
  destruct Hfinite as [a Ha]; [apply Qle_bool_iff; vm_compute; reflexivity|].
  exists a. split; [exact Ha|]. exact (proj2 (Hmean Hne a Ha)).
Defined.

(** C9 fails as stated.  The waits are 0, 0 and 10 seconds, their mean
    is 10/3, and the statistic is the double written 3.3.  In the
    snapshot [startedAtZero] the third customer waited 12 seconds, from
    -12 to 0: the mean is 4 and the statistic is 0, because a start
    time of 0 reads as missing. *)
Lemma averageWaitTime_not_the_mean :
  (arithmeticMeanWait (servedCustomers threeServed) == 10 # 3)%Q
  ∧ (∃ a, averageWaitTime threeServed = Num a
          ∧ double (33 # 10) = Num a
          ∧ ¬ (Qabs (a - arithmeticMeanWait (servedCustomers threeServed))
               <= 1 # 100)%Q)
  ∧ (arithmeticMeanWait (servedCustomers startedAtZero) == 4)%Q
  ∧ averageWaitTime startedAtZero = Num 0.
Proof.
  repeat apply conj; try (vm_compute; reflexivity).
  eexists. repeat apply conj; try (vm_compute; reflexivity).
  intros H. vm_compute in H. by apply H.
Qed.

(** The figures are those of the doubles.  One customer arrived at 6
    and was seated at 10.45: the wait is the double just below 4.45,
    ten times it is the double just below 44.5, and the statistic is
    4.4, where the exact mean 4.45 would round up to 4.5. *)
Lemma averageWaitTime_rounds_the_double :
  let s := mkSim 1 3 10%Q 3%Q false false 0%Q 2 [] [] []
             [ Customer.mk 1 "A" SERVED 6%Q (Some (1045 # 100)%Q)
                 (Some (2045 # 100)%Q) (Some 1) None (Some (2045 # 100)%Q) ]
             [] in
  (meanRecordedWait (servedCustomers s) == 445 # 100)%Q
  ∧ averageWaitTime s = double (44 # 10)
  ∧ averageWaitTime s ≠ double (45 # 10).
Proof.
  intros s. split; [reflexivity|]. split; [vm_compute; reflexivity|].
  vm_compute. discriminate.
Qed.

(** * Barber count *)

Lemma delete_app_l {A} (l suf : list A) i :
  (i < length l)%nat → delete i (l ++ suf) = delete i l ++ suf.
Proof.
  revert i. induction l as [|x l IH]; intros [|i] Hi; simpl in *; try lia; [done|].
  f_equal. apply IH. lia.
Qed.

Lemma delete_last {A} (l : list A) x : delete (length l) (l ++ [x]) = l.
Proof. induction l as [|y l IH]; simpl; [done|]. by f_equal. Qed.

(** The loop never looks past the index it starts from. *)
Lemma removeFromEnd_app n limit r l suf :
  (n ≤ length l)%nat →
  removeFromEnd n limit r (l ++ suf) = removeFromEnd n limit r l ++ suf.
Proof.
  revert r l. induction n as [|i IH]; intros r l Hn; simpl; [done|].
  destruct (r <? limit); [|done].
  rewrite lookup_app_l by lia.
  destruct (lookup_lt_is_Some_2 l i) as [b Hb]; [lia|]. rewrite Hb.
  destruct (decide (isSleeping b)).
  - rewrite delete_app_l by lia. apply IH. rewrite length_delete by eauto. lia.
  - apply IH. lia.
Qed.

(** The loop keeps a prefix of the barbers untouched and removes every
    sleeping barber after it; it removes as many as asked for, or every
    sleeping barber when there are fewer. *)
Lemma removeFromEnd_spec limit l r :
  ∃ kept tail, l = kept ++ tail
    ∧ removeFromEnd (length l) limit r l = kept ++ filter (λ b, ¬ isSleeping b) tail
    ∧ Z.of_nat (length (filter isSleeping tail))
      = Z.min (Z.max 0 (limit - r)) (Z.of_nat (length (filter isSleeping l))).
Proof.
  revert r. induction l as [|b l IH] using rev_ind; intros r.
  { exists [], []. repeat split; simpl. destruct (Z.max_spec 0 (limit - r)); lia. }
  rewrite length_app, Nat.add_1_r. simpl.
  destruct (Z.ltb_spec r limit) as [Hlt|Hge].
  - rewrite lookup_app_r, Nat.sub_diag by lia. simpl.
    destruct (decide (isSleeping b)) as [Hs|Hs].
    + rewrite delete_last.
      destruct (IH (r + 1)) as (kept & tail & -> & -> & Hcount).
      exists kept, (tail ++ [b]). rewrite !filter_app, !length_app.
      rewrite (filter_cons_False _ b []) by (by intros []).
      rewrite (filter_cons_True _ b []) by done.
      rewrite app_nil_r, app_assoc. repeat split. simpl.
      rewrite !filter_app, !length_app in *. lia.
    + rewrite removeFromEnd_app by lia.
      destruct (IH r) as (kept & tail & -> & -> & Hcount).
      exists kept, (tail ++ [b]). rewrite !filter_app, !length_app.
      rewrite (filter_cons_True (λ b, ¬ isSleeping b) b []) by done.
      rewrite (filter_cons_False isSleeping b []) by done.
      rewrite <- !app_assoc. repeat split. simpl.
      rewrite !filter_app, !length_app in *. lia.
  - exists (l ++ [b]), []. rewrite !app_nil_r. repeat split. simpl. lia.
Qed.


Lemma renumber_sequentialIds bs : sequentialIds (renumber bs).
Proof.
  intros i b. unfold renumber. rewrite list_lookup_imap.
  destruct (bs !! i); simpl; [|done]. by intros [= <-].
Qed.



(** * Completions in a time step *)


Section loop.
Context (s : Sim) (newTime : Q).

Lemma freeAll_length due bs : length (freeAll s newTime bs due) = length bs.
Proof.
  revert bs. induction due as [|c due IH]; intros bs; simpl; [done|].
  unfold freeAll in *. simpl. by rewrite IH, length_alter.
Qed.


End loop.




Lemma NoDup_fmap_eq {A B} (f : A → B) (l : list A) x y :
  NoDup (f <$> l) → x ∈ l → y ∈ l → f x = f y → x = y.
Proof.
  induction l as [|a l IH]; intros Hnd Hx Hy Hf; [by apply elem_of_nil in Hx|].
  rewrite fmap_cons in Hnd. apply NoDup_cons in Hnd as [Ha Hnd].
  apply elem_of_cons in Hx as [->|Hx]; apply elem_of_cons in Hy as [->|Hy].
  - done.
  - destruct Ha. rewrite Hf. by apply list_elem_of_fmap_2.
  - destruct Ha. rewrite <- Hf. by apply list_elem_of_fmap_2.
  - by apply IH.
Qed.



Lemma freed_counts s newTime b :
  Barber.totalCustomersServed (freed s newTime b) = Barber.totalCustomersServed b + 1
  ∧ Barber.id (freed s newTime b) = Barber.id b.
Proof. unfold freed. by destruct (waitingCustomers s). Qed.








(** * Barber ids in reachable states *)

Lemma commit_keepsNumbering s q :
  Forall keepsNumbering q → sequentialIds (barbers s) →
  sequentialIds (barbers (commit s q)).
Proof.
  intros H. revert s. induction H as [|u q Hu _ IH]; intros s Hs; [done|].
  change (commit s (u :: q)) with (commit (applyUpdate s u) q). apply IH.
  destruct s, u as [| | | | | |[bs|f]| | | |]; simpl in *; done.
Qed.

Lemma sequentialIds_alter (f : Barber.t → Barber.t) bs i :
  (∀ b, Barber.id (f b) = Barber.id b) →
  sequentialIds bs → sequentialIds (alter f i bs).
Proof.
  intros Hf Hbs j b. destruct (decide (i = j)) as [->|Hne].
  - rewrite list_lookup_alter_eq. destruct (bs !! j) as [b0|] eqn:E; [|done].
    simpl. intros [= <-]. rewrite Hf. by apply Hbs.
  - rewrite list_lookup_alter_ne by done. apply Hbs.
Qed.

Lemma sequentialIds_insert bs i b b' :
  bs !! i = Some b → Barber.id b' = Barber.id b →
  sequentialIds bs → sequentialIds (<[i := b']> bs).
Proof.
  intros Hb Hid Hbs.
  rewrite <- (alter_as_insert (λ _, b') bs i b Hb).
  intros j x. destruct (decide (i = j)) as [->|Hne].
  - rewrite list_lookup_alter_eq, Hb. simpl. intros [= <-].
    rewrite Hid. by apply Hbs.
  - rewrite list_lookup_alter_ne by done. apply Hbs.
Qed.

Lemma sequentialIds_fresh n :
  sequentialIds ((λ index, newBarber (Z.of_nat index + 1)) <$> seq 0 n).
Proof.
  intros i b. rewrite list_lookup_fmap.
  destruct (seq 0 n !! i) as [k|] eqn:E; [|done].
  apply lookup_seq in E as [-> _]. simpl. by intros [= <-].
Qed.

Lemma addCustomerWithName_keepsNumbering s name :
  sequentialIds (barbers s) → Forall keepsNumbering (addCustomerWithName s name).
Proof.
  intros Hs. unfold addCustomerWithName.
  repeat case_match; repeat constructor.
  all: by apply sequentialIds_alter.
Qed.

Lemma forEach_keepsNumbering s newTime cs L :
  sequentialIds (updatedBarbers L) →
  sequentialIds (updatedBarbers (forEach (finishHaircut s newTime) cs L).1).
Proof.
  intros HL.
  apply (forEach_invariant (λ L, sequentialIds (updatedBarbers L))); [done|].
  intros a x a' Ha _ Hf.
  apply finishHaircut_Some in Hf as [[_ ->]|(_ & i & b & _ & Hb & ->)]; [done|].
  simpl. eapply sequentialIds_insert; [done | | done].
  apply freed_counts.
Qed.

Lemma processTimeStep_keepsNumbering s timeStep u r :
  sequentialIds (barbers s) →
  Forall keepsNumbering (queue (processTimeStep s timeStep u r)).
Proof.
  intros Hs. unfold processTimeStep.
  destruct (negb (isRunning s) || isPaused s); [constructor|].
  pose proof (forEach_queued_setsWaiting s (currentTime s + timeStep)%Q
    (currentCustomers s) (mkLocals (barbers s) [] (currentCustomers s) [] [])
    (Forall_nil_2 _)) as Hq.
  pose proof (forEach_keepsNumbering s (currentTime s + timeStep)%Q
    (currentCustomers s) (mkLocals (barbers s) [] (currentCustomers s) [] [])
    Hs) as Hb.
  destruct (forEach _ _ _) as [L [|]]; cbn [raised queue fst] in *.
  - constructor; [done|]. eapply Forall_impl; [exact Hq|]. by intros [].
  - constructor; [done|]. repeat apply Forall_app_2.
    + eapply Forall_impl; [exact Hq|]. by intros [].
    + by repeat constructor.
    + case_match; repeat constructor.
    + case_match; [by apply addCustomerWithName_keepsNumbering | constructor].
Qed.

Lemma assignCustomers_keepsNumbering s :
  sequentialIds (barbers s) → Forall keepsNumbering (assignCustomersToBarbers s).
Proof.
  intros Hs. unfold assignCustomersToBarbers.
  destruct (waitingCustomers s) as [|nextCustomer rest]; [constructor|].
  case_match; [constructor|].
  apply Forall_app_2; [apply Forall_fmap, Forall_forall; by intros|].
  repeat constructor. simpl.
  generalize (sleepingBarberIndices (barbers s)) as indices.
  revert Hs. generalize (barbers s) as bs.
  intros bs Hbs indices. revert bs Hbs.
  induction indices as [|i indices IH]; intros bs Hbs; [done|].
  simpl. apply IH. by apply sequentialIds_alter.
Qed.

Lemma exec_keepsNumbering s c :
  sequentialIds (barbers s) → sequentialIds (barbers (exec s c)).
Proof.
  intros Hs. destruct c as [name|timeStep u r|n|n| |]; simpl.
  - by apply commit_keepsNumbering; [apply addCustomerWithName_keepsNumbering|].
  - by apply commit_keepsNumbering; [apply processTimeStep_keepsNumbering|].
  - unfold updateBarberCount.
    destruct (numBarbers s <? clamp 1 5 n).
    + destruct s as [nb nc st ar run pau ct nid bs wq cur srv ta]; simpl in *.
      intros i b Hi. apply lookup_app_Some in Hi as [Hi|[Hlen Hi]]; [by apply Hs|].
      rewrite list_lookup_fmap in Hi.
      destruct (seq 0 _ !! (i - length bs)%nat) as [k|] eqn:E; [|done].
      apply lookup_seq in E as [-> _]. simpl in Hi. injection Hi as <-.
      simpl. lia.
    + destruct (clamp 1 5 n <? numBarbers s).
      * apply commit_keepsNumbering; [|done].
        repeat constructor. apply renumber_sequentialIds.
      * by apply commit_keepsNumbering; [repeat constructor|].
  - apply commit_keepsNumbering; [|done].
    unfold updateChairCount. case_match; repeat constructor.
  - apply commit_keepsNumbering; [|done].
    unfold togglePauseSimulation. case_match; repeat constructor.
  - apply commit_keepsNumbering; [|done].
    unfold startHaircuts. apply Forall_app_2.
    + case_match; repeat constructor. apply sequentialIds_fresh.
    + case_match; [constructor|]. apply Forall_app_2.
      * repeat case_match; repeat constructor.
      * by apply assignCustomers_keepsNumbering.
Qed.

(** In every reachable state the barber at position i has id i + 1, so
    the first sleeping barber is the sleeping barber of lowest id and
    the last barbers are those of highest id. *)
Lemma reachable_sequentialIds s : reachable s → sequentialIds (barbers s).
Proof.
  intros [cs <-].
  assert (sequentialIds (barbers initial)) as Hinit.
  { intros [|i] b Hb; vm_compute in Hb; by simplify_eq. }
  revert Hinit. generalize initial as s.
  induction cs as [|c cs IH]; intros s Hs; [done|].
  apply IH. by apply exec_keepsNumbering.
Qed.

(** * The length of the queue in reachable states *)

Lemma waiting_commit s q :
  waitingCustomers (commit s q) = waitingAfter q (waitingCustomers s).
Proof.
  revert s. induction q as [|u q IH]; intros s; [done|].
  change (commit s (u :: q)) with (commit (applyUpdate s u) q).
  rewrite IH. by destruct s, u.
Qed.

Lemma chairs_commit s q : numChairs (commit s q) = chairsAfter q (numChairs s).
Proof.
  revert s. induction q as [|u q IH]; intros s; [done|].
  change (commit s (u :: q)) with (commit (applyUpdate s u) q).
  rewrite IH. by destruct s, u.
Qed.

Lemma waitingAfter_app q1 q2 w :
  waitingAfter (q1 ++ q2) w = waitingAfter q2 (waitingAfter q1 w).
Proof. apply foldl_app. Qed.

Lemma chairsAfter_app q1 q2 n :
  chairsAfter (q1 ++ q2) n = chairsAfter q2 (chairsAfter q1 n).
Proof. apply foldl_app. Qed.

Lemma chairsAfter_keepsChairs q n : Forall keepsChairs q → chairsAfter q n = n.
Proof.
  intros H. revert n. induction H as [|u q Hu _ IH]; intros n; [done|].
  change (chairsAfter (u :: q) n)
    with (chairsAfter q (match u with setNumChairs a => resolve a n | _ => n end)).
  rewrite IH. by destruct u.
Qed.

Lemma addCustomerWithName_keepsChairs s name :
  Forall keepsChairs (addCustomerWithName s name).
Proof. unfold addCustomerWithName. repeat case_match; repeat constructor. Qed.

(** The admission appends to the queue it finds, and only when the
    rendered queue has a free chair. *)
Lemma addCustomerWithName_waitingAfter s name w :
  waitingAfter (addCustomerWithName s name) w = w
  ∨ (Z.of_nat (length (waitingCustomers s)) < numChairs s
     ∧ ∃ c, waitingAfter (addCustomerWithName s name) w = w ++ [c]).
Proof.
  unfold addCustomerWithName.
  destruct (findIndex isSleeping (barbers s)).
  - left. by destruct (isRunning s).
  - destruct (Z.ltb_spec (Z.of_nat (length (waitingCustomers s))) (numChairs s)).
    + right. split; [done|]. eexists. by destruct (isRunning s).
    + by left.
Qed.

Lemma forEach_queued_dequeues s newTime cs L :
  Forall (λ u, u = setWaitingCustomers
                     (Value (imap atPosition (drop 1 (waitingCustomers s)))))
         (queued L) →
  Forall (λ u, u = setWaitingCustomers
                     (Value (imap atPosition (drop 1 (waitingCustomers s)))))
         (queued (forEach (finishHaircut s newTime) cs L).1).
Proof.
  intros HL.
  apply (forEach_invariant (λ L, Forall _ (queued L))); [done|].
  intros a x a' Ha _ Hf.
  apply finishHaircut_Some in Hf as [[_ ->]|(_ & i & b & _ & _ & ->)]; [done|].
  simpl. apply Forall_app. split; [done|].
  unfold dequeued. destruct (waitingCustomers s); repeat constructor.
Qed.

Lemma waitingAfter_dequeues q w t :
  Forall (λ u, u = setWaitingCustomers (Value t)) q →
  waitingAfter q w = w ∨ waitingAfter q w = t.
Proof.
  intros H. revert w. induction H as [|u q -> _ IH]; intros w; [by left|].
  simpl. destruct (IH t) as [E|E]; right; exact E.
Qed.

Lemma processTimeStep_withinChairs s timeStep u r :
  withinChairs s → withinChairs (commit s (queue (processTimeStep s timeStep u r))).
Proof.
  unfold withinChairs. intros Hs. rewrite waiting_commit, chairs_commit.
  unfold processTimeStep.
  destruct (negb (isRunning s) || isPaused s); [done|].
  set (t := imap atPosition (drop 1 (waitingCustomers s))).
  assert (length t ≤ length (waitingCustomers s))%nat as Ht.
  { subst t. rewrite length_imap, length_drop. lia. }
  pose proof (forEach_queued_dequeues s (currentTime s + timeStep)%Q
    (currentCustomers s) (mkLocals (barbers s) [] (currentCustomers s) [] [])
    (Forall_nil_2 _)) as Hq.
  pose proof (forEach_queued_setsWaiting s (currentTime s + timeStep)%Q
    (currentCustomers s) (mkLocals (barbers s) [] (currentCustomers s) [] [])
    (Forall_nil_2 _)) as Hq'.
  destruct (forEach _ _ _) as [L [|]]; cbn [raised queue fst] in *.
  - change (waitingAfter (?x :: ?q) ?w) with (waitingAfter q w).
    change (chairsAfter (?x :: ?q) ?n) with (chairsAfter q n).
    rewrite chairsAfter_keepsChairs
      by (eapply Forall_impl; [exact Hq'|]; by intros []).
    destruct (waitingAfter_dequeues (queued L) (waitingCustomers s) t Hq) as [->| ->];
      lia.
  - change (waitingAfter (?x :: ?q) ?w) with (waitingAfter q w).
    change (chairsAfter (?x :: ?q) ?n) with (chairsAfter q n).
    rewrite !waitingAfter_app, !chairsAfter_app.
    rewrite (chairsAfter_keepsChairs (queued L))
      by (eapply Forall_impl; [exact Hq'|]; by intros []).
    set (w := waitingAfter (queued L) (waitingCustomers s)).
    assert (length w ≤ length (waitingCustomers s))%nat as Hw.
    { subst w.
      destruct (waitingAfter_dequeues (queued L) (waitingCustomers s) t Hq)
        as [->| ->]; lia. }
    clearbody w.
    change (waitingAfter [setBarbers ?a; setCurrentCustomers ?b] w) with w.
    change (chairsAfter [setBarbers ?a; setCurrentCustomers ?b] ?n) with n.
    assert (∀ (q : list Update), q = [] ∨ (∃ f, q = [setServedCustomers f]) →
              waitingAfter q w = w ∧ chairsAfter q (numChairs s) = numChairs s)
      as Hserved by (intros q [->|[f ->]]; done).
    match goal with
    | |- context [waitingAfter (if ?c then ?a else ?b) w] =>
        destruct (Hserved (if c then a else b)) as [-> ->];
          [destruct c; eauto|]
    end.
    destruct (arrives s timeStep u && isRunning s && negb (isPaused s)); [|simpl; lia].
    unfold addRandomCustomer.
    rewrite chairsAfter_keepsChairs by apply addCustomerWithName_keepsChairs.
    match goal with
    | |- context [addCustomerWithName s ?name] =>
        destruct (addCustomerWithName_waitingAfter s name w) as [->|(Hroom & c & ->)]
    end.
    + lia.
    + rewrite length_app. simpl. lia.
Qed.

Lemma initializeSimulation_waitingAfter s w :
  waitingAfter (initializeSimulation s) w = [].
Proof. reflexivity. Qed.

Lemma exec_withinChairs s c : withinChairs s → withinChairs (exec s c).
Proof.
  intros Hs. destruct c as [name|timeStep u r|n|n| |]; simpl.
  - unfold withinChairs in *. rewrite waiting_commit, chairs_commit.
    rewrite chairsAfter_keepsChairs by apply addCustomerWithName_keepsChairs.
    destruct (addCustomerWithName_waitingAfter s name (waitingCustomers s))
      as [->|(Hroom & c & ->)]; [done|].
    rewrite length_app. simpl. lia.
  - by apply processTimeStep_withinChairs.
  - unfold withinChairs in *. rewrite waiting_commit, chairs_commit.
    unfold updateBarberCount. repeat case_match; done.
  - unfold withinChairs in *. rewrite waiting_commit, chairs_commit.
    unfold updateChairCount.
    assert (1 ≤ clamp 1 10 n) by (unfold clamp; repeat case_match; lia).
    destruct (Z.ltb_spec (clamp 1 10 n) (numChairs s));
      destruct (Z.ltb_spec (clamp 1 10 n) (Z.of_nat (length (waitingCustomers s))));
      simpl; rewrite ?length_take; lia.
  - unfold withinChairs in *. rewrite waiting_commit, chairs_commit.
    unfold togglePauseSimulation. repeat case_match; done.
  - unfold withinChairs in *. rewrite waiting_commit, chairs_commit.
    unfold startHaircuts. rewrite waitingAfter_app, chairsAfter_app.
    assert (1 ≤ numChairs s ∨ waitingCustomers s = []) as Hchairs.
    { destruct (waitingCustomers s); [by right|]. simpl in Hs. left. lia. }
    assert (chairsAfter (if (length (barbers s) =? 0)%nat
                         then initializeSimulation s else []) (numChairs s)
            = numChairs s) as -> by (by case_match).
    set (w := waitingAfter _ (waitingCustomers s)).
    assert (length w ≤ length (waitingCustomers s))%nat as Hw.
    { subst w. destruct (length (barbers s) =? 0)%nat; [|done].
      rewrite initializeSimulation_waitingAfter. simpl. lia. }
    clearbody w.
    case_match; [simpl; lia|].
    rewrite waitingAfter_app, chairsAfter_app.
    match goal with
    | |- context [waitingAfter (if ?c then ?a else ?b) w] =>
        assert (waitingAfter (if c then a else b) w = w) as ->
          by (by repeat case_match);
        assert (∀ n, chairsAfter (if c then a else b) n = n) as ->
          by (by intros; repeat case_match)
    end.
    unfold assignCustomersToBarbers.
    destruct (waitingCustomers s) as [|nextCustomer rest] eqn:E; [simpl in *; lia|].
    case_match; [simpl in *; lia|].
    rewrite waitingAfter_app, chairsAfter_app. simpl.
    match goal with
    | |- context [chairsAfter (?f <$> ?l) ?n] =>
        assert (chairsAfter (f <$> l) n = n) as ->
    end.
    { apply chairsAfter_keepsChairs, Forall_fmap, Forall_forall. by intros. }
    rewrite length_imap.
    etrans; [|exact Hs]. apply inj_le. apply length_filter.
Qed.

(** In every reachable state the queue is no longer than the chair
    count. *)
Lemma reachable_withinChairs s : reachable s → withinChairs s.
Proof.
  intros [cs <-].
  assert (withinChairs initial) as Hinit by (vm_compute; discriminate).
  revert Hinit. generalize initial as s.
  induction cs as [|c cs IH]; intros s Hs; [done|].
  apply IH. by apply exec_withinChairs.
Qed.

(** * Renumbering and customers in service *)

(** The renumbering of [updateBarberCount] leaves [servedBy] of the
    customers in service as it was.  Here barber 2 works on B while
    barbers 1 and 3 sleep; after the decrease to one barber, B's barber
    is barber 1 and B still records barber 2.  The step that completes
    B looks for a barber at position 1, finds none, and raises. *)
Lemma renumbering_strands_customer_in_service :
  let s := run initial
    [SetBarberCount 3; AddCustomer "A"; Advance 5 1 0; AddCustomer "B";
     Advance 5 1 0; SetBarberCount 1] in
  Barber.id <$> barbers s = [1]
  ∧ Barber.servingCustomerId <$> barbers s = [Some 2]
  ∧ Customer.id <$> currentCustomers s = [2]
  ∧ Customer.servedBy <$> currentCustomers s = [Some 2]
  ∧ raised (processTimeStep s 5 1 0) = true
  ∧ currentCustomers (exec s (Advance 5 1 0)) = currentCustomers s.
Proof. intros s. repeat apply conj; vm_compute; reflexivity. Qed.

(** With a barber added again the stale [servedBy] names a barber that
    exists, but not B's.  Barber 2 took B, barber 1 was removed while
    asleep and barber 2 renumbered to 1; the barber added afterwards is
    the new barber 2 and took C.  B still records barber 2.  The step
    that completes B credits the barber at position 1, who is cutting
    C's hair, and puts that barber to sleep; B's own barber keeps
    working on B, and C stays in service with no barber. *)
Lemma stale_servedBy_frees_another_barber :
  let s := run initial
    [SetBarberCount 2; AddCustomer "A"; Advance 5 1 0; AddCustomer "B";
     Advance 5 1 0; SetBarberCount 1; SetBarberCount 2; AddCustomer "C"] in
  let s' := exec s (Advance 5 1 0) in
  Barber.servingCustomerId <$> barbers s = [Some 2; Some 3]
  ∧ Customer.id <$> currentCustomers s = [2; 3]
  ∧ Customer.servedBy <$> currentCustomers s = [Some 2; Some 2]
  ∧ Customer.id <$> filter (Due (currentTime s + 5)%Q) (currentCustomers s) = [2]
  ∧ (∀ c, c ∈ filter (Due (currentTime s + 5)%Q) (currentCustomers s) →
       pointsAtBarber (barbers s) c ∧ ¬ inItsBarbersChair (barbers s) c)
  ∧ raised (processTimeStep s 5 1 0) = false
  ∧ Customer.id <$> servedCustomers s' = [1; 2]
  ∧ Customer.id <$> currentCustomers s' = [3]
  ∧ Barber.state <$> barbers s' = [WORKING; SLEEPING]
  ∧ Barber.servingCustomerId <$> barbers s' = [Some 2; None]
  ∧ Barber.totalCustomersServed <$> barbers s' = [0; 1].
Proof.
  intros s s'. repeat apply conj; try (vm_compute; reflexivity).
  intros c Hc.
  assert (filter (Due (currentTime s + 5)%Q) (currentCustomers s)
          = [Customer.mk 2 "B" GETTING_HAIRCUT 5%Q (Some 5%Q) None (Some 2) None
               (Some (5 + 10)%Q)]) as Hdue by (vm_compute; reflexivity).
  rewrite Hdue in Hc. apply list_elem_of_singleton in Hc as ->. split.
  - exists 1%nat. eexists. split; vm_compute; reflexivity.
  - intros (i & b & Hi & Hb & Hserving & _). cbn [Customer.servedBy] in Hi.
    assert (i = 1%nat) as -> by (injection Hi; lia).
    assert (barbers s !! 1%nat
            = Some (Barber.mk 2 WORKING (Some 3) 0 (Some (5 + 5)%Q)
                      (Some (5 + 5 + 10)%Q))) as Hb1 by (vm_compute; reflexivity).
    rewrite Hb1 in Hb. injection Hb as <-. discriminate Hserving.
Qed.


(** * Every event of the interface *)

Lemma reachableUI_invariant (P : Sim → Prop) :
  P initial → (∀ s e, P s → P (handle s e)) → ∀ s, reachableUI s → P s.
Proof.
  intros Hinit Hstep s [es <-].
  revert Hinit. generalize initial as s0.
  induction es as [|e es IH]; intros s0 Hs0; [done|].
  apply IH. by apply Hstep.
Qed.

Lemma reachable_reachableUI s : reachable s → reachableUI s.
Proof.
  intros [cs <-]. exists (Cmd <$> cs).
  generalize initial as s0. induction cs as [|c cs IH]; intros s0; [done|].
  apply IH.
Qed.

Lemma Forall_elem {A} (P : A → Prop) (l : list A) x : Forall P l → x ∈ l → P x.
Proof. rewrite Forall_forall. auto. Qed.

Lemma Forall_filtered {A} (P Q : A → Prop) `{!∀ x, Decision (Q x)} (l : list A) :
  Forall P l → Forall P (filter Q l).
Proof.
  intros Hl. apply Forall_forall. intros x [_ Hx]%list_elem_of_filter.
  exact (Forall_elem _ _ _ Hl Hx).
Qed.

Lemma markServed_finished newTime c :
  Due newTime c → ∃ endT, markServed c = finished c endT.
Proof.
  unfold Due, isDue, markServed.
  destruct (Customer.serviceEndTime c) as [endT|]; [by eexists|done].
Qed.

Section collections.
Variables Pw Pc Ps Pt : Customer.t → Prop.
Hypothesis Hseated : ∀ h servedBy now endT, Pw h → Pc (seated h servedBy now endT).
Hypothesis Hfinished : ∀ c endT, Pc c → Ps (finished c endT).
Hypothesis Haway : ∀ now c, Pw c → Pt (turnedAway now c).
Hypothesis Hpos : ∀ i c, Pw c → Pw (atPosition i c).

Local Abbreviation keeps := (keepsCollections Pw Pc Ps Pt).
Local Abbreviation holds := (holdsIn Pw Pc Ps Pt).

Lemma commit_keepsCollections s q : Forall keeps q → holds s → holds (commit s q).
Proof.
  intros H. revert s. induction H as [|u q Hu _ IH]; intros s Hs; [done|].
  change (commit s (u :: q)) with (commit (applyUpdate s u) q). apply IH.
  destruct Hs as (Hw & Hc & Hsv & Ht).
  destruct s, u; cbn [applyUpdate keepsCollections] in *;
    repeat split; try done; by apply Hu.
Qed.

Lemma Forall_reindexed w : Forall Pw w → Forall Pw (imap atPosition w).
Proof.
  intros H. apply Forall_lookup. intros i c. rewrite list_lookup_imap.
  destruct (w !! i) as [c0|] eqn:E; [|done]. simpl. intros [= <-].
  apply Hpos. by eapply Forall_lookup_1.
Qed.

Lemma addCustomerWithName_keepsCollections s name :
  admissible Pw Pc Pt s name → Forall keeps (addCustomerWithName s name).
Proof.
  intros (Hc & Hw & Ht). unfold addCustomerWithName.
  repeat case_match; repeat constructor; simpl; intros prev Hprev;
    apply Forall_app; split; try done;
    apply Forall_singleton; first [apply Hc | exact Hw | exact Ht].
Qed.

Lemma forEach_keepsCollections s newTime L :
  holds s →
  Forall Ps (finishedCustomers L) → Forall Pc (updatedCurrentCustomers L) →
  Forall keeps (queued L) →
  let L' := (forEach (finishHaircut s newTime) (currentCustomers s) L).1 in
  Forall Ps (finishedCustomers L') ∧ Forall Pc (updatedCurrentCustomers L')
  ∧ Forall keeps (queued L').
Proof.
  intros (Hw & Hc & _) H1 H2 H3.
  apply (forEach_invariant (λ L, Forall Ps (finishedCustomers L)
    ∧ Forall Pc (updatedCurrentCustomers L) ∧ Forall keeps (queued L))); [done|].
  intros a x a' (Ha1 & Ha2 & Ha3) Hx Hf.
  apply finishHaircut_Some in Hf as [[_ ->]|(Hdue & i & b & _ & _ & ->)]; [done|].
  simpl. repeat split; apply Forall_app; split; try done.
  - destruct (markServed_finished newTime x Hdue) as [endT ->].
    repeat constructor. apply Hfinished. exact (Forall_elem _ _ _ Hc Hx).
  - unfold calledFor. destruct (waitingCustomers s) as [|h rest]; [done|].
    destruct (Customer.servedBy x); repeat constructor.
    apply (Hseated h). by inversion Hw.
  - unfold dequeued. destruct (waitingCustomers s) as [|h rest] eqn:E; [done|].
    repeat constructor. simpl. intros _ _.
    apply Forall_reindexed. by inversion Hw.
Qed.

Lemma processTimeStep_keepsCollections s timeStep u r :
  holds s →
  (admitsArrival s timeStep u r = true → ∀ name, admissible Pw Pc Pt s name) →
  Forall keeps (queue (processTimeStep s timeStep u r)).
Proof.
  intros Hs Hnew. unfold admitsArrival, processTimeStep in *.
  destruct (isRunning s), (isPaused s); cbn [negb orb andb] in *;
    try constructor.
  pose proof (forEach_keepsCollections s (currentTime s + timeStep)%Q
    (mkLocals (barbers s) [] (currentCustomers s) [] []) Hs
    (Forall_nil_2 _) (proj1 (proj2 Hs)) (Forall_nil_2 _)) as (Hf & Hc & Hq).
  destruct (forEach _ _ _) as [L [|]]; cbn [raised queue fst] in *.
  - by constructor.
  - constructor; [done|]. repeat apply Forall_app_2; [done| | |].
    + repeat constructor. simpl. intros _ _.
      apply Forall_forall. intros c [_ Hin]%list_elem_of_filter.
      exact (Forall_elem _ _ _ Hc Hin).
    + case_match; repeat constructor. simpl. intros prev Hprev.
      by apply Forall_app.
    + rewrite !andb_true_r. destruct (arrives s timeStep u); [|constructor].
      by apply addCustomerWithName_keepsCollections, Hnew.
Qed.

Lemma updateChairCount_keepsCollections s n :
  holds s → Forall keeps (updateChairCount s n).
Proof.
  intros (Hw & _). unfold updateChairCount.
  case_match; repeat constructor; simpl.
  - intros _ _. by apply Forall_take.
  - intros prev Hprev. apply Forall_app. split; [done|].
    apply Forall_fmap, Forall_forall. intros c Hc. apply Haway.
    apply (Forall_drop _ (Z.to_nat (clamp 1 10 n))) in Hw.
    exact (Forall_elem _ _ _ Hw Hc).
Qed.

Lemma updateBarberCount_keepsCollections s n : Forall keeps (updateBarberCount s n).
Proof. unfold updateBarberCount. repeat case_match; repeat constructor. Qed.

Lemma togglePause_keepsCollections s : Forall keeps (togglePauseSimulation s).
Proof. unfold togglePauseSimulation. case_match; repeat constructor. Qed.

Lemma initializeSimulation_keepsCollections s : Forall keeps (initializeSimulation s).
Proof. repeat constructor; simpl; by intros. Qed.

Lemma assignCustomers_keepsCollections s :
  holds s → Forall keeps (assignCustomersToBarbers s).
Proof.
  intros (Hw & _). unfold assignCustomersToBarbers.
  destruct (waitingCustomers s) as [|h rest] eqn:E; [constructor|].
  case_match; [constructor|].
  apply Forall_app_2.
  - apply Forall_fmap, Forall_forall. intros i _. simpl. intros prev Hprev.
    apply Forall_app. split; [done|]. repeat constructor.
    apply (Hseated h). by inversion Hw.
  - repeat constructor. simpl. intros _ _.
    apply Forall_reindexed. by apply Forall_filtered.
Qed.

Lemma startHaircuts_keepsCollections s :
  holds s → Forall keeps (startHaircuts s).
Proof.
  intros Hs. unfold startHaircuts. apply Forall_app_2.
  - case_match; [apply initializeSimulation_keepsCollections | constructor].
  - case_match; [constructor|]. apply Forall_app_2.
    + repeat case_match; repeat constructor.
    + by apply assignCustomers_keepsCollections.
Qed.

Lemma handleServiceComplete_keepsCollections s barberId :
  holds s → Forall keeps (handleServiceComplete s barberId).
Proof.
  intros (Hw & Hc & _). unfold handleServiceComplete.
  destruct (list_find _ (barbers s)) as [[i b]|]; [|constructor].
  destruct (Barber.servingCustomerId b) as [cid|]; [|constructor].
  destruct (cid =? 0); [constructor|].
  destruct (list_find _ (currentCustomers s)) as [[j c]|] eqn:E; [|constructor].
  apply list_find_Some in E as (Hj & _).
  assert (Pc c) as Hcc by (by eapply Forall_lookup_1).
  destruct (waitingCustomers s) as [|h rest] eqn:Ew; repeat constructor; simpl.
  all: try (intros prev Hprev; apply Forall_app; split; [done|];
            repeat constructor; by auto).
  all: try (intros _ _; by apply Forall_filtered).
  - intros prev Hprev. apply Forall_app. split; [done|]. repeat constructor.
    apply Hseated. by inversion Hw.
  - intros _ _. apply Forall_reindexed. by inversion Hw.
Qed.

Lemma resetSimulation_keepsCollections s : Forall keeps (resetSimulation s).
Proof.
  unfold resetSimulation. apply Forall_app_2; [repeat constructor|].
  apply initializeSimulation_keepsCollections.
Qed.

(** Every event but a customer's arrival keeps the predicates; an
    arrival does when the new record is admissible. *)
Lemma handle_keepsCollections s e :
  holds s →
  (∀ name, e = Cmd (AddCustomer name) → admissible Pw Pc Pt s name) →
  (∀ timeStep u r, e = Cmd (Advance timeStep u r) →
     admitsArrival s timeStep u r = true →
     ∀ name, admissible Pw Pc Pt s name) →
  holds (handle s e).
Proof.
  intros Hs Hadd Hstep.
  destruct e as [[name|timeStep u r|n|n| |]|barberId| |seconds]; cbn [handle exec];
    [apply commit_keepsCollections; try done ..|exact Hs].
  - apply addCustomerWithName_keepsCollections. by apply Hadd.
  - apply processTimeStep_keepsCollections; [done|].
    exact (Hstep timeStep u r eq_refl).
  - apply updateBarberCount_keepsCollections.
  - by apply updateChairCount_keepsCollections.
  - apply togglePause_keepsCollections.
  - by apply startHaircuts_keepsCollections.
  - by apply handleServiceComplete_keepsCollections.
  - apply resetSimulation_keepsCollections.
Qed.
End collections.

(** ** Records carry the state of their collection *)

Lemma handle_labelled s e : labelled s → labelled (handle s e).
Proof.
  intros Hs. unfold labelled in *.
  apply handle_keepsCollections; try done;
    intros; repeat split; by eexists.
Qed.

(** In every state the interface can reach, each record in
    [waitingCustomers] is [WAITING], each in [currentCustomers] is
    [GETTING_HAIRCUT], each in [servedCustomers] is [SERVED] and each in
    [turnedAwayCustomers] is [TURNED_AWAY], the last two with a
    departure time. *)
Theorem reachableUI_labelled s : reachableUI s → labelled s.
Proof.
  apply reachableUI_invariant.
  - repeat split; constructor.
  - apply handle_labelled.
Qed.

(** ** Customer ids *)

Lemma nextId_commit s q :
  nextCustomerId (commit s q) = nextIdAfter q (nextCustomerId s).
Proof.
  revert s. induction q as [|u q IH]; intros s; [done|].
  change (commit s (u :: q)) with (commit (applyUpdate s u) q).
  rewrite IH. by destruct s, u.
Qed.

Lemma nextIdAfter_app q1 q2 n :
  nextIdAfter (q1 ++ q2) n = nextIdAfter q2 (nextIdAfter q1 n).
Proof. apply foldl_app. Qed.

Lemma nextIdAfter_keepsNextId q n : Forall keepsNextId q → nextIdAfter q n = n.
Proof.
  intros H. revert n. induction H as [|u q Hu _ IH]; intros n; [done|].
  change (nextIdAfter (u :: q) n)
    with (nextIdAfter q (match u with setNextCustomerId a => resolve a n | _ => n end)).
  rewrite IH. by destruct u.
Qed.

Lemma addCustomerWithName_nextIdAfter s name n :
  nextIdAfter (addCustomerWithName s name) n = nextCustomerId s + 1.
Proof. unfold addCustomerWithName. by repeat case_match. Qed.

(** The case analysis of a time step: stopped or paused, raised, or run
    to the end; [Hq] says that the loop has queued queue updates only. *)
Ltac step_cases s timeStep L Hq :=
  unfold admitsArrival, processTimeStep in *;
  destruct (isRunning s) eqn:?, (isPaused s) eqn:?; cbn [negb orb andb] in *;
  [ |
   pose proof (forEach_queued_setsWaiting s (currentTime s + timeStep)%Q
     (currentCustomers s) (mkLocals (barbers s) [] (currentCustomers s) [] [])
     (Forall_nil_2 _)) as Hq;
   destruct (forEach (finishHaircut s (currentTime s + timeStep)%Q)
               (currentCustomers s)
               (mkLocals (barbers s) [] (currentCustomers s) [] []))
     as [L [|]] eqn:?; cbn [raised queue fst negb andb] in * | | ].

Lemma processTimeStep_nextId s timeStep u r :
  nextCustomerId (commit s (queue (processTimeStep s timeStep u r)))
  = if admitsArrival s timeStep u r then nextCustomerId s + 1
    else nextCustomerId s.
Proof.
  rewrite nextId_commit.
  step_cases s timeStep L Hq; try done.
  - change (nextIdAfter (?x :: ?q) ?n) with (nextIdAfter q n).
    apply nextIdAfter_keepsNextId. eapply Forall_impl; [exact Hq|]. by intros [].
  - change (nextIdAfter (?x :: ?q) ?n) with (nextIdAfter q n).
    rewrite !nextIdAfter_app.
    rewrite (nextIdAfter_keepsNextId (queued L))
      by (eapply Forall_impl; [exact Hq|]; by intros []).
    change (nextIdAfter [setBarbers ?a; setCurrentCustomers ?b] ?n) with n.
    rewrite (nextIdAfter_keepsNextId (if bool_decide _ then _ else _))
      by (case_match; repeat constructor).
    rewrite !andb_true_r. destruct (arrives s timeStep u); [|done].
    apply addCustomerWithName_nextIdAfter.
Qed.

Lemma holdsIn_impl (P Q : Customer.t → Prop) s :
  (∀ c, P c → Q c) → holdsIn P P P P s → holdsIn Q Q Q Q s.
Proof.
  intros HPQ (H1 & H2 & H3 & H4).
  repeat split; eapply Forall_impl; eauto.
Qed.

Lemma handle_idBelow n s e :
  holdsIn (idBelow n) (idBelow n) (idBelow n) (idBelow n) s →
  (∀ name, e = Cmd (AddCustomer name) → 1 ≤ nextCustomerId s < n) →
  (∀ timeStep u r, e = Cmd (Advance timeStep u r) →
     admitsArrival s timeStep u r = true → 1 ≤ nextCustomerId s < n) →
  holdsIn (idBelow n) (idBelow n) (idBelow n) (idBelow n) (handle s e).
Proof.
  intros Hs Hadd Hstep. apply handle_keepsCollections; try done.
  - intros name E. specialize (Hadd name E).
    unfold admissible, idBelow. repeat split; intros; cbn [Customer.id]; lia.
  - intros timeStep u r E Ha name. specialize (Hstep timeStep u r E Ha).
    unfold admissible, idBelow. repeat split; intros; cbn [Customer.id]; lia.
Qed.

Lemma handle_nextId s e :
  nextCustomerId (handle s e) =
  match e with
  | Cmd (AddCustomer _) => nextCustomerId s + 1
  | Cmd (Advance timeStep u r) =>
      if admitsArrival s timeStep u r then nextCustomerId s + 1
      else nextCustomerId s
  | Cmd StartHaircuts =>
      if (length (barbers s) =? 0)%nat then 1 else nextCustomerId s
  | Reset => 1
  | _ => nextCustomerId s
  end.
Proof.
  destruct e as [[name|timeStep u r|n|n| |]|barberId| |seconds]; cbn [handle exec].
  - rewrite nextId_commit. apply addCustomerWithName_nextIdAfter.
  - apply processTimeStep_nextId.
  - rewrite nextId_commit. apply nextIdAfter_keepsNextId.
    unfold updateBarberCount. repeat case_match; repeat constructor.
  - rewrite nextId_commit. apply nextIdAfter_keepsNextId.
    unfold updateChairCount. repeat case_match; repeat constructor.
  - rewrite nextId_commit. apply nextIdAfter_keepsNextId.
    unfold togglePauseSimulation. repeat case_match; repeat constructor.
  - rewrite nextId_commit. unfold startHaircuts. rewrite nextIdAfter_app.
    rewrite (nextIdAfter_keepsNextId (if _ && _ then _ else _)).
    + by case_match.
    + case_match; [constructor|]. apply Forall_app_2.
      * repeat case_match; repeat constructor.
      * unfold assignCustomersToBarbers.
        repeat case_match; try constructor.
        apply Forall_app_2; [|repeat constructor].
        apply Forall_fmap, Forall_forall. by intros.
  - rewrite nextId_commit. apply nextIdAfter_keepsNextId.
    unfold handleServiceComplete. repeat case_match; repeat constructor.
  - by rewrite nextId_commit.
  - done.
Qed.

Lemma handle_idsBelowNext s e :
  barbers s ≠ [] → idsBelowNext s → idsBelowNext (handle s e).
Proof.
  intros Hbs [Hn Hs]. unfold idsBelowNext.
  assert (∀ m, nextCustomerId s ≤ m →
            holdsIn (idBelow m) (idBelow m) (idBelow m) (idBelow m) s) as Hweak.
  { intros m Hm. eapply holdsIn_impl; [|exact Hs]. unfold idBelow. lia. }
  assert ((length (barbers s) =? 0)%nat = false) as Hlen
    by (destruct (barbers s); done).
  rewrite handle_nextId.
  destruct e as [[name|timeStep u r|n|n| |]|barberId| |seconds]; rewrite ?Hlen.
  - split; [lia|]. apply handle_idBelow; [apply Hweak; lia| |]; intros; lia.
  - destruct (admitsArrival s timeStep u r) eqn:Ha.
    + split; [lia|]. apply handle_idBelow; [apply Hweak; lia| |]; intros; lia.
    + split; [lia|]. apply handle_idBelow; [done|done|].
      intros ??? [= <- <- <-]. by rewrite Ha.
  - split; [lia|]. by apply handle_idBelow.
  - split; [lia|]. by apply handle_idBelow.
  - split; [lia|]. by apply handle_idBelow.
  - split; [lia|]. by apply handle_idBelow.
  - split; [lia|]. by apply handle_idBelow.
  - split; [done|]. cbn [handle]. unfold resetSimulation.
    destruct s; repeat split; constructor.
  - split; [lia|]. by apply handle_idBelow.
Qed.

(** ** The barber pool and the configured counts *)

Lemma clamp_range lo hi n : lo ≤ hi → lo ≤ clamp lo hi n ≤ hi.
Proof. intros H. unfold clamp. repeat case_match; lia. Qed.

Lemma commit_keepsPool s q :
  Forall (keepsPool (length (barbers s))) q →
  length (barbers (commit s q)) = length (barbers s)
  ∧ numBarbers (commit s q) = numBarbers s
  ∧ numChairs (commit s q) = numChairs s.
Proof.
  revert s. induction q as [|u q IH]; intros s Hq; [done|].
  apply Forall_cons in Hq as [Hu Hq].
  change (commit s (u :: q)) with (commit (applyUpdate s u) q).
  assert (length (barbers (applyUpdate s u)) = length (barbers s)
          ∧ numBarbers (applyUpdate s u) = numBarbers s
          ∧ numChairs (applyUpdate s u) = numChairs s) as (E1 & E2 & E3).
  { destruct s, u as [| | | | | |[bs|f]| | | |]; simpl in *; done. }
  rewrite <- E1 in Hq. destruct (IH _ Hq) as (-> & -> & ->). done.
Qed.

Lemma forEach_length s newTime cs L :
  length (updatedBarbers (forEach (finishHaircut s newTime) cs L).1)
  = length (updatedBarbers L).
Proof.
  apply (forEach_invariant
    (λ L', length (updatedBarbers L') = length (updatedBarbers L))); [done|].
  intros a x a' Ha _ Hf.
  apply finishHaircut_Some in Hf as [[_ ->]|(_ & i & b & _ & _ & ->)]; [done|].
  simpl. by rewrite length_insert.
Qed.

Lemma addCustomerWithName_keepsPool s name :
  Forall (keepsPool (length (barbers s))) (addCustomerWithName s name).
Proof.
  unfold addCustomerWithName.
  repeat case_match; repeat constructor; simpl; by rewrite length_alter.
Qed.

Lemma processTimeStep_keepsPool s timeStep u r :
  Forall (keepsPool (length (barbers s))) (queue (processTimeStep s timeStep u r)).
Proof.
  pose proof (forEach_length s (currentTime s + timeStep)%Q (currentCustomers s)
    (mkLocals (barbers s) [] (currentCustomers s) [] [])) as Hlen.
  step_cases s timeStep L Hq; try constructor; try done.
  - eapply Forall_impl; [exact Hq|]. by intros [].
  - repeat apply Forall_app_2.
    + eapply Forall_impl; [exact Hq|]. by intros [].
    + by repeat constructor.
    + case_match; repeat constructor.
    + case_match; [apply addCustomerWithName_keepsPool | constructor].
Qed.

Lemma assignCustomers_keepsPool s :
  Forall (keepsPool (length (barbers s))) (assignCustomersToBarbers s).
Proof.
  unfold assignCustomersToBarbers.
  destruct (waitingCustomers s) as [|h rest]; [constructor|].
  case_match; [constructor|].
  apply Forall_app_2; [apply Forall_fmap, Forall_forall; by intros|].
  repeat constructor. simpl.
  generalize (sleepingBarberIndices (barbers s)) as indices.
  generalize (barbers s) as bs. intros bs indices. revert bs.
  induction indices as [|i indices IH]; intros bs; [done|].
  simpl. by rewrite IH, length_alter.
Qed.

Lemma handleServiceComplete_keepsPool s barberId :
  Forall (keepsPool (length (barbers s))) (handleServiceComplete s barberId).
Proof.
  unfold handleServiceComplete.
  repeat case_match; repeat constructor; simpl; by rewrite !length_insert.
Qed.

Lemma handle_poolOk s e : poolOk s → poolOk (handle s e).
Proof.
  intros (Hnb & Hnc & Hlen). unfold poolOk.
  assert (barbers s ≠ []) as Hne by (destruct (barbers s); simpl in *; [lia|done]).
  assert (∀ q, Forall (keepsPool (length (barbers s))) q → poolOk (commit s q))
    as Hkeeps.
  { intros q Hq. destruct (commit_keepsPool s q Hq) as (E1 & E2 & E3).
    unfold poolOk. by rewrite E1, E2, E3. }
  destruct e as [[name|timeStep u r|n|n| |]|barberId| |seconds]; cbn [handle exec].
  - apply Hkeeps, addCustomerWithName_keepsPool.
  - apply Hkeeps, processTimeStep_keepsPool.
  - pose proof (clamp_range 1 5 n ltac:(lia)) as Hc.
    unfold updateBarberCount.
    destruct (Z.ltb_spec (numBarbers s) (clamp 1 5 n)) as [Hup|Hup].
    + destruct s as [nb nc st ar run pau ct nid bs wq cur srv ta]; simpl in *.
      repeat split; try lia. rewrite length_app, length_fmap, length_seq. lia.
    + destruct (Z.ltb_spec (clamp 1 5 n) (numBarbers s)) as [Hdown|Hdown].
      * destruct (removeFromEnd_spec (numBarbers s - clamp 1 5 n) (barbers s) 0)
          as (kept & tail & Hsplit & Hloop & Hcount).
        rewrite Hloop.
        pose proof (filter_app_complement isSleeping tail) as Hperm.
        apply Permutation_length in Hperm. rewrite length_app in Hperm.
        rewrite Hsplit, length_app in Hlen.
        destruct s as [nb nc st ar run pau ct nid bs wq cur srv ta]; simpl in *.
        repeat split; try lia.
        unfold renumber. rewrite length_imap, length_app. lia.
      * destruct s as [nb nc st ar run pau ct nid bs wq cur srv ta]; simpl in *.
        repeat split; lia.
  - pose proof (clamp_range 1 10 n ltac:(lia)) as Hc.
    unfold updateChairCount.
    destruct s as [nb nc st ar run pau ct nid bs wq cur srv ta]; simpl in *.
    case_match; simpl; repeat split; lia.
  - apply Hkeeps. unfold togglePauseSimulation. case_match; repeat constructor.
  - apply Hkeeps. unfold startHaircuts.
    assert ((length (barbers s) =? 0)%nat = false) as ->
      by (destruct (barbers s); done).
    change ([] ++ ?q) with q.
    case_match; [constructor|]. apply Forall_app_2.
    + repeat case_match; repeat constructor.
    + apply assignCustomers_keepsPool.
  - apply Hkeeps, handleServiceComplete_keepsPool.
  - unfold resetSimulation.
    destruct s as [nb nc st ar run pau ct nid bs wq cur srv ta]; simpl in *.
    repeat split; try lia. rewrite length_fmap, length_seq. lia.
  - cbn [numBarbers numChairs barbers]. lia.
Qed.

Lemma reachableUI_poolOk_aux s : reachableUI s → poolOk s.
Proof.
  apply reachableUI_invariant; [|apply handle_poolOk].
  vm_compute. repeat split; discriminate.
Qed.

Lemma reachableUI_barbers_nonempty s : reachableUI s → barbers s ≠ [].
Proof.
  intros H. apply reachableUI_poolOk_aux in H as (Hnb & _ & Hlen).
  destruct (barbers s); simpl in *; [lia|done].
Qed.

(** In every state the interface can reach, the barber count is in
    1..5, the chair count in 1..10, and the pool holds at least as many
    barbers as configured: it is never empty. *)
Theorem reachableUI_poolOk s :
  reachableUI s → poolOk s ∧ barbers s ≠ [].
Proof.
  intros H. split; [by apply reachableUI_poolOk_aux|].
  by apply reachableUI_barbers_nonempty.
Qed.

Lemma reachableUI_idsBelowNext_aux s : reachableUI s → idsBelowNext s.
Proof.
  intros H.
  cut (poolOk s ∧ idsBelowNext s); [tauto|].
  revert s H. apply reachableUI_invariant.
  - split; [vm_compute; repeat split; discriminate|].
    split; [done|]. repeat split; constructor.
  - intros s e [Hp Hi]. split; [by apply handle_poolOk|].
    apply handle_idsBelowNext; [|done].
    destruct Hp as (Hnb & _ & Hlen).
    destruct (barbers s); simpl in *; [lia|done].
Qed.

(** In every state the interface can reach, every customer id in the
    four collections is at least 1 and below [nextCustomerId]: the id
    the next customer gets is carried by no record. *)
Theorem reachableUI_idsBelowNext s : reachableUI s → idsBelowNext s.
Proof. apply reachableUI_idsBelowNext_aux. Qed.

(** ** Numbering and queue length under every event *)

Lemma handle_keepsNumbering s e :
  sequentialIds (barbers s) → sequentialIds (barbers (handle s e)).
Proof.
  intros Hs. destruct e as [c|barberId| |seconds]; cbn [handle].
  - by apply exec_keepsNumbering.
  - apply commit_keepsNumbering; [|done]. unfold handleServiceComplete.
    destruct (list_find _ (barbers s)) as [[i b]|] eqn:E; [|constructor].
    apply list_find_Some in E as (Hb & _).
    assert (i < length (barbers s))%nat as Hi by (by eapply lookup_lt_Some).
    repeat case_match; repeat constructor; simpl.
    all: eapply sequentialIds_insert;
      [by apply list_lookup_insert_eq | done |].
    all: by eapply sequentialIds_insert.
  - apply commit_keepsNumbering; [|done]. unfold resetSimulation.
    repeat constructor. apply sequentialIds_fresh.
  - exact Hs.
Qed.

Lemma handle_withinChairs s e : withinChairs s → withinChairs (handle s e).
Proof.
  intros Hs. destruct e as [c|barberId| |seconds]; cbn [handle].
  - by apply exec_withinChairs.
  - unfold withinChairs in *. rewrite waiting_commit, chairs_commit.
    unfold handleServiceComplete.
    destruct (waitingCustomers s) as [|h rest] eqn:E; simpl in Hs;
      repeat case_match; simpl; try done.
    rewrite length_imap, length_drop. simpl. lia.
  - unfold withinChairs in *. rewrite waiting_commit, chairs_commit.
    unfold resetSimulation.
    rewrite waitingAfter_app, initializeSimulation_waitingAfter.
    rewrite chairsAfter_keepsChairs by repeat constructor.
    change (Z.of_nat (length (@nil Customer.t))) with 0. lia.
  - exact Hs.
Qed.

(** In every state the interface can reach, the barber at position i
    has id i + 1. *)
Theorem reachableUI_sequentialIds s : reachableUI s → sequentialIds (barbers s).
Proof.
  apply (reachableUI_invariant (λ s, sequentialIds (barbers s))).
  - intros [|i] b Hb; vm_compute in Hb; by simplify_eq.
  - apply handle_keepsNumbering.
Qed.

(** In every state the interface can reach, the waiting queue is no
    longer than the chair count. *)
Theorem reachableUI_withinChairs s : reachableUI s → withinChairs s.
Proof.
  apply reachableUI_invariant; [|apply handle_withinChairs].
  vm_compute. discriminate.
Qed.

(** ** The histories only grow *)

Lemma commit_growsHistory s q :
  Forall growsHistory q →
  servedCustomers s `prefix_of` servedCustomers (commit s q)
  ∧ turnedAwayCustomers s `prefix_of` turnedAwayCustomers (commit s q).
Proof.
  intros H. revert s. induction H as [|u q Hu _ IH]; intros s; [done|].
  change (commit s (u :: q)) with (commit (applyUpdate s u) q).
  destruct (IH (applyUpdate s u)) as [H1 H2].
  split; (etrans; [|eassumption]); destruct s, u; simpl in *; try done.
Qed.

Lemma appends_growsHistory (l : list Customer.t) :
  growsHistory (setServedCustomers (Updater (λ prev, prev ++ l)))
  ∧ growsHistory (setTurnedAwayCustomers (Updater (λ prev, prev ++ l))).
Proof. split; intros prev; by apply prefix_app_r. Qed.

Lemma addCustomerWithName_growsHistory s name :
  Forall growsHistory (addCustomerWithName s name).
Proof.
  unfold addCustomerWithName.
  repeat case_match; repeat constructor. apply appends_growsHistory.
Qed.

Lemma processTimeStep_growsHistory s timeStep u r :
  Forall growsHistory (queue (processTimeStep s timeStep u r)).
Proof.
  step_cases s timeStep L Hq; try constructor; try done.
  - eapply Forall_impl; [exact Hq|]. by intros [].
  - repeat apply Forall_app_2.
    + eapply Forall_impl; [exact Hq|]. by intros [].
    + by repeat constructor.
    + case_match; repeat constructor. apply appends_growsHistory.
    + case_match; [apply addCustomerWithName_growsHistory | constructor].
Qed.

Lemma handle_growsHistory s e :
  barbers s ≠ [] → e ≠ Reset →
  servedCustomers s `prefix_of` servedCustomers (handle s e)
  ∧ turnedAwayCustomers s `prefix_of` turnedAwayCustomers (handle s e).
Proof.
  intros Hne Hreset.
  destruct e as [[name|timeStep u r|n|n| |]|barberId| |seconds]; [..|done|done];
    cbn [handle exec]; apply commit_growsHistory.
  - apply addCustomerWithName_growsHistory.
  - apply processTimeStep_growsHistory.
  - unfold updateBarberCount. repeat case_match; repeat constructor.
  - unfold updateChairCount. case_match; repeat constructor.
    apply appends_growsHistory.
  - unfold togglePauseSimulation. case_match; repeat constructor.
  - unfold startHaircuts.
    assert ((length (barbers s) =? 0)%nat = false) as ->
      by (destruct (barbers s); done).
    change ([] ++ ?q) with q.
    case_match; [constructor|]. apply Forall_app_2.
    + repeat case_match; repeat constructor.
    + unfold assignCustomersToBarbers. repeat case_match; try constructor.
      apply Forall_app_2; [|repeat constructor].
      apply Forall_fmap, Forall_forall. by intros.
  - unfold handleServiceComplete. repeat case_match; repeat constructor.
    all: apply appends_growsHistory.
Qed.

(** From a state the interface can reach, every event but the reset
    leaves the records of [servedCustomers] and [turnedAwayCustomers] in
    place and unchanged: the new lists extend the old ones. *)
Theorem histories_only_grow s e :
  reachableUI s → e ≠ Reset →
  servedCustomers s `prefix_of` servedCustomers (handle s e)
  ∧ turnedAwayCustomers s `prefix_of` turnedAwayCustomers (handle s e).
Proof.
  intros Hs. apply handle_growsHistory. by apply reachableUI_barbers_nonempty.
Qed.

Lemma histories_only_grow_witness :
  let s := run initial [AddCustomer "A"; Advance 10 1 0] in
  reachableUI s
  ∧ servedCustomers s `prefix_of` servedCustomers (handle s (Cmd (AddCustomer "B"))).
Proof.
  intros s.
  assert (reachableUI s) as Hs.
  { exists [Cmd (AddCustomer "A"); Cmd (Advance 10 1 0)]. reflexivity. }
  split; [exact Hs|].
  refine (proj1 (histories_only_grow s (Cmd (AddCustomer "B")) Hs _)).
  discriminate.
Defined.

(** ** The clock *)

Lemma handle_clock s e :
  barbers s ≠ [] →
  currentTime (handle s e) =
  match e with
  | Cmd (Advance timeStep _ _) =>
      if isRunning s && negb (isPaused s) then (currentTime s + timeStep)%Q
      else currentTime s
  | Reset => 0%Q
  | _ => currentTime s
  end.
Proof.
  intros Hne.
  destruct e as [[name|timeStep u r|n|n| |]|barberId| |seconds]; cbn [handle exec].
  - apply commit_keepsClock, addCustomerWithName_keepsClock.
  - destruct (isRunning s) eqn:Hrun, (isPaused s) eqn:Hpau; cbn [negb andb].
    2: by apply processTimeStep_clock.
    all: unfold processTimeStep; rewrite Hrun, Hpau; done.
  - apply commit_keepsClock. unfold updateBarberCount.
    repeat case_match; repeat constructor.
  - apply commit_keepsClock. unfold updateChairCount.
    repeat case_match; repeat constructor.
  - apply commit_keepsClock. unfold togglePauseSimulation.
    repeat case_match; repeat constructor.
  - apply commit_keepsClock. unfold startHaircuts.
    assert ((length (barbers s) =? 0)%nat = false) as ->
      by (destruct (barbers s); done).
    change ([] ++ ?q) with q.
    case_match; [constructor|]. apply Forall_app_2.
    + repeat case_match; repeat constructor.
    + unfold assignCustomersToBarbers. repeat case_match; try constructor.
      apply Forall_app_2; [|repeat constructor].
      apply Forall_fmap, Forall_forall. by intros.
  - apply commit_keepsClock. unfold handleServiceComplete.
    repeat case_match; repeat constructor.
  - by destruct s.
  - done.
Qed.

(** From a state the interface can reach, the clock is written by two
    handlers only.  A time step leaves it alone unless the simulation
    is running and not paused, and then a step that is not negative
    does not move it back; the reset puts it to 0; adding a customer,
    changing a count or the service time, pausing, starting and
    completing a service leave it as it is. *)
Theorem clock_moves_only_by_steps s e :
  reachableUI s →
  match e with
  | Cmd (Advance timeStep _ _) =>
      (isRunning s && negb (isPaused s) = false →
       currentTime (handle s e) = currentTime s)
      ∧ (isRunning s = true → isPaused s = false → (0 <= timeStep)%Q →
         (currentTime s <= currentTime (handle s e))%Q)
  | Reset => currentTime (handle s e) = 0%Q
  | _ => currentTime (handle s e) = currentTime s
  end.
Proof.
  intros Hs.
  pose proof (handle_clock s e (reachableUI_barbers_nonempty s Hs)) as H.
  destruct e as [[name|timeStep u r|n|n| |]|barberId| |seconds]; try exact H.
  split.
  - intros Hoff. by rewrite Hoff in H.
  - intros Hrun Hpau Hpos. rewrite H, Hrun, Hpau. cbn [negb andb]. lra.
Qed.

Lemma clock_moves_only_by_steps_witness :
  let s := run initial [AddCustomer "A"] in
  reachableUI s
  ∧ (currentTime s <= currentTime (handle s (Cmd (Advance (7 # 2) 1 0))))%Q
  ∧ currentTime (handle s (Cmd TogglePause)) = currentTime s
  ∧ currentTime (handle s Reset) = 0%Q.
Proof.
  intros s.
  assert (reachableUI s) as Hs by (exists [Cmd (AddCustomer "A")]; reflexivity).
  split; [exact Hs|]. split; [|split].
  - apply (clock_moves_only_by_steps s (Cmd (Advance (7 # 2) 1 0)) Hs);
      [reflexivity|reflexivity|discriminate].
  - exact (clock_moves_only_by_steps s (Cmd TogglePause) Hs).
  - exact (clock_moves_only_by_steps s Reset Hs).
Defined.

(** ** Queue positions *)

Lemma positionsInOrder_reindexed w : positionsInOrder (imap atPosition w).
Proof.
  intros i c. rewrite list_lookup_imap.
  destruct (w !! i); simpl; [|done]. by intros [= <-].
Qed.

Lemma commit_keepsPositions s q :
  Forall keepsPositions q → positionsInOrder (waitingCustomers s) →
  positionsInOrder (waitingCustomers (commit s q)).
Proof.
  intros H. revert s. induction H as [|u q Hu _ IH]; intros s Hs; [done|].
  change (commit s (u :: q)) with (commit (applyUpdate s u) q). apply IH.
  destruct s, u as [| | | | | | |[w|f]| | |]; simpl in *; done.
Qed.

Lemma processTimeStep_keepsPositions s timeStep u r :
  admitsArrival s timeStep u r = false →
  Forall keepsPositions (queue (processTimeStep s timeStep u r)).
Proof.
  intros Hno.
  pose proof (forEach_queued_dequeues s (currentTime s + timeStep)%Q
    (currentCustomers s) (mkLocals (barbers s) [] (currentCustomers s) [] [])
    (Forall_nil_2 _)) as Hd.
  step_cases s timeStep L Hq; try constructor; try done.
  - eapply Forall_impl; [exact Hd|]. intros ? ->. apply positionsInOrder_reindexed.
  - repeat apply Forall_app_2.
    + eapply Forall_impl; [exact Hd|]. intros ? ->.
      apply positionsInOrder_reindexed.
    + by repeat constructor.
    + case_match; repeat constructor.
    + rewrite !andb_true_r. by rewrite Hno.
Qed.

(** Every event keeps the positions of the queue in order, position i
    for the i-th customer, except a time step that admits a customer. *)
Theorem positions_kept_without_same_step_arrival s e :
  positionsInOrder (waitingCustomers s) →
  (∀ timeStep u r, e = Cmd (Advance timeStep u r) →
     admitsArrival s timeStep u r = false) →
  positionsInOrder (waitingCustomers (handle s e)).
Proof.
  intros Hs Hno.
  destruct e as [[name|timeStep u r|n|n| |]|barberId| |seconds]; cbn [handle exec].
  - destruct (findIndex isSleeping (barbers s)) as [i|] eqn:E.
    + pose proof E as E'. apply findIndex_Some in E' as (b & Hb & _).
      destruct (commit_addCustomer_asleep s name i b E Hb) as (_ & _ & -> & _).
      done.
    + destruct (commit_addCustomer_busy s name E) as (_ & _ & _ & _ & Hroom & Hfull).
      destruct (Z.lt_ge_cases (Z.of_nat (length (waitingCustomers s))) (numChairs s))
        as [Hlt|Hge].
      * destruct (Hroom Hlt) as [-> _].
        intros i c Hi. apply lookup_app_Some in Hi as [Hi|[Hlen Hi]]; [by apply Hs|].
        apply list_lookup_singleton_Some in Hi as [Hi <-]. simpl.
        do 2 f_equal. lia.
      * destruct (Hfull Hge) as [_ ->]. done.
  - apply commit_keepsPositions; [|done].
    apply processTimeStep_keepsPositions. by apply Hno.
  - apply commit_keepsPositions; [|done]. unfold updateBarberCount.
    repeat case_match; repeat constructor.
  - apply commit_keepsPositions; [|done]. unfold updateChairCount.
    case_match; repeat constructor. simpl.
    intros i c Hi. apply lookup_take_Some in Hi as [Hi _]. by apply Hs.
  - apply commit_keepsPositions; [|done]. unfold togglePauseSimulation.
    case_match; repeat constructor.
  - apply commit_keepsPositions; [|done]. unfold startHaircuts.
    apply Forall_app_2.
    + case_match; repeat constructor. by intros [|?] ?.
    + case_match; [constructor|]. apply Forall_app_2.
      * repeat case_match; repeat constructor.
      * unfold assignCustomersToBarbers. repeat case_match; try constructor.
        apply Forall_app_2.
        -- apply Forall_fmap, Forall_forall. by intros.
        -- repeat constructor. apply positionsInOrder_reindexed.
  - apply commit_keepsPositions; [|done]. unfold handleServiceComplete.
    repeat case_match; repeat constructor. apply positionsInOrder_reindexed.
  - apply commit_keepsPositions; [|done]. unfold resetSimulation.
    repeat constructor. by intros [|?] ?.
  - exact Hs.
Qed.

Lemma positions_kept_without_same_step_arrival_witness :
  let s := run initial [AddCustomer "A"; AddCustomer "B"; AddCustomer "C"] in
  positionsInOrder (waitingCustomers s)
  ∧ positionsInOrder (waitingCustomers (handle s (Cmd (Advance 10 1 0)))).
Proof.
  intros s.
  assert (positionsInOrder (waitingCustomers s)) as Hs.
  { intros [|[|i]] c Hc; vm_compute in Hc; by simplify_eq. }
  split; [exact Hs|].
  apply (positions_kept_without_same_step_arrival s (Cmd (Advance 10 1 0)) Hs).
  intros timeStep u r [= <- <- <-]. reflexivity.
Defined.

(** ** Adding barbers and taking them away again *)

Lemma removeFromEnd_sleeping_tail bs new r :
  Forall isSleeping new →
  removeFromEnd (length (bs ++ new)) (r + Z.of_nat (length new)) r (bs ++ new) = bs.
Proof.
  revert r. induction new as [|b new IH] using rev_ind; intros r Hnew.
  - rewrite app_nil_r. simpl. rewrite Z.add_0_r.
    destruct (length bs); simpl; [done|]. by rewrite Z.ltb_irrefl.
  - apply Forall_app in Hnew as [Hnew Hb]. rewrite Forall_singleton in Hb.
    rewrite app_assoc, !length_app, Nat.add_1_r. simpl.
    destruct (Z.ltb_spec r (r + Z.of_nat (length new + 1))) as [_|?]; [|lia].
    rewrite <- length_app, lookup_app_r, Nat.sub_diag by lia. simpl.
    rewrite decide_True by done. rewrite delete_last.
    replace (r + Z.of_nat (length new + 1)) with (r + 1 + Z.of_nat (length new)) by lia.
    by apply IH.
Qed.

Lemma renumber_sequential bs : sequentialIds bs → renumber bs = bs.
Proof.
  intros Hbs. apply list_eq. intros i. unfold renumber.
  rewrite list_lookup_imap. destruct (bs !! i) as [b|] eqn:E; [|done].
  simpl. f_equal. rewrite <- (Hbs i b E). by destruct b.
Qed.

(** Raising the barber count appends fresh barbers, asleep, with no
    customer served and ids continuing the numbering, and touches
    nothing else.  Lowering the count back to what it was removes
    exactly those barbers again: when the pool had as many barbers as
    configured, numbered in order, the state is what it was. *)
Theorem updateBarberCount_increase_then_back (s : Sim) (newCount : Z) :
  let n := clamp 1 5 newCount in
  numBarbers s < n → 1 ≤ numBarbers s →
  numBarbers s = Z.of_nat (length (barbers s)) →
  sequentialIds (barbers s) →
  let s1 := commit s (updateBarberCount s newCount) in
  let s2 := commit s1 (updateBarberCount s1 (numBarbers s)) in
  (∃ new, barbers s1 = barbers s ++ new
     ∧ Z.of_nat (length new) = n - numBarbers s
     ∧ (∀ k b, new !! k = Some b →
          b = newBarber (numBarbers s + Z.of_nat k + 1))
     ∧ sequentialIds (barbers s1))
  ∧ numBarbers s1 = n
  ∧ waitingCustomers s1 = waitingCustomers s
  ∧ currentCustomers s1 = currentCustomers s
  ∧ servedCustomers s1 = servedCustomers s
  ∧ turnedAwayCustomers s1 = turnedAwayCustomers s
  ∧ s2 = s.
Proof.
  intros n Hup Hpos Hlen Hseq s1 s2.
  pose proof (clamp_range 1 5 newCount ltac:(lia)) as Hn. fold n in Hn.
  set (new := (λ index, newBarber (numBarbers s + Z.of_nat index + 1))
                <$> seq 0 (Z.to_nat (n - numBarbers s))).
  assert (s1 = commit s [setBarbers (Updater (λ prev, prev ++ new));
                         setNumBarbers (Value n)]) as Hs1.
  { subst s1 new. unfold updateBarberCount. fold n.
    apply Z.ltb_lt in Hup. rewrite Hup. by rewrite <- Hlen. }
  assert (Forall isSleeping new) as Hsl.
  { subst new. apply Forall_fmap, Forall_forall. done. }
  assert (Z.of_nat (length new) = n - numBarbers s) as Hnew.
  { subst new. rewrite length_fmap, length_seq. lia. }
  assert (barbers s1 = barbers s ++ new ∧ numBarbers s1 = n) as [Hb1 Hn1]
    by (rewrite Hs1; by destruct s).
  assert (s2 = s) as Hs2.
  { subst s2. unfold updateBarberCount.
    assert (clamp 1 5 (numBarbers s) = numBarbers s) as ->
      by (unfold clamp; repeat case_match; lia).
    rewrite Hn1, Hb1.
    destruct (Z.ltb_spec n (numBarbers s)); [lia|].
    apply Z.ltb_lt in Hup. rewrite Hup.
    replace (n - numBarbers s) with (0 + Z.of_nat (length new)) by lia.
    rewrite removeFromEnd_sleeping_tail by done.
    rewrite renumber_sequential by done.
    rewrite Hs1. by destruct s. }
  repeat apply conj; try (rewrite Hs1; by destruct s); [|done].
  exists new. repeat apply conj; try done.
  - intros k b Hk. subst new. rewrite list_lookup_fmap in Hk.
    destruct (seq 0 _ !! k) as [j|] eqn:E; [|done].
    apply lookup_seq in E as [-> _]. simpl in Hk. by injection Hk as <-.
  - rewrite Hb1. intros i b Hi.
    apply lookup_app_Some in Hi as [Hi|[Hge Hi]]; [by apply Hseq|].
    subst new. rewrite list_lookup_fmap in Hi.
    destruct (seq 0 _ !! (i - length (barbers s))%nat) as [j|] eqn:E; [|done].
    apply lookup_seq in E as [-> _]. simpl in Hi. injection Hi as <-.
    simpl. lia.
Qed.

Lemma updateBarberCount_increase_then_back_witness :
  let s := run initial [AddCustomer "A"; AddCustomer "B"] in
  let s1 := commit s (updateBarberCount s 4) in
  numBarbers s < clamp 1 5 4
  ∧ length (barbers s1) = 4%nat
  ∧ commit s1 (updateBarberCount s1 (numBarbers s)) = s.
Proof.
  intros s s1.
  assert (numBarbers s < clamp 1 5 4) as Hup by reflexivity.
  assert (sequentialIds (barbers s)) as Hseq.
  { intros [|i] b Hb; vm_compute in Hb; by simplify_eq. }
  split; [exact Hup|]. split; [reflexivity|].
  refine (proj2 (proj2 (proj2 (proj2 (proj2 (proj2
    (updateBarberCount_increase_then_back s 4 Hup _ _ Hseq))))))); reflexivity.
Defined.

(** ** The completion callback of a progress bar *)

Lemma list_find_sequential bs i b :
  sequentialIds bs → bs !! i = Some b →
  list_find (λ b, Barber.id b = Z.of_nat i + 1) bs = Some (i, b).
Proof.
  intros Hseq Hb. apply (list_find_Some _ bs). repeat split; [done|by apply Hseq|].
  intros j y Hj Hlt Hid. rewrite (Hseq j y Hj) in Hid. lia.
Qed.

Lemma list_find_by_id (cur : list Customer.t) c :
  NoDup (Customer.id <$> cur) → c ∈ cur →
  ∃ j, list_find (λ x, Customer.id x = Customer.id c) cur = Some (j, c).
Proof.
  intros Hnd Hc. pose proof Hc as Hc'.
  apply list_elem_of_lookup in Hc' as [j Hj]. exists j.
  apply (list_find_Some _ cur). repeat split; [done..|].
  intros k y Hk Hlt Hid.
  assert (y = c) as ->.
  { apply (NoDup_fmap_eq Customer.id cur); try done.
    apply list_elem_of_lookup. eauto. }
  apply NoDup_fmap_1 in Hnd.
  pose proof (NoDup_lookup _ _ _ _ Hnd Hk Hj). lia.
Qed.

(** The progress bar of barber i + 1 completes while that barber serves
    customer [c]: [c] is recorded as served, leaving at the current
    time, and leaves [currentCustomers]; the barber's counter grows by
    one; the barber takes the head of the queue, served from the
    current time, or goes to sleep when nobody waits; the rest of the
    queue is reindexed.  The clock and the other history are untouched. *)
Theorem handleServiceComplete_effect (s : Sim) (i : nat) (b : Barber.t)
    (c : Customer.t) :
  sequentialIds (barbers s) → barbers s !! i = Some b →
  Barber.servingCustomerId b = Some (Customer.id c) → Customer.id c ≠ 0 →
  c ∈ currentCustomers s → NoDup (Customer.id <$> currentCustomers s) →
  let now := currentTime s in
  let s' := commit s (handleServiceComplete s (Z.of_nat i + 1)) in
  servedCustomers s' = servedCustomers s ++ [finished c now]
  ∧ barbers s' = <[i := freed s now b]> (barbers s)
  ∧ Barber.totalCustomersServed (freed s now b)
    = Barber.totalCustomersServed b + 1
  ∧ currentCustomers s' =
      filter (λ x, Customer.id x ≠ Customer.id c) (currentCustomers s)
      ++ (match waitingCustomers s with
          | h :: _ => [seated h (Z.of_nat i + 1) now (now + serviceTime s)%Q]
          | [] => []
          end)
  ∧ (c ∉ filter (λ x, Customer.id x ≠ Customer.id c) (currentCustomers s))
  ∧ waitingCustomers s' = imap atPosition (drop 1 (waitingCustomers s))
  ∧ turnedAwayCustomers s' = turnedAwayCustomers s
  ∧ currentTime s' = now
  ∧ nextCustomerId s' = nextCustomerId s.
Proof.
  intros Hseq Hb Hserving Hnz Hc Hnd now s'.
  destruct (list_find_by_id _ c Hnd Hc) as [j Hfind].
  assert (Barber.totalCustomersServed (freed s now b)
          = Barber.totalCustomersServed b + 1) as Htotal by apply freed_counts.
  assert (c ∉ filter (λ x, Customer.id x ≠ Customer.id c) (currentCustomers s))
    as Hgone by (by intros [? _]%list_elem_of_filter).
  subst s'. unfold handleServiceComplete.
  rewrite (list_find_sequential _ i b Hseq Hb), Hserving.
  destruct (Z.eqb_spec (Customer.id c) 0) as [|_]; [done|].
  rewrite Hfind. unfold freed, now.
  destruct (waitingCustomers s) as [|h rest] eqn:Hw;
    rewrite list_insert_insert_eq;
    destruct s as [nb nc st ar run pau ct nid bs wq cur srv ta];
    simpl in *; subst; repeat split; try done.
  by rewrite app_nil_r.
Qed.

Lemma handleServiceComplete_effect_witness :
  let s := run initial [AddCustomer "A"; AddCustomer "B"] in
  let s' := commit s (handleServiceComplete s 1) in
  Customer.name <$> servedCustomers s' = ["A"]
  ∧ Customer.name <$> currentCustomers s' = ["B"]
  ∧ waitingCustomers s' = [].
Proof.
  intros s s'.
  set (a := Customer.mk 1 "A" GETTING_HAIRCUT 0%Q (Some 0%Q) None (Some 1)
              None (Some (0 + 10)%Q)).
  set (b := Barber.mk 1 WORKING (Some 1) 0 (Some 0%Q) (Some (0 + 10)%Q)).
  assert (sequentialIds (barbers s)) as Hseq.
  { intros [|k] x Hx; vm_compute in Hx; by simplify_eq. }
  assert (a ∈ currentCustomers s) as Ha by apply list_elem_of_here.
  assert (NoDup (Customer.id <$> currentCustomers s)) as Hnd
    by apply NoDup_singleton.
  destruct (handleServiceComplete_effect s 0 b a Hseq eq_refl eq_refl
              ltac:(discriminate) Ha Hnd) as (Hs & _ & _ & Hc & _ & Hw & _).
  change (Z.of_nat 0 + 1) with 1 in *. fold s' in Hs, Hc, Hw.
  rewrite Hs, Hc, Hw. repeat split; reflexivity.
Defined.

(** The callback does nothing at all when no barber has the id, when
    the barber serves nobody ([servingCustomerId] is [null] or [0]), or
    when the customer it serves is not in [currentCustomers]. *)
Theorem handleServiceComplete_ignored (s : Sim) (barberId : Z) :
  ((∀ b, b ∈ barbers s → Barber.id b ≠ barberId) →
     handleServiceComplete s barberId = [])
  ∧ (∀ i b, sequentialIds (barbers s) → barbers s !! i = Some b →
       barberId = Z.of_nat i + 1 →
       Barber.servingCustomerId b = None
       ∨ Barber.servingCustomerId b = Some 0
       ∨ (∃ cid, Barber.servingCustomerId b = Some cid
                 ∧ ∀ c, c ∈ currentCustomers s → Customer.id c ≠ cid) →
       handleServiceComplete s barberId = []).
Proof.
  split.
  - intros Hnone. unfold handleServiceComplete.
    assert (list_find (λ b, Barber.id b = barberId) (barbers s) = None) as ->; [|done].
    apply list_find_None, Forall_forall. done.
  - intros i b Hseq Hb -> Hidle. unfold handleServiceComplete.
    rewrite (list_find_sequential _ i b Hseq Hb).
    destruct Hidle as [-> | [-> | (cid & -> & Hcid)]]; [done..|].
    destruct (cid =? 0); [done|].
    assert (list_find (λ c, Customer.id c = cid) (currentCustomers s) = None)
      as ->; [|done].
    apply list_find_None, Forall_forall. done.
Qed.

Lemma handleServiceComplete_ignored_witness :
  handleServiceComplete initial 7 = [] ∧ handleServiceComplete initial 1 = [].
Proof.
  split.
  - apply (proj1 (handleServiceComplete_ignored initial 7)).
    intros b Hb. apply list_elem_of_singleton in Hb as ->. discriminate.
  - apply (proj2 (handleServiceComplete_ignored initial 1) 0%nat (newBarber 1));
      [|reflexivity|reflexivity|left; reflexivity].
    intros [|k] x Hx; vm_compute in Hx; by simplify_eq.
Defined.

(** ** Reset *)

(** The reset stops the simulation, empties the four collections, puts
    the clock at 0 and the id counter at 1, and rebuilds the pool from
    the configured barber count: that many barbers, asleep, numbered in
    order, whatever the pool held.  The configuration is kept, and a
    second reset changes nothing. *)
Theorem resetSimulation_restores (s : Sim) :
  let s' := commit s (resetSimulation s) in
  Z.of_nat (length (barbers s')) = Z.max 0 (numBarbers s)
  ∧ Forall (λ b, isSleeping b ∧ Barber.totalCustomersServed b = 0
                 ∧ Barber.servingCustomerId b = None) (barbers s')
  ∧ sequentialIds (barbers s')
  ∧ waitingCustomers s' = [] ∧ currentCustomers s' = []
  ∧ servedCustomers s' = [] ∧ turnedAwayCustomers s' = []
  ∧ currentTime s' = 0%Q ∧ nextCustomerId s' = 1
  ∧ isRunning s' = false ∧ isPaused s' = false
  ∧ numBarbers s' = numBarbers s ∧ numChairs s' = numChairs s
  ∧ serviceTime s' = serviceTime s ∧ arrivalRate s' = arrivalRate s
  ∧ commit s' (resetSimulation s') = s'.
Proof.
  intros s'. subst s'. unfold resetSimulation.
  destruct s as [nb nc st ar run pau ct nid bs wq cur srv ta].
  cbn [app initializeSimulation commit foldl applyUpdate resolve numBarbers
       barbers waitingCustomers currentCustomers servedCustomers
       turnedAwayCustomers currentTime nextCustomerId isRunning isPaused
       numChairs serviceTime arrivalRate].
  repeat apply conj; try reflexivity.
  - rewrite length_fmap, length_seq. lia.
  - apply Forall_fmap, Forall_forall. done.
  - apply sequentialIds_fresh.
Qed.

(** ** The animation loop *)

(** Every handler that asks for an animation frame passes the
    [animationLoop] of its own render, and asks only when that render
    is not running or is paused: the callback returns at its guard.  It
    runs no step, leaves both refs alone and asks for no further frame. *)
Theorem requested_frame_returns_at_guard (s : Sim) (simulationSpeed : Q)
    (refs : Refs) (timestamp u : Q) (r : nat) :
  addCustomerRequestsFrame s = true
  ∨ startHaircutsRequestsFrame s = true
  ∨ togglePauseRequestsFrame s = true →
  animationLoop s simulationSpeed refs timestamp u r = mkFrame refs None false.
Proof.
  unfold addCustomerRequestsFrame, startHaircutsRequestsFrame,
    togglePauseRequestsFrame, animationLoop.
  intros [H | [H | H]].
  - apply andb_true_iff in H as [-> _]. done.
  - destruct (_ && _) in H; [done|]. by rewrite H.
  - apply andb_true_iff in H as [-> ->]. done.
Qed.

Lemma requested_frame_returns_at_guard_witness :
  addCustomerRequestsFrame initial = true
  ∧ animationLoop initial 1 (mkRefs 0 0) 16 0 0 = mkFrame (mkRefs 0 0) None false.
Proof.
  split; [reflexivity|].
  apply requested_frame_returns_at_guard. left. reflexivity.
Defined.

(** ** What the page displays *)

Lemma Qeq_bool_false x y : Qeq_bool x y = false → ¬ (x == y)%Q.
Proof. intros H Heq. apply Qeq_bool_iff in Heq. congruence. Qed.

Lemma Qltb_true x y : Qltb x y = true ↔ (x < y)%Q.
Proof.
  unfold Qltb. rewrite negb_true_iff. split.
  - intros H. apply Qnot_le_lt. intros Hle. apply Qle_bool_iff in Hle. congruence.
  - intros H. destruct (Qle_bool y x) eqn:E; [|done].
    apply Qle_bool_iff in E. lra.
Qed.




Lemma Math_max_0_Num y d :
  Math_max (Num 0) y = Num d →
  (∃ r, y = Num r ∧ d = Qmax 0 r) ∨ (y = MinusInfinity ∧ d = 0%Q).
Proof.
  destruct y; try done.
  - intros [= <-]. left. by eexists.
  - intros [= <-]. by right.
Qed.

Lemma getTimeRemaining_within (s : Sim) (b : Barber.t) :
  (Barber.state b ≠ WORKING → getTimeRemaining s b = Num 0)
  ∧ (∀ endT, Barber.state b = WORKING → Barber.serviceEndTime b = Some endT →
       ¬ (endT == 0)%Q → isDouble endT → isDouble (currentTime s) →
       let left := Qmax 0 (endT - currentTime s) in
       ((endT <= currentTime s)%Q → getTimeRemaining s b = Num 0)
       ∧ ∀ r, getTimeRemaining s b = Num r →
           (0 <= r)%Q
           ∧ (∃ tenths : Z, 0 ≤ tenths ∧ double (inject_Z tenths / 10) = Num r)
           ∧ (Qabs (r - left)
              <= (1 # 20) + (left + 1) * (1 # 1125899906842624))%Q).
Proof.
  split.
  { intros Hw. unfold getTimeRemaining. by rewrite bool_decide_eq_true_2. }
  intros endT Hw He H0 (e & De & Ee) (n & Dn & En) left.
  assert (getTimeRemaining s b
          = jsDiv (Math_round (jsMul (Math_max (Num 0) (double (e - n))) (Num 10)))
                  (Num 10)) as ->.
  { unfold getTimeRemaining. rewrite Hw, He, De, Dn.
    rewrite bool_decide_eq_false_2 by (intros ?; done). cbn [isTruthy].
    destruct (Qeq_bool endT 0) eqn:E; [by apply Qeq_bool_iff in E|]. done. }
  assert (left == Qmax 0 (e - n))%Q as Hleft by (subst left; by rewrite Ee, En).
  clearbody left. clear De Dn Hw He H0.
  assert (∀ d, (d == 0)%Q →
            jsDiv (Math_round (jsMul (Num d) (Num 10))) (Num 10) = Num 0) as Hzero.
  { intros d Hd. cbn [jsMul]. unfold double at 1.
    assert (Qeq_bool (d * 10) 0 = true) as ->
      by (apply Qeq_bool_iff; rewrite Hd; reflexivity).
    reflexivity. }
  split.
  - intros Hpast.
    destruct (double_nonpos (e - n)) as [(r1 & -> & Hr1)| ->]; [lra|..];
      cbn [Math_max]; apply Hzero; [|reflexivity].
    by apply Q.max_l.
  - intros r Hr.
    apply jsDiv_Num in Hr as (rho & Hrho & Hr); [|discriminate].
    apply Math_round_Num in Hrho as (x & Hx & ->).
    apply jsMul_Num in Hx as (d & Hd & Hx).
    destruct eta_range as [He1 He2].
    assert (0 <= left)%Q as Hleft0 by (rewrite Hleft; apply Q.le_max_l).
    assert (0 <= d ∧ - (eps * left + eta) <= d - left <= eps * left + eta)%Q
      as [Hd0 Ed].
    { apply Math_max_0_Num in Hd as [(r1 & Hr1 & ->)|[Hinf ->]].
      - pose proof (double_within _ _ _ Hr1
          (proj1 (Qabs_Qle_condition _ _) (Qle_refl _))) as E1.
        destruct (double_sign _ _ Hr1) as [Hpos Hneg].
        split; [apply Q.le_max_l|]. rewrite Hleft.
        destruct (Qlt_le_dec (e - n) 0) as [Hq|Hq].
        + rewrite (Q.max_l 0 r1) by (apply Hneg; lra).
          rewrite (Q.max_l 0 (e - n)) by lra. unfold eps. lra.
        + rewrite (Q.max_r 0 r1) by (by apply Hpos).
          rewrite (Q.max_r 0 (e - n)) by done.
          rewrite (Qabs_pos (e - n)) in E1 by done. exact E1.
      - split; [lra|]. assert (left == 0)%Q as ->; [|unfold eps; lra].
        rewrite Hleft. apply Q.max_l.
        destruct (Qlt_le_dec 0 (e - n)) as [Hq|Hq]; [|done].
        destruct (double_nonneg (e - n)) as [(r1 & Hr1 & _)|Hr1]; [lra|..];
          congruence. }
    clear Hd Hleft.
    pose proof (double_within _ _ (10 * (left + (eps * left + eta))) Hx
                  ltac:(lra)) as Ex.
    destruct (double_sign _ _ Hx) as [Hx0 _]. specialize (Hx0 ltac:(lra)).
    pose proof (Math_round_within x) as Er.
    assert (0 ≤ Qfloor (x + (1 # 2))) as Hk.
    { rewrite <- (Qfloor_Z 0). apply Qfloor_resp_le.
      change (inject_Z 0) with 0%Q. lra. }
    assert (0 <= inject_Z (Qfloor (x + (1 # 2))))%Q as Hrho0.
    { change 0%Q with (inject_Z 0). by rewrite <- Zle_Qle. }
    repeat apply conj.
    + apply (double_sign _ _ Hr).
      set (rho := inject_Z (Qfloor (x + (1 # 2)))) in *.
      change (rho / 10)%Q with (rho * (1 # 10))%Q. clearbody rho. lra.
    + exists (Qfloor (x + (1 # 2))). split; [exact Hk|exact Hr].
    + set (rho := inject_Z (Qfloor (x + (1 # 2)))) in *. clearbody rho.
      change (rho / 10)%Q with (rho * (1 # 10))%Q in Hr.
      pose proof (double_within _ _
        ((1 # 10) * ((1 # 2) + 10 * (left + (eps * left + eta))
                     + (eps * (10 * (left + (eps * left + eta))) + eta)))
        Hr ltac:(lra)) as Ea.
      apply Qabs_Qle_condition. unfold eps in *. split; lra.
Qed.

Lemma getTimeRemaining_finite (s : Sim) (b : Barber.t) endT :
  Barber.state b = WORKING → Barber.serviceEndTime b = Some endT →
  ¬ (endT == 0)%Q → isDouble endT → isDouble (currentTime s) →
  (endT - currentTime s <= 2 ^ 1000)%Q →
  ∃ r, getTimeRemaining s b = Num r.
Proof.
  intros Hw He H0 (e & De & Ee) (n & Dn & En) Hmax.
  assert (getTimeRemaining s b
          = jsDiv (Math_round (jsMul (Math_max (Num 0) (double (e - n))) (Num 10)))
                  (Num 10)) as ->.
  { unfold getTimeRemaining. rewrite Hw, He, De, Dn.
    rewrite bool_decide_eq_false_2 by (intros ?; done). cbn [isTruthy].
    destruct (Qeq_bool endT 0) eqn:E; [by apply Qeq_bool_iff in E|]. done. }
  rewrite <- Ee, <- En in Hmax. clear De Dn Hw He H0 Ee En.
  assert (1 <= 2 ^ 1000)%Q as Hone by (apply Qpower_1_le; [discriminate|lia]).
  assert (2 ^ 1023 == 8388608 * 2 ^ 1000)%Q as Hwide.
  { replace 1023 with (23 + 1000) by lia.
    rewrite Qpower_plus by discriminate. reflexivity. }
  destruct eta_range as [He1 He2].
  assert (∃ d, Math_max (Num 0) (double (e - n)) = Num d
               ∧ (0 <= d <= 2 * 2 ^ 1000)%Q) as (d & -> & Hd0 & Hd1).
  { destruct (Qlt_le_dec 0 (e - n)) as [Hpos|Hneg].
    - destruct (double_finite (e - n) (2 ^ 1000)) as [r1 Hr1]; [lra|lra|].
      pose proof (double_within _ _ (2 ^ 1000) Hr1 ltac:(lra)) as E1.
      destruct (double_sign _ _ Hr1) as [H1 _]. specialize (H1 ltac:(lra)).
      rewrite Hr1. cbn [Math_max]. eexists. split; [reflexivity|].
      rewrite (Q.max_r 0 r1) by done. unfold eps in *.
      set (T := (2 ^ 1000)%Q) in *. clearbody T. lra.
    - destruct (double_nonpos (e - n) Hneg) as [(r1 & -> & Hr1)| ->].
      + cbn [Math_max]. eexists. split; [reflexivity|].
        rewrite (Q.max_l 0 r1) by done. lra.
      + exists 0%Q. split; [reflexivity|]. lra. }
  cbn [jsMul].
  assert (40 * 2 ^ 1000 + 40 <= 2 ^ 1023)%Q as Hroom by lra.
  clear Hwide.
  set (T := (2 ^ 1000)%Q) in *. set (T' := (2 ^ 1023)%Q) in *.
  destruct (double_finite (d * 10) (20 * T)) as [x Hx];
    [lra|fold T'; clearbody T T'; lra|].
  rewrite Hx.
  pose proof (double_within _ _ (20 * T) Hx ltac:(lra)) as Ex.
  cbn [Math_round jsDiv].
  assert (Qeq_bool 10 0 = false) as -> by reflexivity.
  pose proof (Math_round_within x) as Er.
  set (rho := inject_Z (Qfloor (x + (1 # 2)))) in *. clearbody rho.
  change (rho / 10)%Q with (rho * (1 # 10))%Q.
  apply (double_finite _ (4 * T + 4));
    [unfold eps in *; clearbody T T'; split; lra|fold T'; clearbody T T'; lra].
Qed.

(** The time remaining shown for a barber.  A barber that is not
    working shows 0, and so does a working barber once the clock has
    reached its end time.  For an end time and a clock that are
    doubles, the figure is a finite number whenever the end is at most
    2 ^ 1000 seconds away; when it is finite it is not negative, is the
    double nearest to a whole number of tenths, and lies within 0.05,
    plus the rounding error of the doubles, of the time left until the
    end. *)
Theorem getTimeRemaining_rounds (s : Sim) (b : Barber.t) :
  (Barber.state b ≠ WORKING → getTimeRemaining s b = Num 0)
  ∧ (∀ endT, Barber.state b = WORKING → Barber.serviceEndTime b = Some endT →
       ¬ (endT == 0)%Q → isDouble endT → isDouble (currentTime s) →
       let left := Qmax 0 (endT - currentTime s) in
       ((endT <= currentTime s)%Q → getTimeRemaining s b = Num 0)
       ∧ ((endT - currentTime s <= 2 ^ 1000)%Q →
          ∃ r, getTimeRemaining s b = Num r)
       ∧ ∀ r, getTimeRemaining s b = Num r →
           (0 <= r)%Q
           ∧ (∃ tenths : Z, 0 ≤ tenths ∧ double (inject_Z tenths / 10) = Num r)
           ∧ (Qabs (r - left)
              <= (1 # 20) + (left + 1) * (1 # 1125899906842624))%Q).
Proof.
  destruct (getTimeRemaining_within s b) as [Hidle Hbusy].
  split; [exact Hidle|].
  intros endT Hw He H0 De Dn left.
  destruct (Hbusy endT Hw He H0 De Dn) as [Hpast Hnear].
  split; [exact Hpast|]. split; [|exact Hnear].
  by apply getTimeRemaining_finite.
Qed.

Lemma getTimeRemaining_rounds_witness :
  let s := run initial [AddCustomer "A"; Advance (15 # 4) 1 0] in
  ∃ b r, barbers s = [b]
         ∧ getTimeRemaining s b = Num r
         ∧ (Qabs (r - Qmax 0 (10 - currentTime s))
            <= (1 # 20)
               + (Qmax 0 (10 - currentTime s) + 1) * (1 # 1125899906842624))%Q.
Proof.
  intros s. eexists _, _. split; [vm_compute; reflexivity|].
  split; [vm_compute; reflexivity|].
  match goal with |- (Qabs (_ - Qmax 0 (?e - _)) <= _)%Q =>
    destruct (getTimeRemaining_rounds s
                (Barber.mk 1 WORKING (Some 1) 0 (Some 0%Q) (Some (0 + 10)%Q)))
      as (_ & H) end.
  apply (H (0 + 10)%Q); [reflexivity|reflexivity|discriminate|..].
  - eexists. split; [vm_compute; reflexivity|reflexivity].
  - eexists. split; [vm_compute; reflexivity|]. vm_compute. reflexivity.
  - vm_compute. reflexivity.
Defined.

(** At clock 7.15 with the haircut ending at 10, the time left is the
    double just below 2.85 and ten times it the double just below 28.5:
    the page shows 2.8, where the exact 28.5 would round up to 2.9. *)
Lemma getTimeRemaining_rounds_the_double :
  let s := run initial [AddCustomer "A"; Advance (715 # 100) 1 0] in
  currentTime s = (715 # 100)%Q
  ∧ ∃ b, barbers s = [b]
         ∧ Barber.serviceEndTime b = Some 10%Q
         ∧ getTimeRemaining s b = double (28 # 10)
         ∧ getTimeRemaining s b ≠ double (29 # 10).
Proof.
  intros s. split; [vm_compute; reflexivity|]. eexists.
  split; [vm_compute; reflexivity|]. split; [vm_compute; reflexivity|].
  split; [vm_compute; reflexivity|]. vm_compute. discriminate.
Qed.

(** ** Looking a customer up by id *)

Lemma list_find_appended (cur : list Customer.t) (c : Customer.t) :
  Forall (λ x, Customer.id x ≠ Customer.id c) cur →
  list_find (λ x, Customer.id x = Customer.id c) (cur ++ [c])
  = Some (length cur, c).
Proof.
  intros Hcur. apply (list_find_Some _ (cur ++ [c])). repeat split.
  - by rewrite lookup_app_r, Nat.sub_diag.
  - intros j y Hj Hlt. rewrite lookup_app_l in Hj by done.
    exact (Forall_elem _ _ _ Hcur (list_elem_of_lookup_2 _ _ _ Hj)).
Qed.

(** In a state the interface can reach, a customer who arrives while a
    barber sleeps is found again through that barber: after the
    arrival, looking up the [servingCustomerId] of the barber that was
    woken returns the new customer's record, with the given name and
    that barber's number.  An id not yet handed out finds nobody, and
    neither does [null]. *)
Theorem getCustomerById_finds_new_arrival (s : Sim) (name : string) (i : nat) :
  reachableUI s → findIndex isSleeping (barbers s) = Some i →
  let s' := commit s (addCustomerWithName s name) in
  (∃ b c, barbers s' !! i = Some b
          ∧ getCustomerById s' (Barber.servingCustomerId b) = Some c
          ∧ Customer.id c = nextCustomerId s
          ∧ Customer.name c = name
          ∧ Customer.servedBy c = Some (Z.of_nat i + 1))
  ∧ (∀ id, nextCustomerId s' ≤ id → getCustomerById s' (Some id) = None)
  ∧ getCustomerById s' None = None.
Proof.
  intros Hreach Hfind s'.
  pose proof (reachableUI_idsBelowNext_aux s Hreach) as (_ & _ & Hcur & _).
  pose proof Hfind as Hi. apply findIndex_Some in Hi as (b & Hb & _).
  destruct (commit_addCustomer_asleep s name i b Hfind Hb)
    as (Hbs & Hcs & _ & _ & _ & Hnext).
  fold s' in Hbs, Hcs, Hnext.
  repeat apply conj; [|intros id Hid|done].
  - eexists _, _. split.
    { rewrite Hbs. apply list_lookup_insert_eq. by eapply lookup_lt_Some. }
    unfold getCustomerById. cbn [wakeFor Barber.servingCustomerId].
    rewrite Hcs.
    match goal with |- context [?cur ++ [?c]] =>
      pose proof (list_find_appended cur c) as Hf end.
    cbn [Customer.id] in Hf. rewrite Hf; [done|].
    eapply Forall_impl; [exact Hcur|]. intros x Hx. unfold idBelow in Hx.
    cbn [Customer.id]. lia.
  - unfold getCustomerById. rewrite Hcs, Hnext in *.
    match goal with |- _ <$> ?f = None => assert (f = None) as ->; [|done] end.
    apply list_find_None, Forall_app_2.
    + eapply Forall_impl; [exact Hcur|]. intros x Hx. unfold idBelow in Hx. lia.
    + apply Forall_singleton. cbn [Customer.id]. lia.
Qed.

Lemma getCustomerById_finds_new_arrival_witness :
  let s' := commit initial (addCustomerWithName initial "A") in
  ∃ b c, barbers s' !! 0%nat = Some b
         ∧ getCustomerById s' (Barber.servingCustomerId b) = Some c
         ∧ Customer.name c = "A".
Proof.
  intros s'.
  destruct (getCustomerById_finds_new_arrival initial "A" 0)
    as ((b & c & Hb & Hc & _ & Hn & _) & _).
  - by exists [].
  - reflexivity.
  - by exists b, c.
Defined.

(** ** Starting the haircuts *)

Lemma sleepingBarberIndices_elem (bs : list Barber.t) (i : nat) :
  i ∈ sleepingBarberIndices bs ↔ ∃ b, bs !! i = Some b ∧ isSleeping b.
Proof.
  unfold sleepingBarberIndices. rewrite list_elem_of_omap. split.
  - intros (o & Ho & Hi). unfold id in Hi. subst o.
    apply elem_of_lookup_imap in Ho as (j & b & Hj & Hb).
    destruct (decide (isSleeping b)); [|done]. simplify_eq. eauto.
  - intros (b & Hb & Hs). exists (Some i). split; [|done].
    apply elem_of_lookup_imap. exists i, b. split; [|done].
    by rewrite decide_True.
Qed.

Lemma sleepingBarberIndices_from (g : nat → nat) (bs : list Barber.t) :
  omap id (imap (λ index b, if decide (isSleeping b) then Some (g index) else None) bs)
  = g <$> sleepingBarberIndices bs.
Proof.
  unfold sleepingBarberIndices. revert g.
  assert (∀ (h g : nat → nat),
    omap id (imap (λ index b, if decide (isSleeping b) then Some (g (h index))
                              else None) bs)
    = g <$> omap id (imap (λ index b, if decide (isSleeping b)
                                      then Some (h index) else None) bs)) as H.
  { induction bs as [|b bs IH]; intros h g; [done|].
    rewrite !imap_cons. simpl.
    destruct (decide (isSleeping b)); simpl; [f_equal|]; apply (IH (h ∘ S) g). }
  intros g. apply (H (λ x, x) g).
Qed.

Lemma sleepingBarberIndices_length (bs : list Barber.t) :
  length (sleepingBarberIndices bs) = length (filter isSleeping bs).
Proof.
  induction bs as [|b bs IH]; [done|].
  unfold sleepingBarberIndices. rewrite imap_cons, filter_cons.
  pose proof (sleepingBarberIndices_from S bs) as Hfrom.
  unfold compose. simpl.
  destruct (decide (isSleeping b)); simpl;
    change (list_omap _ _ id ?l) with (omap id l);
    rewrite Hfrom, length_fmap, IH; done.
Qed.

Lemma foldl_alter_lookup {A} (f : A → A) (indices : list nat) (l : list A) i :
  (∀ x, f (f x) = f x) →
  foldl (λ acc j, alter f j acc) l indices !! i
  = if decide (i ∈ indices) then f <$> l !! i else l !! i.
Proof.
  intros Hidem. revert l. induction indices as [|j indices IH]; intros l.
  - by rewrite decide_False by apply not_elem_of_nil.
  - cbn [foldl]. rewrite IH.
    destruct (decide (i = j)) as [->|Hne].
    + rewrite list_lookup_alter_eq, (decide_True (P := j ∈ j :: indices))
        by apply list_elem_of_here.
      destruct (decide (j ∈ indices)); [|done].
      destruct (l !! j); simpl; by rewrite ?Hidem.
    + rewrite list_lookup_alter_ne by done.
      destruct (decide (i ∈ indices)) as [Hin|Hnin].
      * by rewrite decide_True by (by apply list_elem_of_further).
      * rewrite decide_False; [done|].
        by intros [?|?]%elem_of_cons.
Qed.

Lemma wake_every_sleeper (bs : list Barber.t) (cid : Z) (now endT : Q) :
  foldl (λ updatedBarbers barberIndex,
           alter (λ b, wakeFor b cid now endT) barberIndex updatedBarbers)
        bs (sleepingBarberIndices bs)
  = (λ b, if decide (isSleeping b) then wakeFor b cid now endT else b) <$> bs.
Proof.
  apply list_eq. intros i.
  rewrite (foldl_alter_lookup (λ b, wakeFor b cid now endT)) by done.
  rewrite list_lookup_fmap.
  destruct (bs !! i) as [b|] eqn:Hb; simpl.
  - destruct (decide (isSleeping b)) as [Hs|Hs].
    + rewrite decide_True; [done|]. apply sleepingBarberIndices_elem. eauto.
    + rewrite decide_False; [done|].
      intros (b' & Hb' & Hs')%sleepingBarberIndices_elem. by simplify_eq.
  - by destruct (decide _).
Qed.

Lemma commit_seats (s : Sim) (seat : nat → Customer.t) (indices : list nat) :
  commit s ((λ barberIndex,
               setCurrentCustomers (Updater (λ prev, prev ++ [seat barberIndex])))
            <$> indices)
  = mkSim (numBarbers s) (numChairs s) (serviceTime s) (arrivalRate s)
      (isRunning s) (isPaused s) (currentTime s) (nextCustomerId s)
      (barbers s) (waitingCustomers s)
      (currentCustomers s ++ (seat <$> indices))
      (servedCustomers s) (turnedAwayCustomers s).
Proof.
  revert s. induction indices as [|i indices IH]; intros s.
  - destruct s; simpl. by rewrite app_nil_r.
  - rewrite fmap_cons. change (commit s (?u :: ?q)) with (commit (applyUpdate s u) q).
    rewrite IH. destruct s; simpl. by rewrite <- app_assoc.
Qed.

(** Starting the haircuts while somebody waits and some barber sleeps:
    every sleeping barber is woken for the head of the queue, so that
    every barber works afterwards; the head is seated once per barber
    that slept, with that barber's number; the queue loses the records
    with the head's id and nothing else, and is reindexed; the
    simulation runs and is not paused.  The clock, the id counter and
    the histories are untouched. *)
Theorem startHaircuts_wakes_every_sleeper (s : Sim) (h : Customer.t)
    (rest : list Customer.t) :
  barbers s ≠ [] → waitingCustomers s = h :: rest →
  (∃ b, b ∈ barbers s ∧ isSleeping b) →
  let now := currentTime s in
  let endT := (now + serviceTime s)%Q in
  let s' := commit s (startHaircuts s) in
  barbers s'
  = (λ b, if decide (isSleeping b) then wakeFor b (Customer.id h) now endT
          else b) <$> barbers s
  ∧ Forall (λ b, Barber.state b = WORKING) (barbers s')
  ∧ currentCustomers s'
    = currentCustomers s
      ++ ((λ barberIndex, called h (Z.of_nat barberIndex) now endT)
          <$> sleepingBarberIndices (barbers s))
  ∧ length (sleepingBarberIndices (barbers s))
    = length (filter isSleeping (barbers s))
  ∧ waitingCustomers s'
    = imap atPosition
        (filter (λ c, Customer.id c ≠ Customer.id h) (waitingCustomers s))
  ∧ isRunning s' = true ∧ isPaused s' = false
  ∧ servedCustomers s' = servedCustomers s
  ∧ turnedAwayCustomers s' = turnedAwayCustomers s
  ∧ currentTime s' = now
  ∧ nextCustomerId s' = nextCustomerId s.
Proof.
  intros Hne Hw (b0 & Hb0 & Hs0) now endT s'.
  assert (sleepingBarberIndices (barbers s) ≠ []) as Hidx.
  { apply list_elem_of_lookup in Hb0 as [i Hi].
    assert (i ∈ sleepingBarberIndices (barbers s)) as Hin
      by (apply sleepingBarberIndices_elem; eauto).
    intros E. rewrite E in Hin. by apply not_elem_of_nil in Hin. }
  assert (filter (λ c, Customer.id c ∉
                   ((λ _ : nat, Customer.id h) <$> sleepingBarberIndices (barbers s)))
                 (waitingCustomers s)
          = filter (λ c, Customer.id c ≠ Customer.id h) (waitingCustomers s))
    as Hfilter.
  { apply list_filter_iff. intros c. rewrite list_elem_of_fmap. split.
    - intros Hnin E. destruct (sleepingBarberIndices (barbers s)) as [|i l] eqn:Ei;
        [done|]. apply Hnin. exists i. split; [done|apply list_elem_of_here].
    - intros Hc (i & Hi & _). done. }
  assert (s' =
    mkSim (numBarbers s) (numChairs s) (serviceTime s) (arrivalRate s)
      true false (currentTime s) (nextCustomerId s)
      ((λ b, if decide (isSleeping b) then wakeFor b (Customer.id h) now endT
             else b) <$> barbers s)
      (imap atPosition
         (filter (λ c, Customer.id c ≠ Customer.id h) (waitingCustomers s)))
      (currentCustomers s
       ++ ((λ barberIndex, called h (Z.of_nat barberIndex) now endT)
           <$> sleepingBarberIndices (barbers s)))
      (servedCustomers s) (turnedAwayCustomers s)) as ->.
  { subst s'. unfold startHaircuts, assignCustomersToBarbers.
    assert ((length (barbers s) =? 0)%nat = false) as ->
      by (destruct (barbers s); done).
    assert ((length (sleepingBarberIndices (barbers s)) =? 0)%nat = false) as ->
      by (destruct (sleepingBarberIndices (barbers s)); done).
    rewrite Hw in *. cbn [andb app].
    rewrite Hfilter, wake_every_sleeper, !commit_app, commit_seats.
    fold now endT.
    destruct s as [nb nc st ar run pau ct nid bs wq cur srv ta].
    destruct run, pau; reflexivity. }
  cbn [barbers currentCustomers waitingCustomers isRunning isPaused
       servedCustomers turnedAwayCustomers currentTime nextCustomerId].
  repeat apply conj; try reflexivity.
  - apply Forall_fmap, Forall_forall. intros b _. simpl.
    destruct (decide (isSleeping b)) as [|Hs]; [done|].
    unfold isSleeping in Hs. by destruct (Barber.state b).
  - apply sleepingBarberIndices_length.
Qed.

Lemma startHaircuts_wakes_every_sleeper_witness :
  let s := run initial [AddCustomer "A"; AddCustomer "B"; SetBarberCount 3] in
  let s' := commit s (startHaircuts s) in
  Customer.servedBy <$> currentCustomers s' = [Some 1; Some 2; Some 3]
  ∧ Customer.name <$> currentCustomers s' = ["A"; "B"; "B"]
  ∧ waitingCustomers s' = [].
Proof.
  intros s s'.
  set (b := Customer.mk 2 "B" WAITING 0%Q None None None (Some 0) None).
  destruct (startHaircuts_wakes_every_sleeper s b []) as (_ & _ & Hc & _ & Hw & _).
  - discriminate.
  - reflexivity.
  - eexists. split; [apply list_elem_of_further, list_elem_of_here|reflexivity].
  - fold s' in Hc, Hw. rewrite Hc, Hw. repeat split; reflexivity.
Defined.

(** ** Steps that raise *)






(** ** The invariants at states the interface reaches *)

Lemma reachableUI_labelled_witness :
  let s := foldl handle initial
    [Cmd (AddCustomer "A"); Cmd (AddCustomer "B"); Cmd (Advance 10 1 0);
     ServiceComplete 1; Cmd (SetChairCount 1)] in
  reachableUI s ∧ labelled s.
Proof.
  intros s. assert (reachableUI s) as Hs by (eexists; reflexivity).
  split; [exact Hs|]. exact (reachableUI_labelled s Hs).
Defined.

Lemma reachableUI_poolOk_witness :
  let s := foldl handle initial
    [Cmd (SetBarberCount 9); Cmd (AddCustomer "A"); Cmd (SetBarberCount 0);
     ServiceTime 5] in
  reachableUI s ∧ poolOk s ∧ barbers s ≠ [].
Proof.
  intros s. assert (reachableUI s) as Hs by (eexists; reflexivity).
  split; [exact Hs|]. exact (reachableUI_poolOk s Hs).
Defined.

Lemma reachableUI_idsBelowNext_witness :
  let s := foldl handle initial
    [Cmd (AddCustomer "A"); Cmd (AddCustomer "B"); Cmd StartHaircuts;
     Cmd (Advance 10 0 2); Reset; Cmd (AddCustomer "C")] in
  reachableUI s ∧ idsBelowNext s.
Proof.
  intros s. assert (reachableUI s) as Hs by (eexists; reflexivity).
  split; [exact Hs|]. exact (reachableUI_idsBelowNext s Hs).
Defined.

Lemma reachableUI_sequentialIds_witness :
  let s := foldl handle initial
    [Cmd (SetBarberCount 3); Cmd (AddCustomer "A"); Cmd (AddCustomer "B");
     ServiceComplete 1; Cmd (SetBarberCount 1)] in
  reachableUI s ∧ sequentialIds (barbers s).
Proof.
  intros s. assert (reachableUI s) as Hs by (eexists; reflexivity).
  split; [exact Hs|]. exact (reachableUI_sequentialIds s Hs).
Defined.

Lemma reachableUI_withinChairs_witness :
  let s := foldl handle initial
    [Cmd (AddCustomer "A"); Cmd (AddCustomer "B"); Cmd (AddCustomer "C");
     Cmd (AddCustomer "D"); Cmd (AddCustomer "E"); Cmd (SetChairCount 2);
     ServiceComplete 1] in
  reachableUI s ∧ withinChairs s.
Proof.
  intros s. assert (reachableUI s) as Hs by (eexists; reflexivity).
  split; [exact Hs|]. exact (reachableUI_withinChairs s Hs).
Defined.

(** ** Pausing *)

(** Pausing a running simulation stops the time: however many animation
    steps arrive while it is paused, the state stays as it is, and
    resuming gives back the state in which the pause was pressed. *)
Theorem paused_time_stands_still (s : Sim) (steps : list (Q * Q * nat)) :
  isRunning s = true → isPaused s = false →
  let paused := exec s TogglePause in
  isPaused paused = true
  ∧ run paused ((λ step, Advance step.1.1 step.1.2 step.2) <$> steps) = paused
  ∧ exec paused TogglePause = s.
Proof.
  intros Hrun Hpau paused.
  assert (paused = mkSim (numBarbers s) (numChairs s) (serviceTime s)
            (arrivalRate s) true true (currentTime s) (nextCustomerId s)
            (barbers s) (waitingCustomers s) (currentCustomers s)
            (servedCustomers s) (turnedAwayCustomers s)) as Hp.
  { subst paused. cbn [exec]. unfold togglePauseSimulation.
    rewrite Hrun, Hpau. destruct s; simpl in *. by subst. }
  repeat apply conj.
  - by rewrite Hp.
  - clearbody paused. induction steps as [|step steps IH]; [done|].
    rewrite fmap_cons. unfold run in *. cbn [foldl exec].
    assert (processTimeStep paused step.1.1 step.1.2 step.2 = mkOutcome [] false)
      as -> by (unfold processTimeStep; by rewrite Hp).
    exact IH.
  - rewrite Hp. cbn [exec]. unfold togglePauseSimulation. cbn.
    destruct s; simpl in *. by subst.
Qed.

Lemma paused_time_stands_still_witness :
  let s := run initial [AddCustomer "A"; Advance 3 1 0] in
  let paused := exec s TogglePause in
  run paused [Advance 20 0 0; Advance 20 0 1] = paused
  ∧ exec paused TogglePause = s.
Proof.
  intros s paused.
  destruct (paused_time_stands_still s [(20, 0, 0%nat); (20, 0, 1%nat)]%Q
              eq_refl eq_refl) as (_ & Hstill & Hback).
  split; [exact Hstill|exact Hback].
Defined.

(** ** The progress bar *)

(** The value is 100 once the elapsed time has reached the duration. *)
Lemma progress_full d e :
  (0 < d)%Q → (d <= e)%Q →
  ∃ x, progress (Num d) (Num e) = Num x ∧ (x == 100)%Q.
Proof.
  intros Hd Hle. unfold progress. cbn [jsDiv].
  destruct (Qeq_bool d 0) eqn:E; [apply Qeq_bool_iff in E; lra|].
  assert (1 <= e / d)%Q as Hq by (apply Qle_shift_div_l; lra).
  assert (isDouble 1) as H1 by (apply isDouble_literal; vm_compute; reflexivity).
  assert (isDouble 100) as H100 by (apply isDouble_literal; vm_compute; reflexivity).
  destruct (double_ge 1 (e / d) H1 ltac:(reflexivity) Hq) as [(r & -> & Hr)| ->].
  - cbn [jsMul].
    destruct (double_ge 100 (r * 100) H100 ltac:(reflexivity) ltac:(lra))
      as [(x & -> & Hx)| ->].
    + cbn [Math_min]. eexists. split; [reflexivity|]. by apply Q.min_l.
    + by exists 100%Q.
  - by exists 100%Q.
Qed.

(** Before that it is below 100: the quotient of two doubles is at most
    [1 - 2 ^ -53], and a hundred times that rounds below 100. *)
Lemma progress_partial d e :
  isDouble d → isDouble e → (0 < d)%Q → (e < d)%Q →
  (∃ x, progress (Num d) (Num e) = Num x ∧ (x < 100)%Q)
  ∨ (progress (Num d) (Num e) = MinusInfinity ∧ (e < 0)%Q).
Proof.
  intros Dd De Hd Hlt. unfold progress. cbn [jsDiv].
  destruct (Qeq_bool d 0) eqn:E; [apply Qeq_bool_iff in E; lra|].
  destruct (Qlt_le_dec 0 e) as [He|He].
  - left. pose proof (quotient_below_one e d De Dd He Hlt) as Hq.
    assert (0 < e / d)%Q as Hq0 by (apply Qlt_shift_div_l; lra).
    destruct (double_le (9007199254740991 # 9007199254740992) (e / d))
      as (r & -> & Hr0 & Hr1); try done.
    { apply isDouble_literal. vm_compute. reflexivity. }
    cbn [jsMul].
    apply Qle_lteq in Hr0 as [Hr0|Hr0].
    + destruct (hundredfold_below r Hr0 Hr1) as (x & -> & Hx0 & Hx1).
      cbn [Math_min]. eexists. split; [reflexivity|].
      eapply Qle_lt_trans; [apply Q.le_min_r|done].
    + assert (double (r * 100) = Num 0) as ->.
      { unfold double.
        assert (Qeq_bool (r * 100) 0 = true) as ->; [|done].
        apply Qeq_bool_iff. rewrite <- Hr0. reflexivity. }
      cbn [Math_min]. eexists. split; [reflexivity|].
      eapply Qle_lt_trans; [apply Q.le_min_r|done].
  - apply Qle_lteq in He as [He|He].
    + assert (e / d <= 0)%Q as Hq by (apply Qle_shift_div_r; lra).
      destruct (double_nonpos (e / d) Hq) as [(r & -> & Hr)| ->]; [|by right].
      cbn [jsMul].
      destruct (double_nonpos (r * 100) ltac:(lra)) as [(x & -> & Hx)| ->];
        [|by right].
      left. cbn [Math_min]. eexists. split; [reflexivity|].
      eapply Qle_lt_trans; [apply Q.le_min_r|lra].
    + left. assert (double (e / d) = Num 0) as ->.
      { unfold double.
        assert (Qeq_bool (e / d) 0 = true) as ->; [|done].
        apply Qeq_bool_iff. rewrite He. field. lra. }
      eexists. split; [reflexivity|]. reflexivity.
Qed.

(** With a positive duration the bar shows a number of at most 100 and
    completes, calling [onComplete], exactly when the elapsed time has
    reached the duration; the value it shows is then 100.  With a
    duration of 0 the bar completes at the first tick after it was
    mounted. *)
Theorem progress_counts_down (duration elapsed : Q) :
  isDouble duration → isDouble elapsed →
  let p := progress (Num duration) (Num elapsed) in
  ((0 < duration)%Q →
     match p with
     | Num x => (x <= 100)%Q
     | MinusInfinity => (elapsed < 0)%Q
     | NaN | Infinity => False
     end
     ∧ (completes p = true ↔ (duration <= elapsed)%Q)
     ∧ ((duration <= elapsed)%Q → ∃ x, p = Num x ∧ (x == 100)%Q))
  ∧ ((duration == 0)%Q → (0 < elapsed)%Q → p = Num 100 ∧ completes p = true).
Proof.
  intros Dd De p. split.
  - intros Hd. destruct (Qlt_le_dec elapsed duration) as [Hlt|Hge].
    + destruct (progress_partial duration elapsed Dd De Hd Hlt)
        as [(x & Hp & Hx)|[Hp He]]; fold p in Hp; rewrite Hp.
      * split; [lra|]. split; [|intros; lra]. cbn [completes]. split.
        -- intros H. apply Qle_bool_iff in H. lra.
        -- intros H. lra.
      * split; [done|]. split; [|intros; lra]. cbn [completes]. split.
        -- done.
        -- intros H. lra.
    + destruct (progress_full duration elapsed Hd Hge) as (x & Hp & Hx).
      fold p in Hp. rewrite Hp. split; [lra|]. split; [|by eauto].
      cbn [completes]. split; [done|]. intros _. apply Qle_bool_iff. lra.
  - intros H0 He. subst p. unfold progress. cbn [jsDiv].
    apply Qeq_bool_iff in H0. rewrite H0.
    assert ((elapsed ?= 0)%Q = Gt) as -> by (by apply Qgt_alt).
    done.
Qed.

Lemma progress_counts_down_witness :
  ∃ e, elapsed 1000 4500 = Num e
       ∧ (∃ x, progress (Num 10) (Num e) = Num x ∧ (x <= 100)%Q)
       ∧ completes (progress (Num 10) (Num e)) = false
       ∧ completes (progress (Num 3) (Num e)) = true.
Proof.
  assert (isDouble 10) as H10 by (apply isDouble_literal; vm_compute; reflexivity).
  assert (isDouble 3) as H3 by (apply isDouble_literal; vm_compute; reflexivity).
  destruct (elapsed 1000 4500) as [e| | |] eqn:He;
    try (vm_compute in He; discriminate He).
  assert (isDouble e) as De.
  { vm_compute in He. injection He as <-.
    apply isDouble_literal. vm_compute. reflexivity. }
  assert (3 <= e ∧ e < 10)%Q as [Hlo Hhi].
  { vm_compute in He. injection He as <-. split; [discriminate|reflexivity]. }
  exists e. split; [reflexivity|].
  destruct (progress_counts_down 10 e H10 De) as [Hpos _].
  destruct (Hpos ltac:(reflexivity)) as (Hrange & Hiff & _).
  destruct (progress_counts_down 3 e H3 De) as [Hpos' _].
  destruct (Hpos' ltac:(reflexivity)) as (_ & Hiff' & _).
  split; [|split].
  - destruct (progress (Num 10) (Num e)) as [x| | |] eqn:Hp.
    + exists x. split; [reflexivity|exact Hrange].
    + destruct Hrange.
    + destruct Hrange.
    + exfalso. lra.
  - destruct (completes (progress (Num 10) (Num e))); [|reflexivity].
    exfalso. pose proof (proj1 Hiff eq_refl). lra.
  - by apply Hiff'.
Defined.

(** Four seconds into a haircut of six, the value is the double written
    66.66666666666666, just below two thirds of 100. *)
Lemma progress_rounds_the_double :
  elapsed 0 4000 = Num 4
  ∧ progress (Num 6) (Num 4) = Num (2345624805922133 # 35184372088832)
  ∧ (2345624805922133 # 35184372088832 < 200 # 3)%Q
  ∧ completes (progress (Num 6) (Num 4)) = false.
Proof. repeat apply conj; vm_compute; reflexivity. Qed.

(** ** Barber records *)

Lemma consistent_mono n m b : n ≤ m → consistent n b → consistent m b.
Proof.
  intros Hnm [Ht Hb]. split; [done|].
  destruct (Barber.state b); [done|].
  destruct Hb as ((id & Hid & Hr) & Hs & He).
  split; [|done]. exists id. split; [done|lia].
Qed.

Lemma consistent_newBarber n id : consistent n (newBarber id).
Proof. by split. Qed.

Lemma consistent_wakeFor n b cid now endT :
  consistent n b → 1 ≤ cid < n → consistent n (wakeFor b cid now endT).
Proof. intros [Ht _] Hcid. split; [done|]. repeat split; by eauto. Qed.

Lemma consistent_freed s n newTime b :
  consistent n b → Forall (idBelow n) (waitingCustomers s) →
  consistent n (freed s newTime b).
Proof.
  intros [Ht _] Hw. unfold freed.
  destruct (waitingCustomers s) as [|h rest]; (split; [simpl; lia|]).
  - done.
  - apply Forall_cons in Hw as [Hh _]. repeat split; by eauto.
Qed.

Lemma consistent_with_id n b id : consistent n b → consistent n (Barber.with_id b id).
Proof. by destruct b. Qed.

Lemma Forall_alter_implied {A} (P : A → Prop) (f : A → A) (l : list A) i :
  (∀ x, P x → P (f x)) → Forall P l → Forall P (alter f i l).
Proof.
  intros Hf Hl. apply Forall_lookup. intros j x.
  destruct (decide (i = j)) as [->|Hne].
  - rewrite list_lookup_alter_eq. destruct (l !! j) as [y|] eqn:E; [|done].
    simpl. intros [= <-]. apply Hf. by eapply Forall_lookup_1.
  - rewrite list_lookup_alter_ne by done. by apply Forall_lookup_1.
Qed.

Lemma commit_keepsBarbers n s q :
  Forall (keepsBarbers n) q → Forall (consistent n) (barbers s) →
  Forall (consistent n) (barbers (commit s q)).
Proof.
  intros H. revert s. induction H as [|u q Hu _ IH]; intros s Hs; [done|].
  change (commit s (u :: q)) with (commit (applyUpdate s u) q). apply IH.
  destruct s, u; simpl in *; try done. by apply Hu.
Qed.

Lemma keepsBarbers_value n bs :
  Forall (consistent n) bs → keepsBarbers n (setBarbers (Value bs)).
Proof. by intros H prev _. Qed.

Lemma addCustomerWithName_keepsBarbers n s name :
  1 ≤ nextCustomerId s < n → Forall (consistent n) (barbers s) →
  Forall (keepsBarbers n) (addCustomerWithName s name).
Proof.
  intros Hn Hs. unfold addCustomerWithName.
  repeat case_match; repeat constructor.
  all: apply keepsBarbers_value, Forall_alter_implied; [|done].
  all: intros b Hb; by apply consistent_wakeFor.
Qed.

Lemma forEach_keepsBarbers n s newTime cs L :
  Forall (idBelow n) (waitingCustomers s) →
  Forall (consistent n) (updatedBarbers L) →
  Forall (consistent n) (updatedBarbers (forEach (finishHaircut s newTime) cs L).1).
Proof.
  intros Hw HL.
  apply (forEach_invariant (λ L, Forall (consistent n) (updatedBarbers L)));
    [done|].
  intros a x a' Ha _ Hf.
  apply finishHaircut_Some in Hf as [[_ ->]|(_ & i & b & _ & Hb & ->)]; [done|].
  cbn [updatedBarbers]. rewrite <- (alter_as_insert (λ _, freed s newTime b) _ _ _ Hb).
  apply Forall_lookup. intros j x'.
  destruct (decide (i = j)) as [->|Hne].
  - rewrite list_lookup_alter_eq, Hb. simpl. intros [= <-].
    apply consistent_freed; [|done]. by eapply Forall_lookup_1.
  - rewrite list_lookup_alter_ne by done. by apply Forall_lookup_1.
Qed.

Lemma processTimeStep_keepsBarbers n s timeStep u r :
  nextCustomerId s ≤ n →
  (admitsArrival s timeStep u r = true → nextCustomerId s < n) →
  1 ≤ nextCustomerId s →
  Forall (idBelow n) (waitingCustomers s) →
  Forall (consistent n) (barbers s) →
  Forall (keepsBarbers n) (queue (processTimeStep s timeStep u r)).
Proof.
  intros Hn Harr H1 Hw Hs.
  pose proof (forEach_keepsBarbers n s (currentTime s + timeStep)%Q
    (currentCustomers s) (mkLocals (barbers s) [] (currentCustomers s) [] [])
    Hw Hs) as Hb.
  step_cases s timeStep L Hq; try constructor; try done.
  - eapply Forall_impl; [exact Hq|]. by intros [].
  - repeat apply Forall_app_2.
    + eapply Forall_impl; [exact Hq|]. by intros [].
    + repeat constructor. by intros prev _.
    + case_match; repeat constructor.
    + rewrite !andb_true_r in *.
      destruct (arrives s timeStep u); [|constructor].
      apply addCustomerWithName_keepsBarbers; [|done].
      specialize (Harr eq_refl). lia.
Qed.

Lemma assignCustomers_keepsBarbers n s :
  Forall (idBelow n) (waitingCustomers s) →
  Forall (consistent n) (barbers s) →
  Forall (keepsBarbers n) (assignCustomersToBarbers s).
Proof.
  intros Hw Hs. unfold assignCustomersToBarbers.
  destruct (waitingCustomers s) as [|h rest]; [constructor|].
  apply Forall_cons in Hw as [Hh _].
  case_match; [constructor|].
  apply Forall_app_2; [apply Forall_fmap, Forall_forall; by intros|].
  repeat constructor. apply keepsBarbers_value.
  generalize (sleepingBarberIndices (barbers s)) as indices.
  revert Hs. generalize (barbers s) as bs.
  intros bs Hbs indices. revert bs Hbs.
  induction indices as [|i indices IH]; intros bs Hbs; [done|].
  simpl. apply IH. apply Forall_alter_implied; [|done].
  intros b Hb. by apply consistent_wakeFor.
Qed.

Lemma handleServiceComplete_keepsBarbers n s barberId :
  Forall (idBelow n) (waitingCustomers s) →
  Forall (consistent n) (barbers s) →
  Forall (keepsBarbers n) (handleServiceComplete s barberId).
Proof.
  intros Hw Hs. unfold handleServiceComplete.
  destruct (list_find _ (barbers s)) as [[i b]|] eqn:E; [|constructor].
  apply list_find_Some in E as (Hb & _).
  assert (0 ≤ Barber.totalCustomersServed b) as Ht
    by (by destruct (Forall_lookup_1 _ _ _ _ Hs Hb)).
  destruct (waitingCustomers s) as [|h rest] eqn:Ew.
  - repeat case_match; repeat constructor.
    apply keepsBarbers_value. rewrite list_insert_insert_eq.
    apply Forall_insert; [done|]. split; simpl; [lia|done].
  - apply Forall_cons in Hw as [Hh _].
    repeat case_match; repeat constructor.
    apply keepsBarbers_value. rewrite list_insert_insert_eq.
    apply Forall_insert; [done|]. split; simpl; [lia|].
    repeat split; by eauto.
Qed.

Lemma removeFromEnd_consistent n k limit r bs :
  Forall (consistent n) bs → Forall (consistent n) (removeFromEnd k limit r bs).
Proof.
  revert r bs. induction k as [|k IH]; intros r bs Hbs; simpl; [done|].
  case_match; [|done]. case_match; [|done].
  case_match; apply IH; [|done]. by apply Forall_delete.
Qed.

Lemma handle_consistent s e :
  barbers s ≠ [] → idsBelowNext s →
  Forall (consistent (nextCustomerId s)) (barbers s) →
  Forall (consistent (nextCustomerId (handle s e))) (barbers (handle s e)).
Proof.
  intros Hne [H1 (Hw & _)] Hs.
  assert (∀ m, nextCustomerId s ≤ m → Forall (consistent m) (barbers s)) as Hup.
  { intros m Hm. eapply Forall_impl; [exact Hs|].
    intros b. by apply consistent_mono. }
  assert (∀ m, nextCustomerId s ≤ m → Forall (idBelow m) (waitingCustomers s))
    as Hwup.
  { intros m Hm. eapply Forall_impl; [exact Hw|]. unfold idBelow. lia. }
  assert ((length (barbers s) =? 0)%nat = false) as Hlen
    by (destruct (barbers s); done).
  rewrite handle_nextId.
  destruct e as [[name|timeStep u r|n|n| |]|barberId| |seconds];
    rewrite ?Hlen; cbn [handle exec].
  - apply commit_keepsBarbers; [|apply Hup; lia].
    apply addCustomerWithName_keepsBarbers; [lia|apply Hup; lia].
  - destruct (admitsArrival s timeStep u r) eqn:Ha.
    + apply commit_keepsBarbers; [|apply Hup; lia].
      apply processTimeStep_keepsBarbers;
        [lia|lia|done|apply Hwup; lia|apply Hup; lia].
    + apply commit_keepsBarbers; [|done].
      apply processTimeStep_keepsBarbers; [lia|by rewrite Ha|done..].
  - apply commit_keepsBarbers; [|done]. unfold updateBarberCount.
    repeat case_match; repeat constructor.
    + intros prev Hprev. apply Forall_app_2; [done|].
      apply Forall_fmap, Forall_forall. intros k _. apply consistent_newBarber.
    + apply keepsBarbers_value. unfold renumber.
      apply Forall_lookup. intros j x. rewrite list_lookup_imap.
      destruct (removeFromEnd _ _ _ _ !! j) as [y|] eqn:Ey; [|done].
      simpl. intros [= <-]. apply consistent_with_id.
      eapply Forall_lookup_1; [|exact Ey]. by apply removeFromEnd_consistent.
  - apply commit_keepsBarbers; [|done]. unfold updateChairCount.
    case_match; repeat constructor.
  - apply commit_keepsBarbers; [|done]. unfold togglePauseSimulation.
    case_match; repeat constructor.
  - apply commit_keepsBarbers; [|done]. unfold startHaircuts. rewrite Hlen.
    change ([] ++ ?q) with q.
    case_match; [constructor|]. apply Forall_app_2.
    + repeat case_match; repeat constructor.
    + by apply assignCustomers_keepsBarbers.
  - apply commit_keepsBarbers; [|done].
    by apply handleServiceComplete_keepsBarbers.
  - unfold resetSimulation. destruct s; simpl.
    apply Forall_fmap, Forall_forall. intros k _. apply consistent_newBarber.
  - done.
Qed.

(** In every state the interface can reach, every barber record is
    consistent: its counter is not negative; a sleeping barber serves
    nobody and has no start or end time; a working barber serves a
    customer id that was handed out, at least 1 and below
    [nextCustomerId], and has a start and an end time. *)
Theorem reachableUI_barbers_consistent s :
  reachableUI s → Forall (consistent (nextCustomerId s)) (barbers s).
Proof.
  intros H.
  cut (poolOk s ∧ idsBelowNext s
       ∧ Forall (consistent (nextCustomerId s)) (barbers s)); [tauto|].
  revert s H. apply reachableUI_invariant.
  - split; [vm_compute; repeat split; discriminate|].
    split; [split; [done|repeat split; constructor]|].
    apply Forall_singleton, consistent_newBarber.
  - intros s e (Hp & Hi & Hb).
    assert (barbers s ≠ []) as Hne.
    { destruct Hp as (Hnb & _ & Hlen). destruct (barbers s); simpl in *; [lia|done]. }
    split; [by apply handle_poolOk|].
    split; [by apply handle_idsBelowNext|].
    by apply handle_consistent.
Qed.

Lemma reachableUI_barbers_consistent_witness :
  let s := foldl handle initial
    [Cmd (SetBarberCount 2); Cmd (AddCustomer "A"); Cmd (AddCustomer "B");
     Cmd (AddCustomer "C"); Cmd (Advance 10 1 0); ServiceComplete 2] in
  reachableUI s ∧ Forall (consistent (nextCustomerId s)) (barbers s).
Proof.
  intros s. assert (reachableUI s) as Hs by (eexists; reflexivity).
  split; [exact Hs|]. exact (reachableUI_barbers_consistent s Hs).
Defined.
